(** * A shallow embedding of the universal hash table (lib/hash_table.c)

    The C sources are embedded function by function.  The data model
    is the one of an LP64 little-endian target: [size_t] and pointers
    are 64-bit, [int] and [uint32_t] are 32-bit, and a C union is the
    raw word its members overlay.  Memory is a finite map from block
    addresses to blocks; every function of the library is a state
    transformer on such a memory. *)

From Stdlib Require Import ZArith QArith Lia List.
From Stdlib.Strings Require Import String Byte.
From stdpp Require Import base gmap list.

Local Open Scope Z_scope.

(** ** Machine integers *)

Definition SIZE_MAX : Z := 2 ^ 64 - 1.

(** Conversion to [size_t] (and arithmetic in it) wraps modulo 2^64. *)
Definition to_size_t (z : Z) : Z := z mod 2 ^ 64.

(** Conversion to [uint32_t] wraps modulo 2^32. *)
Definition to_uint32 (z : Z) : Z := z mod 2 ^ 32.

(** Conversion to [int]: the 32-bit two's complement reading. *)
Definition to_int (z : Z) : Z :=
  let u := z mod 2 ^ 32 in
  if u <? 2 ^ 31 then u else u - 2 ^ 32.

(** [(unsigned char)c] for a byte of memory. *)
Definition uchar (c : byte) : Z := Z.of_N (Byte.to_N c).

(** ** Hash functions *)

(** [hash_int]: Knuth's multiplicative method.  Both factors have type
    [uint32_t], so has the product; it is widened to [size_t] on
    return. *)
Definition MULTIPLIER : Z := 2654435769.

Definition hash_int (key : Z) : Z :=
  let k := to_uint32 key in
  to_size_t (to_uint32 (k * MULTIPLIER)).

(** The loop of [hash_str], over the bytes found at [key_string]:
    it stops at the first NUL.  [None] when the bytes run out before a
    NUL is met (the read leaves the block). *)
Fixpoint hash_str_loop (hash : Z) (key_string : list byte) : option Z :=
  match key_string with
  | [] => None
  | c :: rest =>
      if (uchar c =? 0) then Some hash
      else hash_str_loop
             (to_size_t (to_size_t (to_size_t (Z.shiftl hash 5) + hash) + uchar c))
             rest
  end.

(** [hash_str]: DJB2. *)
Definition hash_str (key_string : list byte) : option Z :=
  hash_str_loop 5381 key_string.

(** The DJB2 recurrence as a fold over the characters of a string. *)
Definition djb2_step (digest : Z) (c : byte) : Z :=
  (digest * 33 + uchar c) mod 2 ^ 64.

Definition djb2 (s : list byte) : Z := fold_left djb2_step s 5381.

(** A C string: no NUL among its characters. *)
Definition no_nul (s : list byte) : Prop := Forall (fun c => c <> x00) s.

(** ** Bytes of memory, little-endian *)

Definition byte_of_Z (z : Z) : byte :=
  match Byte.of_N (Z.to_N (z mod 256)) with
  | Some b => b
  | None => x00
  end.

(** The [n] low bytes of [z], least significant first. *)
Fixpoint le_encode (n : nat) (z : Z) : list byte :=
  match n with
  | O => []
  | S n' => byte_of_Z z :: le_encode n' (z / 256)
  end.

Fixpoint le_decode (bs : list byte) : Z :=
  match bs with
  | [] => 0
  | b :: bs' => uchar b + 256 * le_decode bs'
  end.

(** Reading an object of [n] bytes at the start of a block; [None]
    when the block is shorter than the object. *)
Definition read_le (n : nat) (bs : list byte) : option Z :=
  if (n <=? length bs)%nat then Some (le_decode (firstn n bs)) else None.

(** [*(int* )p], [*(char** )p]. *)
Definition read_int (bs : list byte) : option Z := option_map to_int (read_le 4 bs).
Definition read_ptr (bs : list byte) : option Z := read_le 8 bs.

(** The C string that starts a block: its characters up to the first
    NUL; [None] when the block holds no NUL. *)
Fixpoint c_string (bs : list byte) : option (list byte) :=
  match bs with
  | [] => None
  | c :: rest =>
      if (uchar c =? 0) then Some []
      else option_map (cons c) (c_string rest)
  end.

(** ** Keys, values, elements, tables (hash_table.h) *)

(** [key_type] *)
Definition HT_INT_KEY : Z := 0.
Definition HT_STR_KEY : Z := 1.

Definition key_type_check (curr_key_type : Z) : bool :=
  (curr_key_type =? HT_INT_KEY) || (curr_key_type =? HT_STR_KEY).

(** [value_type] *)
Definition HT_U_INT8_VAL : Z := 0.
Definition HT_U_INT16_VAL : Z := 1.
Definition HT_U_INT32_VAL : Z := 2.
Definition HT_U_INT64_VAL : Z := 3.
Definition HT_INT8_VAL : Z := 4.
Definition HT_INT16_VAL : Z := 5.
Definition HT_INT32_VAL : Z := 6.
Definition HT_INT64_VAL : Z := 7.
Definition HT_U_SHORT_VAL : Z := 8.
Definition HT_SHORT_VAL : Z := 9.
Definition HT_U_INT_VAL : Z := 10.
Definition HT_INT_VAL : Z := 11.
Definition HT_U_LONG_VAL : Z := 12.
Definition HT_LONG_VAL : Z := 13.
Definition HT_U_LONG_LONG_VAL : Z := 14.
Definition HT_LONG_LONG_VAL : Z := 15.
Definition HT_FLOAT_VAL : Z := 16.
Definition HT_DOUBLE_VAL : Z := 17.
Definition HT_LONG_DOUBLE_VAL : Z := 18.
Definition HT_CHAR_VAL : Z := 19.
Definition HT_STR_VAL : Z := 20.
Definition HT_ARRAY_VAL : Z := 21.

Definition value_type_check (curr_value_type : Z) : bool :=
  (HT_U_INT8_VAL <=? curr_value_type) && (curr_value_type <=? HT_ARRAY_VAL).

(** [pass_method] *)
Definition PASS_BY_REFERENCE : Z := 0.
Definition PASS_BY_COPY : Z := 1.

(** [ht_key]: the type tag and the union [data], an 8-byte cell.
    [as_int] is its low four bytes read as an [int], [as_str] the whole
    cell read as a pointer. *)
Record ht_key := { k_type : Z; k_data : Z }.

Definition as_int (data : Z) : Z := to_int data.
Definition as_str (data : Z) : Z := data.

(** Storing through a member of [n] bytes leaves the other bytes of
    the union as they were. *)
Definition set_member (n : nat) (data v : Z) : Z :=
  data - data mod 256 ^ Z.of_nat n + v mod 256 ^ Z.of_nat n.

Definition set_as_int (data v : Z) : Z := set_member 4 data v.

(** A pointer fills the cell. *)
Definition set_as_str (data p : Z) : Z := p.

(** The typed [ht_value] (first declaration of the header): type tag,
    pass method, a 16-byte union and the size of the stored member. *)
Record ht_value :=
  { v_type : Z; v_curr_pass_method : Z; v_data : Z; v_data_size : Z }.

(** The value cell the older functions ([ht_add_pair], [ht_clear],
    [ht_delete]) read in an element: [element->value], a pointer to a
    heap copy, and [element->value_size]. *)
Record boxed_value := { b_value : Z; b_value_size : Z }.

(** The argument struct of the header's second declaration
    ([{ void* ptr; size_t size; }]), built by the [HT_VAL] macro. *)
Record ht_val_arg := { a_ptr : Z; a_size : Z }.

(** What an element array needs to know of its value cell: the
    all-zero cell [calloc] produces and [sizeof(ht_element)]. *)
Class Cell (V : Type) := { zero_cell : V; sizeof_ht_element : Z }.

#[global] Instance typed_cell : Cell ht_value :=
  {| zero_cell := {| v_type := 0; v_curr_pass_method := 0; v_data := 0; v_data_size := 0 |};
     sizeof_ht_element := 80 |}.

#[global] Instance boxed_cell : Cell boxed_value :=
  {| zero_cell := {| b_value := 0; b_value_size := 0 |};
     sizeof_ht_element := 40 |}.

(** [ht_element] *)
Record ht_element (V : Type) := { e_key : ht_key; e_value : V; e_occupied : Z }.
Arguments e_key {V} _.
Arguments e_value {V} _.
Arguments e_occupied {V} _.

Definition zero_element {V} `{Cell V} : ht_element V :=
  {| e_key := {| k_type := 0; k_data := 0 |}; e_value := zero_cell; e_occupied := 0 |}.

(** [hash_table].  The two index fields are never initialised by
    [ht_create]: [None] is an indeterminate value. *)
Record hash_table :=
  { t_elements : Z;
    t_capacity : Z;
    t_size : Z;
    t_max_load_factor : Q;
    t_first_element_hash_index : option Z;
    t_last_element_hash_index : option Z }.

Definition with_elements (t : hash_table) (p : Z) : hash_table :=
  {| t_elements := p; t_capacity := t_capacity t; t_size := t_size t;
     t_max_load_factor := t_max_load_factor t;
     t_first_element_hash_index := t_first_element_hash_index t;
     t_last_element_hash_index := t_last_element_hash_index t |}.

Definition with_capacity (t : hash_table) (c : Z) : hash_table :=
  {| t_elements := t_elements t; t_capacity := c; t_size := t_size t;
     t_max_load_factor := t_max_load_factor t;
     t_first_element_hash_index := t_first_element_hash_index t;
     t_last_element_hash_index := t_last_element_hash_index t |}.

Definition with_size (t : hash_table) (n : Z) : hash_table :=
  {| t_elements := t_elements t; t_capacity := t_capacity t; t_size := n;
     t_max_load_factor := t_max_load_factor t;
     t_first_element_hash_index := t_first_element_hash_index t;
     t_last_element_hash_index := t_last_element_hash_index t |}.

(** ** Memory and the outcome of a call *)

(** A heap block: a table record, an element array, or raw bytes
    (strings, scalars, value copies). *)
Inductive block (V : Type) :=
| BTable (t : hash_table)
| BElems (es : list (ht_element V))
| BBytes (bs : list byte).
Arguments BTable {V} _.
Arguments BElems {V} _.
Arguments BBytes {V} _.

Inductive stream := Stdout | Stderr.

(** The world a call runs in: the heap, the answers the allocator will
    give to the coming requests ([false]: the request fails; an empty
    plan: every request succeeds), and what has been printed. *)
Record world (V : Type) :=
  { heap : gmap Z (block V);
    alloc_plan : list bool;
    console : list (stream * string) }.
Arguments heap {V} _.
Arguments alloc_plan {V} _.
Arguments console {V} _.

(** How a call ends. *)
Inductive outcome (W A : Type) :=
| Ret (a : A) (w : W)          (* returns [a] *)
| Exit (status : Z) (w : W)    (* [exit(status)] *)
| Abort (w : W)                (* a failed [assert] *)
| Undef                        (* undefined behaviour *)
| Timeout.                     (* a loop outlived its fuel *)
Arguments Ret {W A} _ _.
Arguments Exit {W A} _ _.
Arguments Abort {W A} _.
Arguments Undef {W A}.
Arguments Timeout {W A}.

Definition M (W A : Type) : Type := W -> outcome W A.

Definition ret {W A} (a : A) : M W A := fun w => Ret a w.

Definition bind {W A B} (m : M W A) (k : A -> M W B) : M W B :=
  fun w =>
    match m w with
    | Ret a w' => k a w'
    | Exit s w' => Exit s w'
    | Abort w' => Abort w'
    | Undef => Undef
    | Timeout => Timeout
    end.

Notation "'do' x <- m ; k" := (bind m (fun x => k))
  (at level 10, x name, m at level 100, k at level 200,
   format "'[v' 'do'  x  <-  m ; '/' k ']'").
Notation "'run' m ; k" := (bind m (fun _ => k))
  (at level 10, m at level 100, k at level 200,
   format "'[v' 'run'  m ; '/' k ']'").

Definition undef {W A} : M W A := fun _ => Undef.
Definition timeout {W A} : M W A := fun _ => Timeout.
Definition exit {W A} (status : Z) : M W A := fun w => Exit status w.
Definition abort {W A} : M W A := fun w => Abort w.

(** An option read off memory: [None] is an invalid access. *)
Definition defined {W A} (o : option A) : M W A :=
  match o with Some a => ret a | None => undef end.

(** ** Memory primitives: the C library calls the sources make *)

Section Memory.
Context {V : Type} `{Cell V}.

Local Abbreviation W := (world V).

Definition set_heap (w : W) (h : gmap Z (block V)) : W :=
  {| heap := h; alloc_plan := alloc_plan w; console := console w |}.

(** [fprintf(stream, msg)] / [printf(msg)]: the format string is
    recorded as written. *)
Definition fprintf (s : stream) (msg : string) : M W unit :=
  fun w => Ret tt {| heap := heap w; alloc_plan := alloc_plan w;
                     console := console w ++ [(s, msg)] |}.

(** An address above every live block (never [NULL]). *)
Definition fresh_addr (h : gmap Z (block V)) : Z :=
  1 + foldr (fun kv acc => Z.max (fst kv) acc) 0 (map_to_list h).

(** The allocator's answer to the coming request. *)
Definition next_answer (plan : list bool) : bool :=
  match plan with
  | false :: _ => false
  | _ => true
  end.

(** One allocation request: [NULL] when the plan says so, else a
    fresh block with the given contents. *)
Definition alloc (b : block V) : M W Z :=
  fun w =>
    if next_answer (alloc_plan w) then
      let p := fresh_addr (heap w) in
      Ret p {| heap := <[p := b]> (heap w);
               alloc_plan := tail (alloc_plan w);
               console := console w |}
    else
      Ret 0 {| heap := heap w; alloc_plan := tail (alloc_plan w); console := console w |}.

(** [calloc(n, sizeof(ht_element))]: [NULL] when the byte count
    overflows [size_t]. *)
Definition calloc_elements (n : Z) : M W Z :=
  if (SIZE_MAX <? n * sizeof_ht_element) then ret 0
  else alloc (BElems (repeat zero_element (Z.to_nat n))).

(** [free(p)]: nothing for [NULL]; undefined when [p] is not a live
    block. *)
Definition free (p : Z) : M W unit :=
  fun w =>
    if (p =? 0) then Ret tt w
    else match heap w !! p with
         | Some _ => Ret tt (set_heap w (delete p (heap w)))
         | None => Undef
         end.

Definition load_table (p : Z) : M W hash_table :=
  fun w => match heap w !! p with
           | Some (BTable t) => Ret t w
           | _ => Undef
           end.

Definition store_table (p : Z) (t : hash_table) : M W unit :=
  fun w => match heap w !! p with
           | Some (BTable _) => Ret tt (set_heap w (<[p := BTable t]> (heap w)))
           | _ => Undef
           end.

Definition load_elems (p : Z) : M W (list (ht_element V)) :=
  fun w => match heap w !! p with
           | Some (BElems es) => Ret es w
           | _ => Undef
           end.

(** [p[i]], read and written; out of the array is undefined. *)
Definition load_element (p i : Z) : M W (ht_element V) :=
  do es <- load_elems p;
  if (i <? 0) then undef else defined (es !! Z.to_nat i).

Definition store_element (p i : Z) (e : ht_element V) : M W unit :=
  fun w => match heap w !! p with
           | Some (BElems es) =>
               if (0 <=? i) && (i <? Z.of_nat (length es))
               then Ret tt (set_heap w (<[p := BElems (<[Z.to_nat i := e]> es)]> (heap w)))
               else Undef
           | _ => Undef
           end.

(** The bytes of the object a [void*] points to. *)
Definition load_bytes (p : Z) : M W (list byte) :=
  fun w => match heap w !! p with
           | Some (BBytes bs) => Ret bs w
           | _ => Undef
           end.

(** The C string at [p]. *)
Definition load_string (p : Z) : M W (list byte) :=
  do bs <- load_bytes p;
  defined (c_string bs).

(** [strdup(p)] *)
Definition strdup (p : Z) : M W Z :=
  do s <- load_string p;
  alloc (BBytes (s ++ [x00])).

(** [malloc(n)] for a buffer of [n] bytes.  Its contents are
    indeterminate; the callers overwrite them at once. *)
Definition malloc (n : Z) : M W Z :=
  alloc (BBytes (repeat x00 (Z.to_nat n))).

(** [memcpy(dst, src, n)] between two byte blocks. *)
Definition memcpy (dst src n : Z) : M W unit :=
  fun w =>
    match heap w !! dst, heap w !! src with
    | Some (BBytes d), Some (BBytes s) =>
        if (0 <=? n) && (n <=? Z.of_nat (length d)) && (n <=? Z.of_nat (length s))
        then Ret tt (set_heap w (<[dst := BBytes (firstn (Z.to_nat n) s ++ skipn (Z.to_nat n) d)]>
                                   (heap w)))
        else Undef
    | _, _ => Undef
    end.

End Memory.

(** [strcmp(a, b) == 0], on the characters of two C strings. *)
Fixpoint strcmp_eq (a b : list byte) : bool :=
  match a, b with
  | [], [] => true
  | x :: a', y :: b' => Byte.eqb x y && strcmp_eq a' b'
  | _, _ => false
  end.

(** ** The [double] computations of the load factor

    The quotients are kept as exact rationals, with the IEEE results of
    a division by zero.  Rounding is not modelled: the quotient is
    exact whenever the capacity is a power of two and the size is below
    2^53. *)

Inductive double := Finite (q : Q) | PosInf | NegInf | NaN.

Definition Qlt_bool (x y : Q) : bool := negb (Qle_bool y x).

Definition ddiv (x y : Q) : double :=
  if Qeq_bool y 0 then
    if Qlt_bool 0 x then PosInf else if Qlt_bool x 0 then NegInf else NaN
  else Finite (x / y).

(** [d > q] and [d < q] *)
Definition dgt (d : double) (q : Q) : bool :=
  match d with Finite x => Qlt_bool q x | PosInf => true | _ => false end.

Definition dlt (d : double) (q : Q) : bool :=
  match d with Finite x => Qlt_bool x q | NegInf => true | _ => false end.

(** ** Defines of hash_table.c *)

Definition HT_INITIAL_CAPACITY : Z := 16.
Definition HT_MAX_DEFAULT_LOAD_FACTOR : Q := 75 # 100.
Definition HT_MIN_DEFAULT_LOAD_FACTOR : Q := 25 # 100.

(** Helper-logic enum for [check_new_element_hash]. *)
Inductive hash_check_status :=
| NEW_PAIR_NEW_HASH
| NEW_PAIR_REPEATED_HASH
| OLD_PAIR_NEW_VALUE.

(** The two variants of the capacity check logic. *)
Inductive capacity_check_call_type := ADD | DELETE.

Section Library.
Context {V : Type} `{Cell V}.

Local Abbreviation W := (world V).

(** *** Table initialisation *)

(** What [malloc] hands out before the fields are written. *)
Definition indeterminate_table : hash_table :=
  {| t_elements := 0; t_capacity := 0; t_size := 0; t_max_load_factor := 0;
     t_first_element_hash_index := None; t_last_element_hash_index := None |}.

(** [ht_create], with the two defines it reads as arguments.  A
    pointer argument or result is the address of a block; [0] is
    [NULL]. *)
Definition ht_create_with (initial_capacity : Z) (max_load_factor : Q) : M W Z :=
  do table <- alloc (BTable indeterminate_table);
  if (table =? 0) then
    run fprintf Stderr "[ERROR] Failed to allocate %zu bytes for hash_table\n";
    ret 0
  else
    let t := {| t_elements := 0;
                t_capacity := to_size_t initial_capacity;
                t_size := 0;
                t_max_load_factor := max_load_factor;
                t_first_element_hash_index := None;
                t_last_element_hash_index := None |} in
    run store_table table t;
    if (t_capacity t =? 0) || (SIZE_MAX / sizeof_ht_element <? t_capacity t) then
      run fprintf Stderr "[ERROR] Invalid capacity: %zu\n";
      run free table;
      ret 0
    else
      do elements <- calloc_elements (t_capacity t);
      run store_table table (with_elements t elements);
      if (elements =? 0) then
        run fprintf Stderr "[ERROR] Failed to allocate %zu elements\n";
        run free table;
        ret 0
      else ret table.

Definition ht_create : M W Z :=
  ht_create_with HT_INITIAL_CAPACITY HT_MAX_DEFAULT_LOAD_FACTOR.

(** *** Argument check of the insert *)

Definition check_ht_pair_input (key key_t value val_t : Z) : M W bool :=
  if negb (key_type_check key_t) then
    run fprintf Stderr "[ERROR] Invalid key_type argument in ht_insert()\n";
    ret false
  else if negb (value_type_check val_t) then
    run fprintf Stderr "[ERROR] Invalid value_type argument in ht_insert()\n";
    ret false
  else if (key =? 0) then
    run fprintf Stderr "[ERROR] NULL key pointer in ht_insert()\n";
    ret false
  else if (value =? 0) then
    run fprintf Stderr "[ERROR] NULL value pointer in ht_insert()\n";
    ret false
  else ret true.

(** *** Hashing a key

    [hash_the_key] only reads through its [key] pointer: the
    embedding passes the bytes of the object [key] points to. *)
Definition hash_the_key (key : list byte) (curr_key_type : Z) : M W Z :=
  if (curr_key_type =? HT_INT_KEY) then
    do k <- defined (read_int key);
    ret (hash_int k)
  else if (curr_key_type =? HT_STR_KEY) then
    do p <- defined (read_ptr key);
    do key_string <- load_bytes p;
    defined (hash_str key_string)
  else
    run fprintf Stderr "Unknown key type\n";
    ret 0.

(** *** Insert status check *)

(** [check_new_element_hash].  The probe key is read through [key]
    as the function does: [*(int* )key] for an int key, and [key]
    itself taken as the string for a string key.  The stored key is
    read through the member the probe's type selects. *)
Definition check_new_element_hash (table : Z) (current_hash : Z)
    (key : list byte) (curr_key_type : Z) : M W hash_check_status :=
  do t <- load_table table;
  let current_hash := Z.land current_hash (to_size_t (t_capacity t - 1)) in
  do curr_element <- load_element (t_elements t) current_hash;
  if (e_occupied curr_element =? 0) then ret NEW_PAIR_NEW_HASH
  else if (curr_key_type =? HT_INT_KEY) then
    do int_key <- defined (read_int key);
    if (as_int (k_data (e_key curr_element)) =? int_key)
    then ret OLD_PAIR_NEW_VALUE
    else ret NEW_PAIR_REPEATED_HASH
  else if (curr_key_type =? HT_STR_KEY) then
    if (as_str (k_data (e_key curr_element)) =? 0) then ret NEW_PAIR_REPEATED_HASH
    else
      do stored <- load_string (as_str (k_data (e_key curr_element)));
      do str_key <- defined (c_string key);
      if strcmp_eq stored str_key
      then ret OLD_PAIR_NEW_VALUE
      else ret NEW_PAIR_REPEATED_HASH
  else abort.

(** *** Boundaries check *)

(** [boundary_index_check] returns [false] for an index out of the
    table.  Otherwise it updates its local copy of the table and
    reaches its closing brace with no [return]: [None] stands for the
    missing value. *)
Definition boundary_index_check (table : Z) (new_hashed_index : Z) : M W (option bool) :=
  do curr_ht <- load_table table;
  if (t_capacity curr_ht <=? new_hashed_index) then
    run fprintf Stderr "[ERROR[ Hashed index is out of table range]]";
    ret (Some false)
  else ret None.

(** *** Capacity check, resize and rehash *)

(** The probing loop of the rehash:
    [while (new_elements[new_index].occupied) new_index = (new_index + 1) & (new_capacity - 1);] *)
Fixpoint rehash_probe (fuel : nat) (new_elements new_capacity new_index : Z) : M W Z :=
  match fuel with
  | O => timeout
  | S fuel' =>
      do e <- load_element new_elements new_index;
      if (e_occupied e =? 0) then ret new_index
      else rehash_probe fuel' new_elements new_capacity
             (Z.land (to_size_t (new_index + 1)) (to_size_t (new_capacity - 1)))
  end.

(** The new index of an old element: the switch on its key type.
    [hash_the_key] is given the address of the member of the key's
    union, that is the eight bytes of the union; for a type outside
    the enum the index is left uninitialised. *)
Definition rehash_index (old_element : ht_element V) (new_capacity : Z) : M W Z :=
  let ktype := k_type (e_key old_element) in
  if (ktype =? HT_INT_KEY) || (ktype =? HT_STR_KEY) then
    do h <- hash_the_key (le_encode 8 (k_data (e_key old_element))) ktype;
    ret (Z.land h (to_size_t (new_capacity - 1)))
  else undef.

(** The move of an old element to the free slot [new_index] of the
    new array: occupancy mark, value, then the key (copied as it is,
    or duplicated with [strdup] when it is a string). *)
Definition rehash_move (old_element : ht_element V) (new_elements new_index : Z)
  : M W unit :=
  do new_element <- load_element new_elements new_index;
  let new_element :=
    {| e_key := e_key new_element;
       e_value := e_value old_element;
       e_occupied := 1 |} in
  run store_element new_elements new_index new_element;
  if negb (k_type (e_key old_element) =? HT_STR_KEY) then
    store_element new_elements new_index
      {| e_key := e_key old_element;
         e_value := e_value new_element;
         e_occupied := e_occupied new_element |}
  else
    do copy <- strdup (as_str (k_data (e_key old_element)));
    run store_element new_elements new_index
      {| e_key := {| k_type := HT_STR_KEY;
                     k_data := set_as_str (k_data (e_key new_element)) copy |};
         e_value := e_value new_element;
         e_occupied := e_occupied new_element |};
    if (copy =? 0) then
      run fprintf Stderr "Error: failed to duplicate string key during resize\n";
      exit 1
    else ret tt.

(** The body of the rehash loop for slot [i] of the old array. *)
Definition rehash_slot (fuel : nat) (old_elements new_elements new_capacity i : Z) : M W unit :=
  do old_element <- load_element old_elements i;
  if (e_occupied old_element =? 0) then ret tt
  else
    do new_index <- rehash_index old_element new_capacity;
    do new_index <- rehash_probe fuel new_elements new_capacity new_index;
    rehash_move old_element new_elements new_index.

(** [for (size_t i = 0; i < old_capacity; i++)], [n] iterations from [i]. *)
Fixpoint rehash (fuel : nat) (old_elements new_elements new_capacity : Z)
    (n : nat) (i : Z) : M W unit :=
  match n with
  | O => ret tt
  | S n' =>
      run rehash_slot fuel old_elements new_elements new_capacity i;
      rehash fuel old_elements new_elements new_capacity n' (i + 1)
  end.

(** [resize_ht] *)
Definition resize_ht (fuel : nat) (table : Z) (check_call_type : capacity_check_call_type)
  : M W unit :=
  if (table =? 0) then ret tt
  else
    do t <- load_table table;
    if (t_elements t =? 0) then
      fprintf Stderr "Error: no data in the resized table!\n"
    else
      let old_capacity := t_capacity t in
      let old_elements := t_elements t in
      match check_call_type with
      | ADD =>
          if (SIZE_MAX / 2 <? old_capacity) then
            fprintf Stderr "Resize skip: hash table too big to resize\n"
          else
            let new_capacity := to_size_t (old_capacity * 2) in
            do new_elements <- calloc_elements new_capacity;
            if (new_elements =? 0) then
              fprintf Stderr "Error: failed to allocate memory for resized hash table\n"
            else
              run rehash fuel old_elements new_elements new_capacity (Z.to_nat old_capacity) 0;
              run free old_elements;
              do t <- load_table table;
              store_table table (with_elements (with_capacity t new_capacity) new_elements)
      | DELETE =>
          if (old_capacity <=? HT_INITIAL_CAPACITY) then
            fprintf Stderr "Resize skip: hash table too small to resize\n"
          else
            let new_capacity := old_capacity / 2 in
            do new_elements <- calloc_elements new_capacity;
            if (new_elements =? 0) then
              fprintf Stderr "Error: failed to allocate memory for resized hash table\n"
            else
              run rehash fuel old_elements new_elements new_capacity (Z.to_nat old_capacity) 0;
              run free old_elements;
              do t <- load_table table;
              store_table table (with_elements (with_capacity t new_capacity) new_elements)
      end.

(** [ht_capacity_check] *)
Definition ht_capacity_check (fuel : nat) (table : Z)
    (check_call_type : capacity_check_call_type) : M W bool :=
  let adder : Q := match check_call_type with ADD => 1%Q | DELETE => (-1)%Q end in
  do t <- load_table table;
  let load_factor_with_new_element :=
    ddiv (inject_Z (t_size t) + adder) (inject_Z (t_capacity t)) in
  if dgt load_factor_with_new_element HT_MAX_DEFAULT_LOAD_FACTOR
     || dlt load_factor_with_new_element HT_MIN_DEFAULT_LOAD_FACTOR
  then
    run resize_ht fuel table check_call_type;
    ret true
  else ret true.

End Library.

(** ** The typed insert: [ht_insert] *)

Section TypedInsert.

Local Abbreviation W := (world ht_value).

(** [sizeof] of the member a value type selects; [None] for a tag
    outside the enum (the [default: break] of the switch). *)
Definition value_member_size (curr_value_type : Z) : option nat :=
  if (curr_value_type =? HT_U_INT8_VAL) then Some 1%nat
  else if (curr_value_type =? HT_U_INT16_VAL) then Some 2%nat
  else if (curr_value_type =? HT_U_INT32_VAL) then Some 4%nat
  else if (curr_value_type =? HT_U_INT64_VAL) then Some 8%nat
  else if (curr_value_type =? HT_INT8_VAL) then Some 1%nat
  else if (curr_value_type =? HT_INT16_VAL) then Some 2%nat
  else if (curr_value_type =? HT_INT32_VAL) then Some 4%nat
  else if (curr_value_type =? HT_INT64_VAL) then Some 8%nat
  else if (curr_value_type =? HT_U_SHORT_VAL) then Some 2%nat
  else if (curr_value_type =? HT_SHORT_VAL) then Some 2%nat
  else if (curr_value_type =? HT_U_INT_VAL) then Some 4%nat
  else if (curr_value_type =? HT_INT_VAL) then Some 4%nat
  else if (curr_value_type =? HT_U_LONG_VAL) then Some 8%nat
  else if (curr_value_type =? HT_LONG_VAL) then Some 8%nat
  else if (curr_value_type =? HT_U_LONG_LONG_VAL) then Some 8%nat
  else if (curr_value_type =? HT_LONG_LONG_VAL) then Some 8%nat
  else if (curr_value_type =? HT_FLOAT_VAL) then Some 4%nat
  else if (curr_value_type =? HT_DOUBLE_VAL) then Some 8%nat
  else if (curr_value_type =? HT_LONG_DOUBLE_VAL) then Some 16%nat
  else if (curr_value_type =? HT_CHAR_VAL) then Some 1%nat
  else if (curr_value_type =? HT_STR_VAL) then Some 8%nat
  else if (curr_value_type =? HT_ARRAY_VAL) then Some 8%nat
  else None.

(** The status loop of [ht_insert].  It ends with the write
    permission ([inr]) or with an early [return false] ([inl]).  For
    [NEW_PAIR_REPEATED_HASH] the inner loop is guarded by
    [tmp_hash_check_status != NEW_PAIR_REPEATED_HASH] right after the
    status was set to [NEW_PAIR_REPEATED_HASH]: its body never runs
    and the index is left as it was.  Using the value of
    [boundary_index_check] when it returned none is undefined. *)
Fixpoint ht_insert_status_loop (fuel : nat) (table tmp_hashed_key : Z)
    (key : list byte) (curr_key_type : Z) : M W (bool + unit) :=
  match fuel with
  | O => timeout
  | S fuel' =>
      do curr_hash_key_check_status <-
        check_new_element_hash table tmp_hashed_key key curr_key_type;
      match curr_hash_key_check_status with
      | NEW_PAIR_NEW_HASH =>
          do in_range <- boundary_index_check table tmp_hashed_key;
          match in_range with
          | Some false =>
              run fprintf Stdout "[ERROR] Hash index boundary check failed in ht_insert()\n";
              ret (inl false)
          | Some true => ret (inr tt)
          | None => undef
          end
      | NEW_PAIR_REPEATED_HASH =>
          ht_insert_status_loop fuel' table tmp_hashed_key key curr_key_type
      | OLD_PAIR_NEW_VALUE => ret (inr tt)
      end
  end.

(** The first part of [ht_insert], up to the initial index: the
    table is copied into [curr_ht], the capacity check runs on the
    table itself, and the index is masked with [curr_ht.capacity]. *)
Definition ht_insert_index (fuel : nat) (table key curr_key_type : Z)
  : M W (hash_table * list byte * Z) :=
  do curr_ht <- load_table table;
  run ht_capacity_check fuel table ADD;
  do key_object <- load_bytes key;
  do h <- hash_the_key key_object curr_key_type;
  ret (curr_ht, key_object, Z.land h (to_size_t (t_capacity curr_ht - 1))).

(** The writes of [ht_insert], all through [curr_ht.elements].  (The
    source also assigns a [hash_index] field the element does not
    have, and increments [curr_ht.size], a field of the local copy.)
    [(int)( *key)] and the like are read as [*(int* )key]. *)
Definition ht_insert_write (curr_ht : hash_table) (tmp_hashed_key : Z)
    (key : list byte) (curr_key_type : Z)
    (value curr_value_type value_pass_method : Z) : M W unit :=
  let elements := t_elements curr_ht in
  do e <- load_element elements tmp_hashed_key;
  do key_data <-
    (if (curr_key_type =? HT_INT_KEY) then
       do k <- defined (read_int key);
       ret (set_as_int (k_data (e_key e)) k)
     else if (curr_key_type =? HT_STR_KEY) then
       do p <- defined (read_ptr key);
       ret (set_as_str (k_data (e_key e)) p)
     else ret (k_data (e_key e)));
  do value_cell <-
    match value_member_size curr_value_type with
    | Some n =>
        do value_object <- load_bytes value;
        do v <- defined (read_le n value_object);
        ret {| v_type := curr_value_type;
               v_curr_pass_method := value_pass_method;
               v_data := set_member n (v_data (e_value e)) v;
               v_data_size := Z.of_nat n |}
    | None =>
        ret {| v_type := curr_value_type;
               v_curr_pass_method := value_pass_method;
               v_data := v_data (e_value e);
               v_data_size := v_data_size (e_value e) |}
    end;
  store_element elements tmp_hashed_key
    {| e_key := {| k_type := curr_key_type; k_data := key_data |};
       e_value := value_cell;
       e_occupied := e_occupied e |}.

(** [ht_insert].  The result is [Some b] for [return b] and [None]
    when control reaches the end of the function, which has no
    [return].  The report of the index 0 is written in the source as
    [printf(stderr, ...)]; it is read here as the [fprintf] to stderr
    of every other report of the function. *)
Definition ht_insert (fuel : nat) (table key curr_key_type
    value curr_value_type value_pass_method : Z) : M W (option bool) :=
  if (table =? 0) then
    run fprintf Stderr "[ERROR] NULL hash_table pointer in ht_insert()\n";
    ret (Some false)
  else
    do ok <- check_ht_pair_input key curr_key_type value curr_value_type;
    if negb ok then
      run fprintf Stderr "[ERROR] Invalid arguments in ht_insert()\n";
      ret (Some false)
    else
      do start <- ht_insert_index fuel table key curr_key_type;
      let '(curr_ht, key_object, tmp_hashed_key) := start in
      if (tmp_hashed_key =? 0) then
        run fprintf Stderr "[ERROR] Hash operation error in ht_insert()\n";
        ret (Some false)
      else
        do permission <-
          ht_insert_status_loop fuel table tmp_hashed_key key_object curr_key_type;
        match permission with
        | inl b => ret (Some b)
        | inr tt =>
            run ht_insert_write curr_ht tmp_hashed_key key_object curr_key_type
                  value curr_value_type value_pass_method;
            ret None
        end.

End TypedInsert.

(** ** The older insert: [ht_add_pair]

    [ht_add_pair] works on elements whose value is a pointer to a heap
    copy.  Its opening switches on [k_type] and [v_type] name
    variables the function does not have; the embedding starts at the
    pointer checks that follow them.  [hash_int] and [hash_str] are
    called with a second argument the definitions do not take, and
    [resize_ht] without its call type: the capacity argument is
    dropped and the resize is the growing one. *)

Section BoxedInsert.

Local Abbreviation W := (world boxed_value).

Definition set_value (e : ht_element boxed_value) (p : Z) : ht_element boxed_value :=
  {| e_key := e_key e;
     e_value := {| b_value := p; b_value_size := b_value_size (e_value e) |};
     e_occupied := e_occupied e |}.

Definition set_value_size (e : ht_element boxed_value) (n : Z) : ht_element boxed_value :=
  {| e_key := e_key e;
     e_value := {| b_value := b_value (e_value e); b_value_size := n |};
     e_occupied := e_occupied e |}.

(** The branch [if (same_key)] of the probing loop: the value of the
    element at [index] is replaced. *)
Definition ht_add_pair_replace (elements index : Z) (element : ht_element boxed_value)
    (value : ht_val_arg) : M W unit :=
  if (a_ptr value =? 0) then
    fprintf Stderr "Error: NULL value in memcpy\n"
  else
    run free (b_value (e_value element));
    do p <- malloc (a_size value);
    run store_element elements index (set_value element p);
    if (p =? 0) then
      fprintf Stderr "Error: failed to allocate memory for value\n"
    else
      run memcpy p (a_ptr value) (a_size value);
      store_element elements index (set_value_size (set_value element p) (a_size value)).

(** [same_key], for an element whose key type is the probe's. *)
Definition same_key (element : ht_element boxed_value) (key : ht_key) : M W bool :=
  if (k_type key =? HT_INT_KEY) then
    ret (as_int (k_data (e_key element)) =? as_int (k_data key))
  else if (k_type key =? HT_STR_KEY) then
    do a <- load_string (as_str (k_data (e_key element)));
    do b <- load_string (as_str (k_data key));
    ret (strcmp_eq a b)
  else ret false.

(** The first probing loop, [while (table->elements[index].occupied)].
    [inl tt]: the function returned from inside the loop (the key
    was there); [inr index]: the loop ended on the free slot
    [index]. *)
Fixpoint ht_add_pair_probe (fuel : nat) (table : Z) (key : ht_key) (value : ht_val_arg)
    (index : Z) : M W (unit + Z) :=
  match fuel with
  | O => timeout
  | S fuel' =>
      do t <- load_table table;
      do element <- load_element (t_elements t) index;
      if (e_occupied element =? 0) then ret (inr index)
      else if negb (k_type (e_key element) =? k_type key) then
        ht_add_pair_probe fuel' table key value (to_size_t (index + 1) mod t_capacity t)
      else
        do same <- same_key element key;
        if same then
          run ht_add_pair_replace (t_elements t) index element value;
          ret (inl tt)
        else
          ht_add_pair_probe fuel' table key value (to_size_t (index + 1) mod t_capacity t)
  end.

(** The probing loop after a resize:
    [while (table->elements[index].occupied) index = (index + 1) % table->capacity;] *)
Fixpoint ht_add_pair_reprobe (fuel : nat) (table index : Z) : M W Z :=
  match fuel with
  | O => timeout
  | S fuel' =>
      do t <- load_table table;
      do element <- load_element (t_elements t) index;
      if (e_occupied element =? 0) then ret index
      else ht_add_pair_reprobe fuel' table (to_size_t (index + 1) mod t_capacity t)
  end.

(** The insertion of a new element at [index]. *)
Definition ht_add_pair_new (table index : Z) (key : ht_key) (value : ht_val_arg) : M W unit :=
  do t <- load_table table;
  let elements := t_elements t in
  do element <- load_element elements index;
  let element := {| e_key := e_key element; e_value := e_value element; e_occupied := 1 |} in
  run store_element elements index element;
  do keyed <-
    (if (k_type key =? HT_STR_KEY) then
       do copy <- strdup (as_str (k_data key));
       let element :=
         {| e_key := {| k_type := HT_STR_KEY;
                        k_data := set_as_str (k_data (e_key element)) copy |};
            e_value := e_value element; e_occupied := e_occupied element |} in
       run store_element elements index element;
       if (copy =? 0) then
         run fprintf Stderr "Error: failed to duplicate string key\n";
         ret None
       else ret (Some element)
     else
       let element :=
         {| e_key := key; e_value := e_value element; e_occupied := e_occupied element |} in
       run store_element elements index element;
       ret (Some element));
  match keyed with
  | None => ret tt
  | Some element =>
      do p <- malloc (a_size value);
      run store_element elements index (set_value element p);
      if (p =? 0) then
        fprintf Stderr "Error: failed to allocate memory for value\n"
      else
        run memcpy p (a_ptr value) (a_size value);
        store_element elements index (set_value_size (set_value element p) (a_size value))
  end.

(** [ht_add_pair] *)
Definition ht_add_pair (fuel : nat) (table : Z) (key : ht_key) (value : ht_val_arg)
  : M W unit :=
  if (table =? 0) then fprintf Stderr "Error: invalid table pointer.\n"
  else
    do t <- load_table table;
    if (t_elements t =? 0) then fprintf Stderr "Error: invalid table pointer.\n"
    else if (a_ptr value =? 0) then fprintf Stderr "Error: value pointer is NULL.\n"
    else
      do hashed <-
        (if (k_type key =? HT_INT_KEY) then ret (Some (hash_int (as_int (k_data key))))
         else if (k_type key =? HT_STR_KEY) then
           do key_string <- load_bytes (as_str (k_data key));
           do h <- defined (hash_str key_string);
           ret (Some h)
         else
           run fprintf Stderr "Error: unknown key type.\n";
           ret None);
      match hashed with
      | None => ret tt
      | Some hash_value =>
          if (t_capacity t =? 0) then undef
          else
            let index := hash_value mod t_capacity t in
            do probed <- ht_add_pair_probe fuel table key value index;
            match probed with
            | inl tt => ret tt
            | inr index =>
                do t <- load_table table;
                let t := with_size t (to_size_t (t_size t + 1)) in
                run store_table table t;
                let load_factor := ddiv (inject_Z (t_size t)) (inject_Z (t_capacity t)) in
                do index <-
                  (if dgt load_factor (t_max_load_factor t) then
                     run resize_ht fuel table ADD;
                     do t <- load_table table;
                     if (t_capacity t =? 0) then undef
                     else ht_add_pair_reprobe fuel table (hash_value mod t_capacity t)
                   else ret index);
                ht_add_pair_new table index key value
            end
      end.

End BoxedInsert.

(** ** Clearing and deleting a table: [ht_clear], [ht_delete]

    Both functions read [element->value] as a pointer to a heap copy,
    as [ht_add_pair] writes it, and take the address of the caller's
    [hash_table*] variable. *)

Section Teardown.

Local Abbreviation W := (world boxed_value).

(** [*table], for [table] the address of a pointer variable. *)
Definition load_pointer (table : Z) : M W Z :=
  do bs <- load_bytes table;
  defined (read_ptr bs).

(** [*table = p] *)
Definition store_pointer (table p : Z) : M W unit :=
  fun w => match heap w !! table with
           | Some (BBytes bs) =>
               if (8 <=? length bs)%nat
               then Ret tt (set_heap w (<[table := BBytes (le_encode 8 p ++ skipn 8 bs)]>
                                          (heap w)))
               else Undef
           | _ => Undef
           end.

(** An assignment to one field of the table record. *)
Definition update_table (curr_table : Z) (f : hash_table -> hash_table) : M W unit :=
  do t <- load_table curr_table;
  store_table curr_table (f t).

(** [memset(p, 0, n * sizeof(ht_element))] on an element array. *)
Definition memset_elements (p n : Z) : M W unit :=
  fun w => match heap w !! p with
           | Some (BElems es) =>
               if (0 <=? n) && (n <=? Z.of_nat (length es))
               then Ret tt (set_heap w
                              (<[p := BElems (repeat zero_element (Z.to_nat n)
                                              ++ skipn (Z.to_nat n) es)]> (heap w)))
               else Undef
           | _ => Undef
           end.

(** [realloc(p, n * sizeof(ht_element))] on an element array.  When
    it fails the block is left as it is and the result is [NULL].
    When it succeeds the array keeps its first [n] elements; elements
    it gains are indeterminate (zero here).  Whether the block moves
    ([moves]) or is resized where it is lies with the allocator. *)
Definition realloc_elements (moves : bool) (p n : Z) : M W Z :=
  if (p =? 0) then alloc (BElems (repeat zero_element (Z.to_nat n)))
  else
    fun w =>
      match heap w !! p with
      | Some (BElems es) =>
          if next_answer (alloc_plan w) then
            let es' := firstn (Z.to_nat n) es
                       ++ repeat zero_element (Z.to_nat n - length es) in
            if moves then
              let q := fresh_addr (heap w) in
              Ret q {| heap := <[q := BElems es']> (delete p (heap w));
                       alloc_plan := tail (alloc_plan w);
                       console := console w |}
            else
              Ret p {| heap := <[p := BElems es']> (heap w);
                       alloc_plan := tail (alloc_plan w);
                       console := console w |}
          else
            Ret 0 {| heap := heap w; alloc_plan := tail (alloc_plan w);
                     console := console w |}
      | _ => Undef
      end.

(** What both functions do with the element [elements[i]]:
    [if (element->occupied)
     {
         if (element->key.type == HT_STR_KEY && element->key.data.as_str)
             free((void* )element->key.data.as_str);
         if (element->value)
             free(element->value);
     }] *)
Definition free_element_data (elements i : Z) : M W unit :=
  do element <- load_element elements i;
  if (e_occupied element =? 0) then ret tt
  else
    run (if (k_type (e_key element) =? HT_STR_KEY)
            && negb (as_str (k_data (e_key element)) =? 0)
         then free (as_str (k_data (e_key element)))
         else ret tt);
    do element <- load_element elements i;
    if (b_value (e_value element) =? 0) then ret tt
    else free (b_value (e_value element)).

(** The loop of [ht_delete],
    [for (size_t i = 0; i < curr_table->capacity; i++)]: the bound and
    the array are read from the table at every turn; the body ends with
    [memset(element, 0, sizeof(ht_element))]. *)
Fixpoint ht_delete_loop (fuel : nat) (curr_table i : Z) : M W unit :=
  match fuel with
  | O => timeout
  | S fuel' =>
      do t <- load_table curr_table;
      if (i <? t_capacity t) then
        do t <- load_table curr_table;
        let elements := t_elements t in
        run free_element_data elements i;
        run store_element elements i zero_element;
        ht_delete_loop fuel' curr_table (to_size_t (i + 1))
      else ret tt
  end.

(** [ht_delete] *)
Definition ht_delete (fuel : nat) (table : Z) : M W unit :=
  if (table =? 0) then ret tt
  else
    do curr_table <- load_pointer table;
    if (curr_table =? 0) then ret tt
    else
      do t <- load_table curr_table;
      run (if (t_elements t =? 0) then ret tt
           else
             run ht_delete_loop fuel curr_table 0;
             do t <- load_table curr_table;
             run free (t_elements t);
             update_table curr_table (fun t => with_elements t 0));
      run free curr_table;
      store_pointer table 0.

(** The loops of [ht_clear], [n] turns from [i]; their bounds are a
    local and a define.  [wipe] tells whether the body ends with
    [memset(element, 0, sizeof(ht_element))]: it does in the loops over
    the first [HT_INITIAL_CAPACITY] elements, not in the loop over the
    elements beyond them. *)
Fixpoint ht_clear_loop (wipe : bool) (curr_table : Z) (n : nat) (i : Z) : M W unit :=
  match n with
  | O => ret tt
  | S n' =>
      do t <- load_table curr_table;
      let elements := t_elements t in
      run free_element_data elements i;
      run (if wipe then store_element elements i zero_element else ret tt);
      ht_clear_loop wipe curr_table n' (i + 1)
  end.

(** [ht_clear] *)
Definition ht_clear (moves : bool) (table : Z) : M W unit :=
  if (table =? 0) then ret tt
  else
    do curr_table <- load_pointer table;
    if (curr_table =? 0) then ret tt
    else
      do t <- load_table curr_table;
      if (t_elements t =? 0) then
        run update_table curr_table (fun t => with_capacity t HT_INITIAL_CAPACITY);
        run update_table curr_table (fun t => with_size t 0);
        do t <- load_table curr_table;
        do elements <- calloc_elements (t_capacity t);
        update_table curr_table (fun t => with_elements t elements)
      else
        let old_capacity := t_capacity t in
        if (old_capacity <=? HT_INITIAL_CAPACITY) then
          run ht_clear_loop true curr_table (Z.to_nat old_capacity) 0;
          run update_table curr_table (fun t => with_size t 0);
          update_table curr_table (fun t => with_capacity t HT_INITIAL_CAPACITY)
        else
          run ht_clear_loop false curr_table
                (Z.to_nat (old_capacity - HT_INITIAL_CAPACITY)) HT_INITIAL_CAPACITY;
          run ht_clear_loop true curr_table (Z.to_nat HT_INITIAL_CAPACITY) 0;
          do t <- load_table curr_table;
          do new_elements <- realloc_elements moves (t_elements t) HT_INITIAL_CAPACITY;
          run (if negb (new_elements =? 0) && (HT_INITIAL_CAPACITY <? old_capacity)
               then memset_elements new_elements HT_INITIAL_CAPACITY
               else ret tt);
          run (if negb (new_elements =? 0)
               then update_table curr_table (fun t => with_elements t new_elements)
               else ret tt);
          run update_table curr_table (fun t => with_size t 0);
          update_table curr_table (fun t => with_capacity t HT_INITIAL_CAPACITY).

End Teardown.

(** ** The variadic adder: [ht_add_elements]

    The variable arguments are given as the values the calls of
    [va_arg] yield, in turn; a call past the last one is undefined.
    [MAKE_KEY] selects on the type of its argument, which is the [int]
    that [va_arg(args, int)] yields. *)

Section VariadicAdd.

Local Abbreviation W := (world boxed_value).

(** An address below every live block and below zero: the place of a
    local of the running function.  [alloc] never answers with it. *)
Definition local_addr (h : gmap Z (block boxed_value)) : Z :=
  foldr (fun kv acc => Z.min (fst kv) acc) 0 (map_to_list h) - 1.

(** A block [{ T x = ...; body }] whose local [x] has its address
    taken: [x] has a block of its own, holding [bytes], from its
    declaration to the end of the block that declares it.  [body] is
    given the address [&x]. *)
Definition with_local {A : Type} (bytes : list byte) (body : Z -> M W A) : M W A :=
  fun w =>
    let x := local_addr (heap w) in
    match body x (set_heap w (<[x := BBytes bytes]> (heap w))) with
    | Ret a w' => Ret a (set_heap w' (delete x (heap w')))
    | o => o
    end.

(** [MAKE_KEY(x)] for an [x] of type [int]:
    [(ht_key){ HT_INT_KEY, .data.as_int = (x) }]. *)
Definition MAKE_KEY (x : Z) : ht_key := {| k_type := HT_INT_KEY; k_data := to_uint32 x |}.

(** The loop [for (size_t i = 0; i < elements_quantity; i += 2)].
    [value] is assigned inside the block of the [if] that declares
    [val] (or [sval]) and is passed to [ht_add_pair] after that block
    has ended; with a key of neither type it is passed unassigned. *)
Fixpoint ht_add_elements_loop (fuel : nat) (table elements_quantity i : Z)
    (args : list Z) : M W unit :=
  match fuel with
  | O => timeout
  | S fuel' =>
      if (i <? elements_quantity) then
        match args with
        | [] => undef
        | x :: args =>
            let key := MAKE_KEY x in
            do keyed <-
              (if (k_type key =? HT_STR_KEY) then
                 match args with
                 | [] => undef
                 | p :: args =>
                     ret ({| k_type := k_type key; k_data := set_as_str (k_data key) p |},
                          args)
                 end
               else ret (key, args));
            let '(key, args) := keyed in
            do valued <-
              (if (k_type key =? HT_INT_KEY) then
                 match args with
                 | [] => undef
                 | val :: args =>
                     do value <- with_local (le_encode 4 val) (fun p =>
                                   ret {| a_ptr := p; a_size := 4 |});
                     ret (value, args)
                 end
               else if (k_type key =? HT_STR_KEY) then
                 match args with
                 | [] => undef
                 | sval :: args =>
                     do value <- with_local (le_encode 8 sval) (fun p =>
                                   ret {| a_ptr := p; a_size := 8 |});
                     ret (value, args)
                 end
               else undef);
            let '(value, args) := valued in
            do curr_table <- load_pointer table;
            run ht_add_pair fuel curr_table key value;
            ht_add_elements_loop fuel' table elements_quantity (to_size_t (i + 2)) args
        end
      else ret tt
  end.

(** [ht_add_elements] *)
Definition ht_add_elements (fuel : nat) (table elements_quantity : Z) (args : list Z)
  : M W unit :=
  if (table =? 0) then
    fprintf Stderr "Error: invalid hash table pointer in ht_add_va.\n"
  else
    do curr_table <- load_pointer table;
    if (curr_table =? 0) then
      fprintf Stderr "Error: invalid hash table pointer in ht_add_va.\n"
    else if negb (elements_quantity mod 2 =? 0) then
      fprintf Stderr
        "Error: odd number of arguments in ht_add_va (keys and values must be paired).\n"
    else ht_add_elements_loop fuel table elements_quantity 0 args.

End VariadicAdd.

(** * Vocabulary of the properties *)

Definition hash_example_world : world ht_value :=
  {| heap := {[ 4096 := BBytes (list_byte_of_string "apple" ++ [x00]) ]};
     alloc_plan := []; console := [] |}.

Definition printed {V} (w : world V) (msgs : list (stream * string)) : world V :=
  {| heap := heap w; alloc_plan := alloc_plan w; console := console w ++ msgs |}.

Definition empty_world {V} : world V :=
  {| heap := ∅; alloc_plan := []; console := [] |}.

(** The table [ht_create] makes in the empty world: the record at
    address 1, its sixteen zeroed elements at address 2. *)
Definition created_table : hash_table :=
  {| t_elements := 2; t_capacity := 16; t_size := 0;
     t_max_load_factor := HT_MAX_DEFAULT_LOAD_FACTOR;
     t_first_element_hash_index := None; t_last_element_hash_index := None |}.

Definition created_world {V} `{Cell V} : world V :=
  {| heap := {[ 1 := BTable created_table; 2 := BElems (repeat zero_element 16) ]};
     alloc_plan := []; console := [] |}.

(** A caller's world for the typed insert: the created table, an int
    key object at address 3 and an int value object at address 4. *)
Definition caller_world (k v : Z) : world ht_value :=
  {| heap := {[ 1 := BTable created_table; 2 := BElems (repeat zero_element 16);
                3 := BBytes (le_encode 4 k); 4 := BBytes (le_encode 4 v) ]};
     alloc_plan := []; console := [] |}.

Definition took_answer {V : Type} (w : world V) : world V :=
  {| heap := heap w; alloc_plan := tail (alloc_plan w); console := console w |}.

(** The record [ht_create] leaves behind. *)
Definition created (initial_capacity : Z) (max_load_factor : Q) (elements : Z) : hash_table :=
  {| t_elements := elements; t_capacity := to_size_t initial_capacity; t_size := 0;
     t_max_load_factor := max_load_factor;
     t_first_element_hash_index := None; t_last_element_hash_index := None |}.

Definition power_of_two (c : Z) : Prop := exists n, 0 <= n /\ c = 2 ^ n.

(** [ht_create_with] once the record has been allocated at [table]
    and its fields written. *)
Definition ht_create_rest {V : Type} `{Cell V} (table : Z) (t : hash_table)
  : M (world V) Z :=
  if (t_capacity t =? 0) || (SIZE_MAX / sizeof_ht_element <? t_capacity t) then
    run fprintf Stderr "[ERROR] Invalid capacity: %zu\n";
    run free table;
    ret 0
  else
    do elements <- calloc_elements (t_capacity t);
    run store_table table (with_elements t elements);
    if (elements =? 0) then
      run fprintf Stderr "[ERROR] Failed to allocate %zu elements\n";
      run free table;
      ret 0
    else ret table.

Definition table_at {V} (w : world V) (table : Z) : option hash_table :=
  match heap w !! table with
  | Some (BTable t) => Some t
  | _ => None
  end.

Definition elements_at {V} (w : world V) (p : Z) : option (list (ht_element V)) :=
  match heap w !! p with
  | Some (BElems es) => Some es
  | _ => None
  end.

(** The slot [i] of the array the table at [table] points to. *)
Definition slot_at {V} (w : world V) (table : Z) (i : nat) : option (ht_element V) :=
  match table_at w table with
  | Some t => match elements_at w (t_elements t) with
              | Some es => es !! i
              | None => None
              end
  | None => None
  end.

Definition int_element (k v : Z) : ht_element ht_value :=
  {| e_key := {| k_type := HT_INT_KEY; k_data := to_uint32 k |};
     e_value := {| v_type := HT_INT_VAL; v_curr_pass_method := PASS_BY_COPY;
                   v_data := to_uint32 v; v_data_size := 4 |};
     e_occupied := 1 |}.

(** Twelve int keys, 2 to 13, each at the bucket its digest selects in
    a table of capacity 16. *)
Definition twelve_keys : list (ht_element ht_value) :=
  [ zero_element; int_element 9 90; int_element 2 20; int_element 11 110;
    int_element 4 40; int_element 13 130; int_element 6 60; zero_element;
    int_element 8 80; zero_element; int_element 10 100; int_element 3 30;
    int_element 12 120; int_element 5 50; zero_element; int_element 7 70 ].

Definition twelve_keys_table : hash_table :=
  {| t_elements := 2; t_capacity := 16; t_size := 12;
     t_max_load_factor := HT_MAX_DEFAULT_LOAD_FACTOR;
     t_first_element_hash_index := None; t_last_element_hash_index := None |}.

(** The table of the twelve keys, with the caller's key object (the
    int [k]) at address 3 and value object at address 4. *)
Definition twelve_keys_world (k v : Z) : world ht_value :=
  {| heap := {[ 1 := BTable twelve_keys_table; 2 := BElems twelve_keys;
                3 := BBytes (le_encode 4 k); 4 := BBytes (le_encode 4 v) ]};
     alloc_plan := []; console := [] |}.

Definition str_element (p v : Z) : ht_element ht_value :=
  {| e_key := {| k_type := HT_STR_KEY; k_data := p |};
     e_value := {| v_type := HT_INT_VAL; v_curr_pass_method := PASS_BY_COPY;
                   v_data := to_uint32 v; v_data_size := 4 |};
     e_occupied := 1 |}.

(** Four keys in sixteen buckets: the ints 2, 4 and 6 and the string
    "fig", whose characters are at address 3 and whose bucket is 11. *)
Definition mixed_keys : list (ht_element ht_value) :=
  [ zero_element; zero_element; int_element 2 20; zero_element;
    int_element 4 40; zero_element; int_element 6 60; zero_element;
    zero_element; zero_element; zero_element; str_element 3 1000;
    zero_element; zero_element; zero_element; zero_element ].

Definition mixed_keys_table : hash_table :=
  {| t_elements := 2; t_capacity := 16; t_size := 4;
     t_max_load_factor := HT_MAX_DEFAULT_LOAD_FACTOR;
     t_first_element_hash_index := None; t_last_element_hash_index := None |}.

(** The caller's key object, the int 3, is at address 4; the value
    object at address 5. *)
Definition mixed_keys_world : world ht_value :=
  {| heap := {[ 1 := BTable mixed_keys_table; 2 := BElems mixed_keys;
                3 := BBytes (list_byte_of_string "fig" ++ [x00]);
                4 := BBytes (le_encode 4 3); 5 := BBytes (le_encode 4 30) ]};
     alloc_plan := []; console := [] |}.

Definition wp {W A} (m : M W A) (Qr : A -> W -> Prop) (Qe : Z -> W -> Prop) (w : W) : Prop :=
  match m w with
  | Ret a w' => Qr a w'
  | Exit s w' => Qe s w'
  | _ => True
  end.

(** [readonly m]: [m] neither changes the world nor exits. *)
Definition readonly {W A} (m : M W A) : Prop :=
  forall w, match m w with
            | Ret _ w' => w' = w
            | Exit _ _ => False
            | _ => True
            end.

Definition resize_skipped (check_call_type : capacity_check_call_type) (capacity : Z) : bool :=
  match check_call_type with
  | ADD => SIZE_MAX / 2 <? capacity
  | DELETE => capacity <=? HT_INITIAL_CAPACITY
  end.

Definition resized_capacity (check_call_type : capacity_check_call_type) (capacity : Z) : Z :=
  match check_call_type with
  | ADD => to_size_t (capacity * 2)
  | DELETE => capacity / 2
  end.

Definition strdup_failure_message : stream * string :=
  (Stderr, "Error: failed to duplicate string key during resize\n"%string).

(** What the rehash leaves alone: the table record and the old
    array. *)
Definition untouched {V : Type} (table : Z) (t : hash_table) (es : list (ht_element V)) (w : world V)
  : Prop :=
  heap w !! table = Some (BTable t) /\ heap w !! t_elements t = Some (BElems es).

Definition exit_post {V : Type} (table : Z) (t : hash_table) (es : list (ht_element V))
    (s : Z) (w : world V) : Prop :=
  s = 1 /\ untouched table t es w /\ last (console w) = Some strdup_failure_message.

(** The part of [resize_ht] that follows a successful [calloc]. *)
Definition resize_ht_move {V : Type} `{Cell V} (fuel : nat) (table : Z) (t : hash_table)
    (new_capacity new_elements : Z) : M (world V) unit :=
  run rehash fuel (t_elements t) new_elements new_capacity (Z.to_nat (t_capacity t)) 0;
  run free (t_elements t);
  do t' <- load_table table;
  store_table table (with_elements (with_capacity t' new_capacity) new_elements).

Definition with_plan {V} (w : world V) (plan : list bool) : world V :=
  {| heap := heap w; alloc_plan := plan; console := console w |}.

Definition fig : list byte := list_byte_of_string "fig" ++ [x00].

(** The caller's world for the older insert: the created table, the
    string "fig" at address 3 and four bytes of value at address 4. *)
Definition fig_caller_world : world boxed_value :=
  {| heap := {[ 1 := BTable created_table; 2 := BElems (repeat zero_element 16);
                3 := BBytes fig; 4 := BBytes (le_encode 4 1000) ]};
     alloc_plan := []; console := [] |}.

Definition fig_key : ht_key := {| k_type := HT_STR_KEY; k_data := 3 |}.
Definition fig_value : ht_val_arg := {| a_ptr := 4; a_size := 4 |}.

(** The table after ("fig", 1000) was added: bucket 11 holds the
    table's own duplicate of the key, at address 5, and its copy of
    the value, at address 6. *)
Definition fig_table : hash_table := with_size created_table 1.

Definition fig_elements : list (ht_element boxed_value) :=
  <[11%nat := {| e_key := {| k_type := HT_STR_KEY; k_data := 5 |};
                 e_value := {| b_value := 6; b_value_size := 4 |};
                 e_occupied := 1 |}]> (repeat zero_element 16).

Definition fig_world : world boxed_value :=
  {| heap := {[ 1 := BTable fig_table; 2 := BElems fig_elements;
                3 := BBytes fig; 4 := BBytes (le_encode 4 1000);
                5 := BBytes fig; 6 := BBytes (le_encode 4 1000) ]};
     alloc_plan := []; console := [] |}.

(** The digest of a key held by value: of the int of its union, or
    of the string its union points to in the heap [h]. *)
Definition key_digest {V} (h : gmap Z (block V)) (key : ht_key) : option Z :=
  if (k_type key =? HT_INT_KEY) then Some (hash_int (as_int (k_data key)))
  else if (k_type key =? HT_STR_KEY) then
    match h !! as_str (k_data key) with
    | Some (BBytes key_string) => hash_str key_string
    | _ => None
    end
  else None.

(** [probe_reaches w es c key n i j]: probing the array [es] of
    capacity [c] for [key] from index [i] passes [n] occupied slots
    that hold another key (another type, or the same type and another
    value) and then finds the key in slot [j]. *)
Inductive probe_reaches (w : world boxed_value) (es : list (ht_element boxed_value))
    (c : Z) (key : ht_key) : nat -> Z -> Z -> Prop :=
| probe_here (i : Z) (e : ht_element boxed_value) :
    0 <= i -> es !! Z.to_nat i = Some e ->
    e_occupied e <> 0 ->
    k_type (e_key e) = k_type key ->
    same_key e key w = Ret true w ->
    probe_reaches w es c key 0 i i
| probe_next (n : nat) (i j : Z) (e : ht_element boxed_value) :
    0 <= i -> es !! Z.to_nat i = Some e ->
    e_occupied e <> 0 ->
    k_type (e_key e) <> k_type key \/ same_key e key w = Ret false w ->
    probe_reaches w es c key n (to_size_t (i + 1) mod c) j ->
    probe_reaches w es c key (S n) i j.

(** The heap after the replacement: the old copy gone, the new one
    at a fresh address [p], the slot [j] pointing to it. *)
Definition replaced_heap (h : gmap Z (block boxed_value)) (elements j : Z)
    (es : list (ht_element boxed_value)) (e : ht_element boxed_value)
    (value : ht_val_arg) (src : list byte) : gmap Z (block boxed_value) :=
  let h1 := if (b_value (e_value e) =? 0) then h else delete (b_value (e_value e)) h in
  let p := fresh_addr h1 in
  <[elements := BElems (<[Z.to_nat j := set_value_size (set_value e p) (a_size value)]> es)]>
    (<[p := BBytes (firstn (Z.to_nat (a_size value)) src)]> h1).

(** The table that holds "fig", with a new value for it (2000) in
    the caller's object at address 4. *)
Definition fig_update_world : world boxed_value :=
  {| heap := <[4 := BBytes (le_encode 4 2000)]> (heap fig_world);
     alloc_plan := []; console := [] |}.

Definition fig_slot : ht_element boxed_value :=
  {| e_key := {| k_type := HT_STR_KEY; k_data := 5 |};
     e_value := {| b_value := 6; b_value_size := 4 |};
     e_occupied := 1 |}.

(** [ht_add_pair] for each of the int keys [keys] in turn, all with
    the four bytes at [value_ptr] as value. *)
Fixpoint ht_add_int_keys (fuel : nat) (table value_ptr : Z) (keys : list Z)
  : M (world boxed_value) unit :=
  match keys with
  | [] => ret tt
  | k :: keys' =>
      run ht_add_pair fuel table {| k_type := HT_INT_KEY; k_data := to_uint32 k |}
            {| a_ptr := value_ptr; a_size := 4 |};
      ht_add_int_keys fuel table value_ptr keys'
  end.

(** The created table and a caller's value object at address 3. *)
Definition int_caller_world : world boxed_value :=
  {| heap := {[ 1 := BTable created_table; 2 := BElems (repeat zero_element 16);
                3 := BBytes (le_encode 4 1000) ]};
     alloc_plan := []; console := [] |}.

Definition capacity_and_size {V} (o : outcome (world V) unit) (table : Z) : option (Z * Z) :=
  match o with
  | Ret _ w => option_map (fun t => (t_capacity t, t_size t)) (table_at w table)
  | _ => None
  end.

(** The bucket of the int key [k], if some occupied slot holds it. *)
Definition bucket_of_int_key {V} (o : outcome (world V) unit) (table : Z) (k : Z)
  : option nat :=
  match o with
  | Ret _ w =>
      match table_at w table with
      | Some t =>
          match elements_at w (t_elements t) with
          | Some es =>
              option_map fst
                (list_find (fun e => e_occupied e <> 0 /\ k_type (e_key e) = HT_INT_KEY /\
                                     as_int (k_data (e_key e)) = k) es)
          | None => None
          end
      | None => None
      end
  | _ => None
  end.

(** ** Entries of a table and their place *)

(** The logical value of a key: the int, or the characters of the
    string it points to. *)
Definition logical_key {V} (h : gmap Z (block V)) (k : ht_key) : option (Z + list byte) :=
  if (k_type k =? HT_INT_KEY) then Some (inl (as_int (k_data k)))
  else if (k_type k =? HT_STR_KEY) then
    match h !! as_str (k_data k) with
    | Some (BBytes bs) => option_map inr (c_string bs)
    | _ => None
    end
  else None.

(** A slot is occupied when its mark is not zero. *)
Definition occupied {V} (e : ht_element V) : Prop := e_occupied e <> 0.

#[global] Instance occupied_dec {V} (e : ht_element V) : Decision (occupied e).
Proof. unfold occupied. apply _. Defined.

(** The entries of an array: the logical key and the value cell of
    each occupied slot, in slot order. *)
Definition entries {V} (h : gmap Z (block V)) (es : list (ht_element V))
  : list (option (Z + list byte) * V) :=
  map (fun e => (logical_key h (e_key e), e_value e))
      (filter occupied es).

(** A key the rehash can read: an int key, or a string key whose
    pointer leads to a NUL-terminated block. *)
Definition key_live {V} (h : gmap Z (block V)) (k : ht_key) : Prop :=
  k_type k = HT_INT_KEY \/
  (k_type k = HT_STR_KEY /\
   exists bs s, h !! as_str (k_data k) = Some (BBytes bs) /\ c_string bs = Some s).

Definition keys_live {V} (h : gmap Z (block V)) (es : list (ht_element V)) : Prop :=
  Forall (fun e => occupied e -> key_live h (e_key e)) es.

(** [probe_path es n home j]: linear probing from bucket [home] in the
    array [es] of [n] slots passes occupied slots only before it
    comes to slot [j]. *)
Definition probe_path {V} (es : list (ht_element V)) (n home j : Z) : Prop :=
  exists d : nat,
    j = (home + Z.of_nat d) mod n /\
    forall k : nat, (k < d)%nat ->
      exists e, es !! Z.to_nat ((home + Z.of_nat k) mod n) = Some e /\ occupied e.

(** Every entry is on the probe path of its own key. *)
Definition well_placed {V} (h : gmap Z (block V)) (es : list (ht_element V)) (n : Z)
  : Prop :=
  forall (j : nat) (e : ht_element V),
    es !! j = Some e -> occupied e ->
    exists digest, key_digest h (e_key e) = Some digest /\
                   probe_path es n (digest mod n) (Z.of_nat j).

(** The pointers of the string keys fit their eight bytes. *)
Definition pointers_in_range {V} (es : list (ht_element V)) : Prop :=
  Forall (fun e => occupied e -> k_type (e_key e) = HT_STR_KEY ->
                   0 <= k_data (e_key e) < 2 ^ 64) es.

(** Every byte block of [h] is in [h'], unchanged. *)
Definition bytes_kept {V} (h h' : gmap Z (block V)) : Prop :=
  forall p bs, h !! p = Some (BBytes bs) -> h' !! p = Some (BBytes bs).

(** [rehashed new n es w0 i w]: the state of the rehash loop before
    it visits slot [i] of the old array [es].  Since the world [w0] in
    which the loop started, nothing was printed, no block but the new
    array was changed, and the new array, of [n] slots, holds the
    entries of the first [i] old slots, each on the probe path of its
    key. *)
Definition rehashed {V} (new n : Z) (es : list (ht_element V)) (w0 : world V)
    (i : nat) (w : world V) : Prop :=
  alloc_plan w = [] /\ console w = console w0 /\
  (forall a b, a <> new -> heap w0 !! a = Some b -> heap w !! a = Some b) /\
  exists esi, heap w !! new = Some (BElems esi) /\ Z.of_nat (length esi) = n /\
              entries (heap w) esi ≡ₚ entries (heap w0) (take i es) /\
              keys_live (heap w) esi /\
              well_placed (heap w) esi n.

(** ** Vocabulary of the further properties *)

(** The [adder] of [ht_capacity_check]: what the coming insert or
    removal adds to the size. *)
Definition adder_of (check_call_type : capacity_check_call_type) : Z :=
  match check_call_type with ADD => 1 | DELETE => -1 end.

(** The table of the four keys with the int [k] in the caller's key
    object (address 4) and the int [v] in the value object (address
    5). *)
Definition mixed_keys_caller_world (k v : Z) : world ht_value :=
  {| heap := {[ 1 := BTable mixed_keys_table; 2 := BElems mixed_keys;
                3 := BBytes (list_byte_of_string "fig" ++ [x00]);
                4 := BBytes (le_encode 4 k); 5 := BBytes (le_encode 4 v) ]};
     alloc_plan := []; console := [] |}.

(** The value cell [ht_insert] writes for a value type of [n] bytes. *)
Definition written_value (curr_value_type value_pass_method : Z) (n : nat)
    (old : ht_value) (v : Z) : ht_value :=
  {| v_type := curr_value_type;
     v_curr_pass_method := value_pass_method;
     v_data := set_member n (v_data old) v;
     v_data_size := Z.of_nat n |}.

(** The table that holds "fig" after its growth to 32 buckets: the
    array is at address 7, the entry in bucket 27, its key at address
    8. *)
Definition fig_elements_32 : list (ht_element boxed_value) :=
  <[27%nat := {| e_key := {| k_type := HT_STR_KEY; k_data := 8 |};
                 e_value := {| b_value := 6; b_value_size := 4 |};
                 e_occupied := 1 |}]> (repeat zero_element 32).

Definition fig_table_32 : hash_table :=
  with_elements (with_capacity fig_table 32) 7.

Definition fig_world_32 : world boxed_value :=
  {| heap := {[ 1 := BTable fig_table_32; 7 := BElems fig_elements_32;
                3 := BBytes fig; 4 := BBytes (le_encode 4 1000);
                5 := BBytes fig; 6 := BBytes (le_encode 4 1000);
                8 := BBytes fig ]};
     alloc_plan := []; console := [] |}.

(** The heap blocks an element owns, in the order [ht_delete] and
    [ht_clear] free them: the duplicate of its string key, the copy of
    its value. *)
Definition element_blocks (e : ht_element boxed_value) : list Z :=
  if (e_occupied e =? 0) then []
  else (if (k_type (e_key e) =? HT_STR_KEY) && negb (as_str (k_data (e_key e)) =? 0)
        then [as_str (k_data (e_key e))] else [])
       ++ (if (b_value (e_value e) =? 0) then [] else [b_value (e_value e)]).

Definition array_blocks (es : list (ht_element boxed_value)) : list Z :=
  flat_map element_blocks es.

(** [less_blocks h0 elements ps h]: apart from the element array at
    [elements], [h] is [h0] less the blocks [ps]. *)
Definition less_blocks (h0 : gmap Z (block boxed_value)) (elements : Z) (ps : list Z)
    (h : gmap Z (block boxed_value)) : Prop :=
  forall a, a <> elements -> h !! a = if decide (a ∈ ps) then None else h0 !! a.

(** The blocks [ps] are live in [h], distinct from each other and
    from the blocks [roots]. *)
Definition blocks_owned (h : gmap Z (block boxed_value)) (roots ps : list Z) : Prop :=
  NoDup ps /\ Forall (fun p => is_Some (h !! p) /\ p ∉ roots) ps.

(** The state of a loop that frees the blocks of the elements of the
    table [t] at [curr_table]: the table record is in place, the array
    holds [cur], the blocks [ps] are gone and nothing else has changed
    since [h0]. *)
Definition freeing (h0 : gmap Z (block boxed_value)) (curr_table : Z) (t : hash_table)
    (ps : list Z) (cur : list (ht_element boxed_value)) (w0 w : world boxed_value) : Prop :=
  heap w !! curr_table = Some (BTable t) /\
  heap w !! t_elements t = Some (BElems cur) /\
  less_blocks h0 (t_elements t) ps (heap w) /\
  alloc_plan w = alloc_plan w0 /\ console w = console w0.

(** A block the loop can free next: live in [h0], neither the record
    nor the array, and not freed yet. *)
Definition freeable (h0 : gmap Z (block boxed_value)) (curr_table : Z) (t : hash_table)
    (ps : list Z) (p : Z) : Prop :=
  is_Some (h0 !! p) /\ p <> curr_table /\ p <> t_elements t /\ p ∉ ps.

(** The array [es] with its first [n] elements zeroed. *)
Definition wiped (n : nat) (es : list (ht_element boxed_value))
  : list (ht_element boxed_value) :=
  repeat zero_element n ++ drop n es.

(** The array after [i] turns of a loop over [es] that wipes the
    elements it has freed, or leaves them. *)
Definition array_of (es : list (ht_element boxed_value)) (wipe : bool) (i : nat)
  : list (ht_element boxed_value) :=
  if wipe then wiped i es else es.

(** A block the loops may free: live in [h0], neither the record nor
    the array. *)
Definition releasable (h0 : gmap Z (block boxed_value)) (curr_table : Z) (t : hash_table)
    (p : Z) : Prop :=
  is_Some (h0 !! p) /\ p <> curr_table /\ p <> t_elements t.

(** Everything a table holds in the heap: its record, its array and
    the blocks of the elements. *)
Definition table_blocks (curr_table : Z) (t : hash_table)
    (es : list (ht_element boxed_value)) : list Z :=
  curr_table :: t_elements t :: array_blocks es.

(** The table that holds "fig" and the caller's pointer to it, at
    address 7. *)
Definition fig_owner_world : world boxed_value :=
  {| heap := <[7 := BBytes (le_encode 8 1)]> (heap fig_world);
     alloc_plan := []; console := [] |}.

(** A caller with a pointer variable at address 1, and nothing
    else. *)
Definition variable_world : world boxed_value :=
  {| heap := {[ 1 := BBytes (le_encode 8 0) ]}; alloc_plan := []; console := [] |}.

(** The grown table that holds "fig" and the caller's pointer to it,
    at address 9. *)
Definition fig_owner_world_32 : world boxed_value :=
  {| heap := <[9 := BBytes (le_encode 8 1)]> (heap fig_world_32);
     alloc_plan := []; console := [] |}.

(** A table record without an array, and the caller's pointer to it
    at address 2. *)
Definition bare_table_world : world boxed_value :=
  {| heap := {[ 1 := BTable (with_elements fig_table 0); 2 := BBytes (le_encode 8 1) ]};
     alloc_plan := [false]; console := [] |}.

(** [probe_misses w es c key n i j]: probing the array [es] of
    capacity [c] for [key] from index [i] passes [n] occupied slots
    that hold another key and then comes to the unoccupied slot
    [j]. *)
Inductive probe_misses (w : world boxed_value) (es : list (ht_element boxed_value))
    (c : Z) (key : ht_key) : nat -> Z -> Z -> Prop :=
| miss_here (i : Z) (e : ht_element boxed_value) :
    0 <= i -> es !! Z.to_nat i = Some e ->
    e_occupied e = 0 ->
    probe_misses w es c key 0 i i
| miss_next (n : nat) (i j : Z) (e : ht_element boxed_value) :
    0 <= i -> es !! Z.to_nat i = Some e ->
    e_occupied e <> 0 ->
    k_type (e_key e) <> k_type key \/ same_key e key w = Ret false w ->
    probe_misses w es c key n (to_size_t (i + 1) mod c) j ->
    probe_misses w es c key (S n) i j.

(** The element [ht_add_pair] builds for a new pair. *)
Definition new_element (key : ht_key) (p size : Z) : ht_element boxed_value :=
  {| e_key := key; e_value := {| b_value := p; b_value_size := size |}; e_occupied := 1 |}.

(** Whether [ht_add_pair] grows the table for one more element: the
    load factor with the incremented size is above the table's
    [max_load_factor]. *)
Definition grows_for_one_more (t : hash_table) : bool :=
  dgt (ddiv (inject_Z (to_size_t (t_size t + 1))) (inject_Z (t_capacity t)))
      (t_max_load_factor t).

(** The int key 3: its bucket in a table of 16 is 11, where
    [fig_elements] holds "fig". *)
Definition three : ht_key := {| k_type := HT_INT_KEY; k_data := 3 |}.

(** A second value for "fig": the first two bytes of the object at
    address 3. *)
Definition fig_value2 : ht_val_arg := {| a_ptr := 3; a_size := 2 |}.

(** An occupied slot with the int key [k] and the value copy at
    [100 + k]. *)
Definition int_slot (k : Z) : ht_element boxed_value :=
  {| e_key := {| k_type := HT_INT_KEY; k_data := k |};
     e_value := {| b_value := 100 + k; b_value_size := 4 |};
     e_occupied := 1 |}.

(** Sixteen buckets with the int keys 1 to 12, each in the bucket of
    its digest. *)
Definition twelve_pairs : list (ht_element boxed_value) :=
  [zero_element; int_slot 9; int_slot 2; int_slot 11;
   int_slot 4; zero_element; int_slot 6; zero_element;
   int_slot 8; int_slot 1; int_slot 10; int_slot 3;
   int_slot 12; int_slot 5; zero_element; int_slot 7].

Definition twelve_pairs_table : hash_table := with_size created_table 12.

(** The table of the twelve pairs with their value copies (the key [k]
    has the value [10 * k]) and four bytes of a caller at address 4. *)
Definition twelve_pairs_world : world boxed_value :=
  {| heap := foldr (fun k h => <[100 + k := BBytes (le_encode 4 (10 * k))]> h)
               {[ 1 := BTable twelve_pairs_table; 2 := BElems twelve_pairs;
                  4 := BBytes (le_encode 4 1000) ]}
               [1; 2; 3; 4; 5; 6; 7; 8; 9; 10; 11; 12];
     alloc_plan := []; console := [] |}.

(** The int key 17: its bucket in a table of 16 is 9, and the buckets
    9 to 13 of [twelve_pairs] are taken. *)
Definition seventeen : ht_key := {| k_type := HT_INT_KEY; k_data := 17 |}.

(** * Properties *)

Lemma uchar_inj (a b : byte) : uchar a = uchar b -> a = b.
Proof.
  unfold uchar. intros H. apply N2Z.inj in H.
  pose proof (Byte.of_to_N a) as Ha. rewrite H, Byte.of_to_N in Ha.
  congruence.
Qed.

Lemma uchar_zero_iff (c : byte) : uchar c = 0 <-> c = x00.
Proof.
  split.
  - intros H. apply uchar_inj. exact H.
  - intros ->. reflexivity.
Qed.

Lemma uchar_range (c : byte) : 0 <= uchar c < 256.
Proof.
  unfold uchar. pose proof (Byte.to_N_bounded c). lia.
Qed.

Lemma hash_str_step (hash : Z) (c : byte) :
  to_size_t (to_size_t (to_size_t (Z.shiftl hash 5) + hash) + uchar c)
  = djb2_step hash c.
Proof.
  unfold to_size_t, djb2_step.
  rewrite Z.shiftl_mul_pow2 by lia.
  rewrite (Z.add_mod_idemp_l (_ + hash)) by lia.
  rewrite <- Z.add_assoc, Z.add_mod_idemp_l by lia.
  f_equal. lia.
Qed.

Lemma hash_str_loop_djb2 (s : list byte) :
  no_nul s ->
  forall (hash : Z) (tail : list byte),
    hash_str_loop hash (s ++ x00 :: tail) = Some (fold_left djb2_step s hash).
Proof.
  induction 1 as [|c s Hc Hs IH]; intros hash tail; simpl.
  - reflexivity.
  - destruct (Z.eqb_spec (uchar c) 0) as [E|_].
    + apply uchar_zero_iff in E. contradiction.
    + rewrite hash_str_step. apply IH.
Qed.

(** ** Hashing *)

Lemma to_int_to_uint32 (z : Z) : to_uint32 (to_int z) = to_uint32 z.
Proof.
  unfold to_int, to_uint32.
  destruct (z mod 2 ^ 32 <? 2 ^ 31).
  - apply Z.mod_mod. lia.
  - rewrite Zminus_mod, Z.mod_same, Z.sub_0_r, !Z.mod_mod by lia. reflexivity.
Qed.

Lemma hash_int_value (k : Z) :
  hash_int k = (to_uint32 k * MULTIPLIER) mod 2 ^ 32.
Proof.
  unfold hash_int, to_size_t, to_uint32.
  apply Z.mod_small.
  pose proof (Z.mod_pos_bound (k mod 2 ^ 32 * MULTIPLIER) (2 ^ 32)). lia.
Qed.

Section HashTheKey.
Context {V : Type} `{Cell V}.

Lemma hash_the_key_int (key : list byte) (k : Z) (w : world V) :
  read_int key = Some k ->
  hash_the_key key HT_INT_KEY w = Ret (hash_int k) w.
Proof.
  intros Hk. unfold hash_the_key, bind, defined. simpl.
  rewrite Hk. reflexivity.
Qed.

Lemma hash_the_key_str (key s tail : list byte) (p : Z) (w : world V) :
  read_ptr key = Some p ->
  heap w !! p = Some (BBytes (s ++ x00 :: tail)) ->
  no_nul s ->
  hash_the_key key HT_STR_KEY w = Ret (djb2 s) w.
Proof.
  intros Hp Hs Hnn. unfold hash_the_key, bind, defined, load_bytes. simpl.
  rewrite Hp. simpl. rewrite Hs.
  unfold hash_str. rewrite hash_str_loop_djb2 by assumption. reflexivity.
Qed.

End HashTheKey.

(** The multiplier is the odd integer nearest to 2^32 / phi, where
    phi = (1 + sqrt 5) / 2: with x = 2^32 / phi = 2^31 (sqrt 5 - 1),
    [MULTIPLIER - 1 < x < MULTIPLIER + 1] reads as below. *)
Lemma MULTIPLIER_nearest_odd :
  Z.odd MULTIPLIER = true /\
  (MULTIPLIER - 1 + 2 ^ 31) ^ 2 < 5 * 2 ^ 62 < (MULTIPLIER + 1 + 2 ^ 31) ^ 2.
Proof. vm_compute. repeat split. Qed.

(** C2.  The digest is a function of the key's logical value alone and
    leaves the memory as it was.  For an int key [k] it is [(uint32)k]
    times 2654435769, the product being a [uint32_t] product (so taken
    modulo 2^32).  For a string key it is DJB2 over all the characters
    [s] that precede the terminating NUL: from 5381, digest * 33 + byte
    for each byte (in [size_t], so modulo 2^64), whatever block the
    string lives in and whatever follows its NUL. *)
Theorem hash_the_key_digest
    (V : Type) (C : Cell V) (w : world V)
    (int_key : list byte) (k : Z)
    (str_key s tail : list byte) (p : Z) :
  read_int int_key = Some k ->
  read_ptr str_key = Some p ->
  heap w !! p = Some (BBytes (s ++ x00 :: tail)) ->
  no_nul s ->
  hash_the_key int_key HT_INT_KEY w = Ret ((to_uint32 k * 2654435769) mod 2 ^ 32) w /\
  hash_the_key str_key HT_STR_KEY w
    = Ret (fold_left (fun digest c => (digest * 33 + uchar c) mod 2 ^ 64) s 5381) w.
Proof.
  intros Hk Hp Hs Hnn. split.
  - rewrite (hash_the_key_int _ k) by assumption. rewrite hash_int_value. reflexivity.
  - rewrite (hash_the_key_str _ s tail p) by assumption. reflexivity.
Qed.

(** The characters are compared as they are: the digests of "apple"
    and "Apple" differ. *)
Example hash_str_case_sensitive :
  hash_str (list_byte_of_string "apple" ++ [x00])
  <> hash_str (list_byte_of_string "Apple" ++ [x00]).
Proof. vm_compute. discriminate. Qed.

Lemma hash_the_key_digest_witness :
  hash_the_key (le_encode 4 (-7)) HT_INT_KEY hash_example_world
    = Ret 2893786097 hash_example_world /\
  hash_the_key (le_encode 8 4096) HT_STR_KEY hash_example_world
    = Ret 210706734647 hash_example_world.
Proof.
  apply (hash_the_key_digest ht_value typed_cell hash_example_world
           (le_encode 4 (-7)) (-7)
           (le_encode 8 4096) (list_byte_of_string "apple") [] 4096).
  - reflexivity.
  - reflexivity.
  - reflexivity.
  - repeat constructor; discriminate.
Defined.

(** ** Reasoning about calls *)

Lemma printed_nil {V} (w : world V) : printed w [] = w.
Proof. destruct w; unfold printed; simpl. rewrite app_nil_r. reflexivity. Qed.

Lemma printed_app {V} (w : world V) (a b : list (stream * string)) :
  printed (printed w a) b = printed w (a ++ b).
Proof. unfold printed; simpl. rewrite app_assoc. reflexivity. Qed.

Lemma fprintf_printed {V} (s : stream) (msg : string) (w : world V) :
  fprintf s msg w = Ret tt (printed w [(s, msg)]).
Proof. reflexivity. Qed.

Lemma bind_Ret {W A B} (m : M W A) (k : A -> M W B) (w w' : W) (a : A) :
  m w = Ret a w' -> bind m k w = k a w'.
Proof. intros E. unfold bind. rewrite E. reflexivity. Qed.

(** ** Argument check *)

Section ArgumentCheck.
Context {V : Type} `{Cell V}.

Lemma check_ht_pair_input_accepts (key key_t value val_t : Z) (w : world V) :
  key <> 0 -> value <> 0 ->
  key_type_check key_t = true -> value_type_check val_t = true ->
  check_ht_pair_input key key_t value val_t w = Ret true w.
Proof.
  intros Hk Hv Hkt Hvt. unfold check_ht_pair_input.
  rewrite Hkt, Hvt. simpl.
  destruct (Z.eqb_spec key 0); [contradiction|].
  destruct (Z.eqb_spec value 0); [contradiction|].
  reflexivity.
Qed.

Lemma check_ht_pair_input_rejects (key key_t value val_t : Z) (w : world V) :
  key = 0 \/ value = 0 \/ key_type_check key_t = false \/ value_type_check val_t = false ->
  exists msg, check_ht_pair_input key key_t value val_t w = Ret false (printed w [(Stderr, msg)]).
Proof.
  intros Hbad. unfold check_ht_pair_input.
  destruct (key_type_check key_t) eqn:Hkt; simpl; [|eexists; reflexivity].
  destruct (value_type_check val_t) eqn:Hvt; simpl; [|eexists; reflexivity].
  destruct (Z.eqb_spec key 0); [eexists; reflexivity|].
  destruct (Z.eqb_spec value 0); [eexists; reflexivity|].
  destruct Hbad as [?|[?|[?|?]]]; congruence.
Qed.

End ArgumentCheck.

Lemma key_type_check_spec (t : Z) :
  key_type_check t = true <-> t = HT_INT_KEY \/ t = HT_STR_KEY.
Proof. unfold key_type_check. rewrite orb_true_iff, !Z.eqb_eq. reflexivity. Qed.

Lemma value_type_check_spec (t : Z) :
  value_type_check t = true <-> HT_U_INT8_VAL <= t <= HT_ARRAY_VAL.
Proof. unfold value_type_check. rewrite andb_true_iff, !Z.leb_le. reflexivity. Qed.

(** C8.  A call of [ht_insert] with a null key pointer, a null value
    pointer, a key type tag or a value type tag outside its enum
    returns [false]; the heap (hence the table's entries, size and
    capacity) and the allocator are as before, only error messages
    were printed on stderr, the last of them (when the table pointer is
    not null) being the invalid-arguments one. *)
Theorem ht_insert_rejects_invalid_arguments
    (fuel : nat) (table key curr_key_type value curr_value_type value_pass_method : Z)
    (w : world ht_value) :
  key = 0 \/ value = 0 \/
  ~ (curr_key_type = HT_INT_KEY \/ curr_key_type = HT_STR_KEY) \/
  ~ (HT_U_INT8_VAL <= curr_value_type <= HT_ARRAY_VAL) ->
  exists msgs,
    ht_insert fuel table key curr_key_type value curr_value_type value_pass_method w
      = Ret (Some false) (printed w msgs) /\
    Forall (fun m => fst m = Stderr) msgs /\
    (table <> 0 ->
     last msgs = Some (Stderr, "[ERROR] Invalid arguments in ht_insert()\n"%string)).
Proof.
  intros Hbad. unfold ht_insert.
  destruct (Z.eqb_spec table 0) as [Ht|Ht].
  - eexists. split; [reflexivity|]. split; [repeat constructor | contradiction].
  - destruct (check_ht_pair_input_rejects key curr_key_type value curr_value_type w)
      as [msg Hmsg].
    { rewrite <- key_type_check_spec, <- value_type_check_spec in Hbad.
      destruct Hbad as [?|[?|[?|?]]]; auto.
      - right; right; left. apply not_true_is_false; assumption.
      - right; right; right. apply not_true_is_false; assumption. }
    exists [(Stderr, msg); (Stderr, "[ERROR] Invalid arguments in ht_insert()\n"%string)].
    split; [|split; [repeat constructor | reflexivity]].
    rewrite (bind_Ret _ _ _ _ _ Hmsg). simpl.
    unfold bind. rewrite fprintf_printed, printed_app. reflexivity.
Qed.

(** ** The bucket-zero rejection of [ht_insert] *)


(** ** Concrete worlds *)

Example ht_create_empty_world :
  ht_create (empty_world (V := ht_value)) = Ret 1 created_world.
Proof. vm_compute. reflexivity. Qed.

Example ht_create_empty_world_boxed :
  ht_create (empty_world (V := boxed_value)) = Ret 1 created_world.
Proof. vm_compute. reflexivity. Qed.

Lemma ht_insert_rejects_invalid_arguments_witness :
  exists msgs,
    ht_insert 64 1 0 HT_INT_KEY 4 HT_INT_VAL PASS_BY_COPY (caller_world 7 70)
      = Ret (Some false) (printed (caller_world 7 70) msgs) /\
    Forall (fun m => fst m = Stderr) msgs /\
    (1 <> 0 ->
     last msgs = Some (Stderr, "[ERROR] Invalid arguments in ht_insert()\n"%string)).
Proof.
  apply (ht_insert_rejects_invalid_arguments 64 1 0 HT_INT_KEY 4 HT_INT_VAL PASS_BY_COPY).
  left. reflexivity.
Defined.


(** ** The allocator *)

Section Allocator.
Context {V : Type} `{Cell V}.

Lemma fold_max_bound (l : list (Z * block V)) (k : Z) (b : block V) :
  (k, b) ∈ l -> k <= foldr (fun kv acc => Z.max (fst kv) acc) 0 l.
Proof.
  induction l as [|[k' b'] l IH]; intros Hin.
  - inversion Hin.
  - simpl. apply elem_of_cons in Hin as [Heq|Hin].
    + inversion Heq; subst. lia.
    + specialize (IH Hin). lia.
Qed.

Lemma fresh_addr_above (h : gmap Z (block V)) (k : Z) (b : block V) :
  h !! k = Some b -> k < fresh_addr h.
Proof.
  intros Hk. unfold fresh_addr.
  apply elem_of_map_to_list in Hk.
  pose proof (fold_max_bound _ _ _ Hk). lia.
Qed.

Lemma fresh_addr_fresh (h : gmap Z (block V)) : h !! fresh_addr h = None.
Proof.
  destruct (h !! fresh_addr h) as [b|] eqn:E; [|reflexivity].
  apply fresh_addr_above in E. lia.
Qed.

Lemma fresh_addr_pos (h : gmap Z (block V)) : 0 < fresh_addr h.
Proof.
  unfold fresh_addr.
  assert (0 <= foldr (fun kv acc => Z.max (fst kv) acc) 0 (map_to_list h)); [|lia].
  induction (map_to_list h) as [|kv l IH]; simpl; lia.
Qed.

Lemma fresh_addr_neq (h : gmap Z (block V)) (k : Z) (b : block V) :
  h !! k = Some b -> fresh_addr h <> k.
Proof. intros Hk E. rewrite <- E, fresh_addr_fresh in Hk. discriminate. Qed.

Lemma alloc_fails (b : block V) (w : world V) :
  next_answer (alloc_plan w) = false ->
  alloc b w = Ret 0 (took_answer w).
Proof. intros E. unfold alloc. rewrite E. reflexivity. Qed.

Lemma alloc_succeeds (b : block V) (w : world V) :
  next_answer (alloc_plan w) = true ->
  alloc b w = Ret (fresh_addr (heap w))
                (set_heap (took_answer w) (<[fresh_addr (heap w) := b]> (heap w))).
Proof. intros E. unfold alloc. rewrite E. reflexivity. Qed.

End Allocator.

(** ** The memory primitives, step by step *)

Section Steps.
Context {V : Type} `{Cell V}.

Lemma heap_set_heap (w : world V) (h : gmap Z (block V)) : heap (set_heap w h) = h.
Proof. reflexivity. Qed.

Lemma set_heap_set_heap (w : world V) (h h' : gmap Z (block V)) :
  set_heap (set_heap w h) h' = set_heap w h'.
Proof. reflexivity. Qed.

Lemma set_heap_id (w : world V) : set_heap w (heap w) = w.
Proof. destruct w; reflexivity. Qed.

Lemma load_table_eq (p : Z) (t : hash_table) (w : world V) :
  heap w !! p = Some (BTable t) -> load_table p w = Ret t w.
Proof. intros E. unfold load_table. rewrite E. reflexivity. Qed.

Lemma store_table_eq (p : Z) (t0 t : hash_table) (w : world V) :
  heap w !! p = Some (BTable t0) ->
  store_table p t w = Ret tt (set_heap w (<[p := BTable t]> (heap w))).
Proof. intros E. unfold store_table. rewrite E. reflexivity. Qed.

Lemma load_elems_eq (p : Z) (es : list (ht_element V)) (w : world V) :
  heap w !! p = Some (BElems es) -> load_elems p w = Ret es w.
Proof. intros E. unfold load_elems. rewrite E. reflexivity. Qed.

Lemma load_element_eq (p i : Z) (es : list (ht_element V)) (e : ht_element V) (w : world V) :
  heap w !! p = Some (BElems es) -> 0 <= i -> es !! Z.to_nat i = Some e ->
  load_element p i w = Ret e w.
Proof.
  intros E Hi He. unfold load_element.
  rewrite (bind_Ret _ _ _ _ _ (load_elems_eq _ _ _ E)).
  destruct (Z.ltb_spec i 0); [lia|]. rewrite He. reflexivity.
Qed.

Lemma store_element_eq (p i : Z) (es : list (ht_element V)) (e : ht_element V) (w : world V) :
  heap w !! p = Some (BElems es) -> 0 <= i < Z.of_nat (length es) ->
  store_element p i e w
  = Ret tt (set_heap w (<[p := BElems (<[Z.to_nat i := e]> es)]> (heap w))).
Proof.
  intros E [Hlo Hhi]. unfold store_element. rewrite E.
  destruct (Z.leb_spec 0 i); [|lia]. destruct (Z.ltb_spec i (Z.of_nat (length es))); [|lia].
  reflexivity.
Qed.

Lemma load_bytes_eq (p : Z) (bs : list byte) (w : world V) :
  heap w !! p = Some (BBytes bs) -> load_bytes p w = Ret bs w.
Proof. intros E. unfold load_bytes. rewrite E. reflexivity. Qed.

Lemma load_string_eq (p : Z) (bs s : list byte) (w : world V) :
  heap w !! p = Some (BBytes bs) -> c_string bs = Some s -> load_string p w = Ret s w.
Proof.
  intros E Hs. unfold load_string.
  rewrite (bind_Ret _ _ _ _ _ (load_bytes_eq _ _ _ E)). rewrite Hs. reflexivity.
Qed.

Lemma free_eq (p : Z) (b : block V) (w : world V) :
  p <> 0 -> heap w !! p = Some b ->
  free p w = Ret tt (set_heap w (delete p (heap w))).
Proof.
  intros Hp E. unfold free.
  destruct (Z.eqb_spec p 0); [contradiction|].
  rewrite E. reflexivity.
Qed.

Lemma free_null (w : world V) : free 0 w = Ret tt w.
Proof. reflexivity. Qed.

End Steps.

(** ** Creation *)

Lemma not_power_of_two_24 : ~ power_of_two 24.
Proof.
  intros [n [Hn E]].
  destruct (Z_lt_le_dec n 5) as [Hlt|Hge].
  - assert (Hcases : n = 0 \/ n = 1 \/ n = 2 \/ n = 3 \/ n = 4) by lia.
    destruct Hcases as [->|[->|[->|[->| ->]]]]; discriminate.
  - pose proof (Z.pow_le_mono_r 2 5 n ltac:(lia) Hge) as Hpow.
    change (2 ^ 5) with 32 in Hpow. lia.
Qed.

Section Creation.
Context {V : Type} `{Cell V}.

Lemma calloc_elements_in_range (n : Z) (w : world V) :
  0 < n <= SIZE_MAX / sizeof_ht_element ->
  calloc_elements n w = alloc (BElems (repeat zero_element (Z.to_nat n))) w.
Proof.
  intros [Hpos Hle]. unfold calloc_elements.
  assert (Hs : 0 < sizeof_ht_element).
  { destruct (Z_lt_le_dec 0 sizeof_ht_element) as [|Hneg]; [assumption|].
    exfalso. destruct (Z.eq_dec sizeof_ht_element 0) as [E|E].
    - rewrite E, Z.div_0_r in Hle. lia.
    - assert (SIZE_MAX / sizeof_ht_element <= 0); [|lia].
      pose proof (Z.div_mod SIZE_MAX sizeof_ht_element E) as Hdm.
      assert (Hlt0 : sizeof_ht_element < 0) by lia.
      pose proof (Z.mod_neg_bound SIZE_MAX sizeof_ht_element Hlt0) as Hmb.
      assert (0 < SIZE_MAX) by reflexivity.
      nia. }
  pose proof (Z.mul_div_le SIZE_MAX sizeof_ht_element Hs) as Hmd.
  destruct (Z.ltb_spec SIZE_MAX (n * sizeof_ht_element)) as [Hov|_]; [|reflexivity].
  exfalso. nia.
Qed.

Lemma ht_create_with_unfold (initial_capacity : Z) (max_load_factor : Q) (w : world V) :
  next_answer (alloc_plan w) = true ->
  ht_create_with initial_capacity max_load_factor w
  = ht_create_rest (fresh_addr (heap w)) (created initial_capacity max_load_factor 0)
      (set_heap (took_answer w)
         (<[fresh_addr (heap w) := BTable (created initial_capacity max_load_factor 0)]>
            (heap w))).
Proof.
  intros Hok. unfold ht_create_with.
  rewrite (bind_Ret _ _ _ _ _ (alloc_succeeds _ w Hok)).
  pose proof (fresh_addr_pos (heap w)).
  destruct (Z.eqb_spec (fresh_addr (heap w)) 0); [lia|].
  erewrite bind_Ret; [|eapply store_table_eq; apply lookup_insert_eq].
  rewrite set_heap_set_heap, heap_set_heap, insert_insert_eq. reflexivity.
Qed.

End Creation.




(** ** The capacity check of the first insert *)

(** C1 at its failing input.  On the table [ht_create] has just made
    (capacity 16, size 0), the capacity check of an insert finds
    (0 + 1) / 16 = 0.0625, which is not above 0.75 but is below 0.25:
    it calls [resize_ht] with [ADD] and the capacity becomes 32. *)
Theorem first_capacity_check_doubles :
  table_at (created_world (V := ht_value)) 1 = Some created_table /\
  t_capacity created_table = 16 /\ t_size created_table = 0 /\
  dgt (ddiv (inject_Z (t_size created_table) + 1) (inject_Z (t_capacity created_table)))
      HT_MAX_DEFAULT_LOAD_FACTOR = false /\
  exists w',
    ht_capacity_check 16 1 ADD (created_world (V := ht_value)) = Ret true w' /\
    option_map t_capacity (table_at w' 1) = Some 32.
Proof.
  repeat split.
  eexists. split; vm_compute; reflexivity.
Qed.

(** ** The initial index of [ht_insert] *)

(** C4 at its failing input.  With twelve keys in sixteen buckets a
    thirteenth needs growth (13 / 16 > 0.75).  [ht_insert] grows the
    table to 32 buckets before it computes the index, yet masks the
    digest of the key 1 with the capacity it copied before the growth:
    the index is 9, where the capacity 32 gives 25. *)
Theorem ht_insert_index_uses_stale_capacity :
  dgt (ddiv (inject_Z (t_size twelve_keys_table) + 1)
            (inject_Z (t_capacity twelve_keys_table)))
      HT_MAX_DEFAULT_LOAD_FACTOR = true /\
  exists curr_ht key_object w',
    ht_insert_index 64 1 3 HT_INT_KEY (twelve_keys_world 1 10)
      = Ret (curr_ht, key_object, 9) w' /\
    option_map t_capacity (table_at w' 1) = Some 32 /\
    Z.land (hash_int 1) (32 - 1) = 25 /\
    t_capacity curr_ht = 16.
Proof.
  split; [reflexivity|].
  do 3 eexists. split; [vm_compute; reflexivity|].
  repeat split.
Qed.

(** ** The status check and the type of the stored key *)

(** C3 at its failing input.  Bucket 11 holds the string key "fig",
    stored as the pointer 3.  For the int key 3, whose bucket is 11 as
    well, [check_new_element_hash] compares the int member of the
    stored union with the probe and answers [OLD_PAIR_NEW_VALUE]: a key
    of another type is taken for a match, and [ht_insert] then writes
    the int key and its value over the entry of "fig". *)
Theorem check_new_element_hash_ignores_stored_type :
  option_map (fun e => (e_occupied e, k_type (e_key e))) (slot_at mixed_keys_world 1 11)
    = Some (1, HT_STR_KEY) /\
  Z.land (hash_int 3) (16 - 1) = 11 /\
  check_new_element_hash 1 11 (le_encode 4 3) HT_INT_KEY mixed_keys_world
    = Ret OLD_PAIR_NEW_VALUE mixed_keys_world /\
  exists w',
    ht_insert 64 1 4 HT_INT_KEY 5 HT_INT_VAL PASS_BY_COPY mixed_keys_world = Ret None w' /\
    slot_at w' 1 11 = Some (int_element 3 30).
Proof.
  repeat split.
  eexists. split; vm_compute; reflexivity.
Qed.

(** ** A weakest-precondition reading of calls

    [wp m Qr Qe w]: if [m] returns from [w], [Qr] holds of the result
    and the world; if it makes the process exit, [Qe] holds of the
    status and the world. *)

Section WpRules.
Context {W : Type}.

Lemma wp_bind {A B} (m : M W A) (k : A -> M W B) Qr Qe (w : W) :
  wp m (fun a w' => wp (k a) Qr Qe w') Qe w -> wp (bind m k) Qr Qe w.
Proof. unfold wp, bind. destruct (m w); auto. Qed.

Lemma wp_ret {A} (a : A) (Qr : A -> W -> Prop) Qe (w : W) : Qr a w -> wp (ret a) Qr Qe w.
Proof. auto. Qed.

Lemma wp_exit {A} (s : Z) (Qr : A -> W -> Prop) (Qe : Z -> W -> Prop) (w : W) :
  Qe s w -> wp (exit s) Qr Qe w.
Proof. auto. Qed.

Lemma wp_undef {A} (Qr : A -> W -> Prop) Qe (w : W) : wp undef Qr Qe w.
Proof. exact I. Qed.

Lemma wp_readonly {A} (m : M W A) (Qr : A -> W -> Prop) Qe (w : W) :
  readonly m -> (forall a, Qr a w) -> wp m Qr Qe w.
Proof.
  intros Hro HQ. unfold wp. specialize (Hro w).
  destruct (m w); auto. subst. apply HQ. contradiction.
Qed.

Lemma wp_Ret_inv {A} (m : M W A) Qr Qe (w w' : W) (a : A) :
  wp m Qr Qe w -> m w = Ret a w' -> Qr a w'.
Proof. unfold wp. intros Hwp E. rewrite E in Hwp. exact Hwp. Qed.

Lemma wp_Exit_inv {A} (m : M W A) Qr Qe (w w' : W) (s : Z) :
  wp m Qr Qe w -> m w = Exit s w' -> Qe s w'.
Proof. unfold wp. intros Hwp E. rewrite E in Hwp. exact Hwp. Qed.

Lemma readonly_ret {A} (a : A) : readonly (ret a : M W A).
Proof. intros w. reflexivity. Qed.

Lemma readonly_undef {A} : readonly (undef : M W A).
Proof. intros w. exact I. Qed.

Lemma readonly_timeout {A} : readonly (timeout : M W A).
Proof. intros w. exact I. Qed.

Lemma readonly_defined {A} (o : option A) : readonly (defined o : M W A).
Proof. destruct o; [apply readonly_ret | apply readonly_undef]. Qed.

Lemma readonly_bind {A B} (m : M W A) (k : A -> M W B) :
  readonly m -> (forall a, readonly (k a)) -> readonly (bind m k).
Proof.
  intros Hm Hk w. unfold bind. specialize (Hm w).
  destruct (m w) as [a w'| | | |]; auto. subst w'. apply Hk.
Qed.

End WpRules.

Section ReadOnlyPrimitives.
Context {V : Type} `{Cell V}.

Lemma readonly_load_table (p : Z) : readonly (load_table (V := V) p).
Proof. intros w. unfold load_table. destruct (heap w !! p) as [[]|]; auto. Qed.

Lemma readonly_load_elems (p : Z) : readonly (load_elems (V := V) p).
Proof. intros w. unfold load_elems. destruct (heap w !! p) as [[]|]; auto. Qed.

Lemma readonly_load_element (p i : Z) : readonly (load_element (V := V) p i).
Proof.
  unfold load_element. apply readonly_bind; [apply readonly_load_elems|].
  intros es. destruct (i <? 0); [apply readonly_undef | apply readonly_defined].
Qed.

Lemma readonly_load_bytes (p : Z) : readonly (load_bytes (V := V) p).
Proof. intros w. unfold load_bytes. destruct (heap w !! p) as [[]|]; auto. Qed.

Lemma readonly_load_string (p : Z) : readonly (load_string (V := V) p).
Proof.
  unfold load_string. apply readonly_bind; [apply readonly_load_bytes|].
  intros bs. apply readonly_defined.
Qed.

Lemma readonly_hash_the_key (key : list byte) (curr_key_type : Z) :
  curr_key_type = HT_INT_KEY \/ curr_key_type = HT_STR_KEY ->
  readonly (hash_the_key (V := V) key curr_key_type).
Proof.
  intros [-> | ->]; unfold hash_the_key; simpl.
  - apply readonly_bind; [apply readonly_defined | intros; apply readonly_ret].
  - apply readonly_bind; [apply readonly_defined | intros p].
    apply readonly_bind; [apply readonly_load_bytes | intros; apply readonly_defined].
Qed.

Lemma readonly_rehash_index (old_element : ht_element V) (new_capacity : Z) :
  readonly (rehash_index old_element new_capacity).
Proof.
  unfold rehash_index.
  destruct ((k_type (e_key old_element) =? HT_INT_KEY)
            || (k_type (e_key old_element) =? HT_STR_KEY)) eqn:Hk.
  - apply readonly_bind; [|intros; apply readonly_ret].
    apply readonly_hash_the_key.
    apply orb_true_iff in Hk. rewrite !Z.eqb_eq in Hk. exact Hk.
  - apply readonly_undef.
Qed.

Lemma readonly_rehash_probe (fuel : nat) (new_elements new_capacity new_index : Z) :
  readonly (rehash_probe (V := V) fuel new_elements new_capacity new_index).
Proof.
  revert new_index. induction fuel as [|fuel IH]; intros new_index; simpl.
  - apply readonly_timeout.
  - apply readonly_bind; [apply readonly_load_element | intros e].
    destruct (e_occupied e =? 0); [apply readonly_ret | apply IH].
Qed.

End ReadOnlyPrimitives.

Section WpPrimitives.
Context {V : Type} `{Cell V}.

Lemma wp_fprintf (s : stream) (msg : string) (Qr : unit -> world V -> Prop) Qe (w : world V) :
  Qr tt (printed w [(s, msg)]) -> wp (fprintf s msg) Qr Qe w.
Proof. auto. Qed.

Lemma wp_store_element (p i : Z) (e : ht_element V) (Qr : unit -> world V -> Prop) Qe
    (w : world V) :
  (forall es, heap w !! p = Some (BElems es) ->
              0 <= i < Z.of_nat (length es) ->
              Qr tt (set_heap w (<[p := BElems (<[Z.to_nat i := e]> es)]> (heap w)))) ->
  wp (store_element p i e) Qr Qe w.
Proof.
  intros HQ. unfold wp, store_element.
  destruct (heap w !! p) as [[|es|]|] eqn:E; auto.
  destruct (Z.leb_spec 0 i); simpl; auto.
  destruct (Z.ltb_spec i (Z.of_nat (length es))); simpl; auto.
Qed.

Lemma wp_alloc (b : block V) (Qr : Z -> world V -> Prop) Qe (w : world V) :
  Qr 0 (took_answer w) ->
  Qr (fresh_addr (heap w))
     (set_heap (took_answer w) (<[fresh_addr (heap w) := b]> (heap w))) ->
  wp (alloc b) Qr Qe w.
Proof.
  intros H0 H1. unfold wp, alloc.
  destruct (next_answer (alloc_plan w)); assumption.
Qed.

Lemma wp_strdup (p : Z) (Qr : Z -> world V -> Prop) Qe (w : world V) :
  Qr 0 (took_answer w) ->
  (forall s, Qr (fresh_addr (heap w))
               (set_heap (took_answer w)
                  (<[fresh_addr (heap w) := BBytes (s ++ [x00])]> (heap w)))) ->
  wp (strdup p) Qr Qe w.
Proof.
  intros H0 H1. unfold strdup. apply wp_bind.
  apply wp_readonly; [apply readonly_load_string|].
  intros s. apply wp_alloc; auto.
Qed.

End WpPrimitives.

(** ** Failures during a resize *)

Section ResizeFailures.
Context {V : Type} `{Cell V}.

Lemma untouched_printed table t es (w : world V) msgs :
  untouched table t es w -> untouched table t es (printed w msgs).
Proof. auto. Qed.

Lemma untouched_took_answer table t es (w : world V) :
  untouched table t es w -> untouched table t es (took_answer w).
Proof. auto. Qed.

Lemma untouched_insert table t es (w : world V) (p : Z) (b : block V) :
  p <> table -> p <> t_elements t ->
  untouched table t es w -> untouched table t es (set_heap w (<[p := b]> (heap w))).
Proof.
  intros H1 H2 [Ht He]. split; simpl; rewrite lookup_insert_ne; auto.
Qed.

Lemma untouched_alloc table t es (w : world V) (b : block V) :
  untouched table t es w ->
  untouched table t es
    (set_heap (took_answer w) (<[fresh_addr (heap w) := b]> (heap w))).
Proof.
  intros [Ht He].
  apply (untouched_insert table t es (took_answer w)).
  - eapply fresh_addr_neq; eassumption.
  - eapply fresh_addr_neq; eassumption.
  - split; assumption.
Qed.

Lemma rehash_slot_untouched (fuel : nat) (table : Z) (t : hash_table)
    (es : list (ht_element V)) (new_elements new_capacity i : Z) (w : world V) :
  new_elements <> table -> new_elements <> t_elements t ->
  untouched table t es w ->
  wp (rehash_slot fuel (t_elements t) new_elements new_capacity i)
     (fun _ w' => untouched table t es w') (exit_post table t es) w.
Proof.
  intros Hnt Hno Hun. unfold rehash_slot.
  apply wp_bind, wp_readonly; [apply readonly_load_element|]. intros old_element.
  destruct (e_occupied old_element =? 0); [apply wp_ret; assumption|].
  apply wp_bind, wp_readonly; [apply readonly_rehash_index|]. intros home.
  apply wp_bind, wp_readonly; [apply readonly_rehash_probe|]. intros new_index.
  unfold rehash_move.
  apply wp_bind, wp_readonly; [apply readonly_load_element|]. intros new_element.
  apply wp_bind, wp_store_element. intros es1 Hes1 Hi1.
  assert (Hun1 : untouched table t es
            (set_heap w (<[new_elements := BElems
               (<[Z.to_nat new_index := {| e_key := e_key new_element;
                                           e_value := e_value old_element;
                                           e_occupied := 1 |}]> es1)]> (heap w))))
    by (apply untouched_insert; assumption).
  destruct (k_type (e_key old_element) =? HT_STR_KEY); simpl.
  - apply wp_bind, wp_strdup.
    + apply wp_bind, wp_store_element. intros es2 Hes2 Hi2.
      apply wp_bind, wp_fprintf, wp_exit.
      split; [reflexivity|]. split.
      * apply untouched_printed, untouched_insert; assumption.
      * simpl. apply last_snoc.
    + intros s. apply wp_bind, wp_store_element. intros es2 Hes2 Hi2.
      match goal with
      | |- context [fresh_addr ?h =? 0] =>
          pose proof (fresh_addr_pos h);
          destruct (Z.eqb_spec (fresh_addr h) 0) as [E|_]; [lia|]
      end.
      apply wp_ret. apply untouched_insert; try assumption.
      apply untouched_alloc. assumption.
  - apply wp_store_element. intros es2 Hes2 Hi2.
    apply untouched_insert; assumption.
Qed.

Lemma rehash_untouched (fuel : nat) (table : Z) (t : hash_table)
    (es : list (ht_element V)) (new_elements new_capacity : Z) (n : nat) :
  new_elements <> table -> new_elements <> t_elements t ->
  forall (i : Z) (w : world V),
    untouched table t es w ->
    wp (rehash fuel (t_elements t) new_elements new_capacity n i)
       (fun _ w' => untouched table t es w') (exit_post table t es) w.
Proof.
  intros Hnt Hno. induction n as [|n IH]; intros i w Hun; simpl.
  - apply wp_ret. assumption.
  - apply wp_bind.
    pose proof (rehash_slot_untouched fuel table t es new_elements new_capacity i w
                  Hnt Hno Hun) as Hslot.
    unfold wp in *.
    destruct (rehash_slot fuel (t_elements t) new_elements new_capacity i w); auto.
    apply IH. assumption.
Qed.

End ResizeFailures.

Section ResizeOutcome.
Context {V : Type} `{Cell V}.

Lemma calloc_elements_null (n : Z) (w w0 : world V) :
  calloc_elements n w = Ret 0 w0 ->
  heap w0 = heap w /\ console w0 = console w.
Proof.
  unfold calloc_elements, alloc.
  destruct (SIZE_MAX <? n * sizeof_ht_element).
  - intros E. inversion E. auto.
  - destruct (next_answer (alloc_plan w)); intros E; inversion E; auto.
    pose proof (fresh_addr_pos (heap w)). lia.
Qed.

Lemma resize_ht_unfold (fuel : nat) (table : Z) (cct : capacity_check_call_type)
    (t : hash_table) (w : world V) :
  table <> 0 ->
  heap w !! table = Some (BTable t) ->
  t_elements t <> 0 ->
  resize_skipped cct (t_capacity t) = false ->
  resize_ht fuel table cct w
  = (do new_elements <- calloc_elements (resized_capacity cct (t_capacity t));
     if (new_elements =? 0) then
       fprintf Stderr "Error: failed to allocate memory for resized hash table\n"
     else resize_ht_move fuel table t (resized_capacity cct (t_capacity t)) new_elements) w.
Proof.
  intros Htab Ht Hel Hskip. unfold resize_ht.
  destruct (Z.eqb_spec table 0); [contradiction|].
  rewrite (bind_Ret _ _ _ _ _ (load_table_eq _ _ _ Ht)).
  destruct (Z.eqb_spec (t_elements t) 0); [contradiction|].
  destruct cct; simpl in Hskip; rewrite Hskip; reflexivity.
Qed.

Lemma resize_ht_move_exit (fuel : nat) (table : Z) (t : hash_table)
    (es : list (ht_element V)) (new_capacity new_elements : Z) (w : world V) :
  new_elements <> table -> new_elements <> t_elements t ->
  untouched table t es w ->
  wp (resize_ht_move fuel table t new_capacity new_elements)
     (fun _ _ => True) (exit_post table t es) w.
Proof.
  intros Hnt Hno Hun. unfold resize_ht_move. apply wp_bind.
  pose proof (rehash_untouched fuel table t es new_elements new_capacity
                (Z.to_nat (t_capacity t)) Hnt Hno 0 w Hun) as Hre.
  unfold wp in *.
  destruct (rehash fuel (t_elements t) new_elements new_capacity
              (Z.to_nat (t_capacity t)) 0 w) as [[] w1| | | |]; auto.
  unfold bind, free, load_table, store_table.
  destruct (t_elements t =? 0).
  - destruct (heap w1 !! table) as [[]|]; auto.
    simpl. destruct (heap w1 !! table) as [[]|]; auto.
  - destruct (heap w1 !! t_elements t); auto. simpl.
    destruct (delete (t_elements t) (heap w1) !! table) as [[]|]; auto.
    simpl. destruct (delete (t_elements t) (heap w1) !! table) as [[]|]; auto.
Qed.

End ResizeOutcome.


(** ** A string key through [ht_add_pair] and [resize_ht] *)

Example ht_add_pair_fig :
  ht_add_pair 64 1 fig_key fig_value fig_caller_world = Ret tt fig_world.
Proof. vm_compute. reflexivity. Qed.




(** ** Replacing the value of a key that is there ([ht_add_pair]) *)

Section Replace.

Local Abbreviation W := (world boxed_value).

Lemma probe_reaches_slot (w : W) es c key n i j :
  probe_reaches w es c key n i j ->
  0 <= j /\ exists e, es !! Z.to_nat j = Some e /\ e_occupied e <> 0 /\
                      k_type (e_key e) = k_type key.
Proof. induction 1; eauto. Qed.

Lemma ht_add_pair_probe_reaches (w : W) (table : Z) (t : hash_table)
    (es : list (ht_element boxed_value)) (key : ht_key) (value : ht_val_arg)
    (n : nat) (i j : Z) :
  heap w !! table = Some (BTable t) ->
  heap w !! t_elements t = Some (BElems es) ->
  probe_reaches w es (t_capacity t) key n i j ->
  forall fuel e,
    (n < fuel)%nat ->
    es !! Z.to_nat j = Some e ->
    ht_add_pair_probe fuel table key value i w
    = (run ht_add_pair_replace (t_elements t) j e value; ret (inl tt)) w.
Proof.
  intros Ht Hes. induction 1 as [i e Hi He Hocc Hty Hsame | n i j e Hi He Hocc Hother Hrest IH];
    intros fuel e' Hfuel He'.
  - destruct fuel as [|fuel]; [lia|]. simpl.
    rewrite (bind_Ret _ _ _ _ _ (load_table_eq _ _ _ Ht)).
    rewrite (bind_Ret _ _ _ _ _ (load_element_eq _ _ _ _ _ Hes Hi He)).
    destruct (Z.eqb_spec (e_occupied e) 0); [contradiction|].
    rewrite Hty, Z.eqb_refl. simpl.
    rewrite (bind_Ret _ _ _ _ _ Hsame).
    rewrite He in He'. inversion He'; subst e'. reflexivity.
  - destruct fuel as [|fuel]; [lia|]. simpl.
    rewrite (bind_Ret _ _ _ _ _ (load_table_eq _ _ _ Ht)).
    rewrite (bind_Ret _ _ _ _ _ (load_element_eq _ _ _ _ _ Hes Hi He)).
    destruct (Z.eqb_spec (e_occupied e) 0); [contradiction|].
    destruct (Z.eqb_spec (k_type (e_key e)) (k_type key)) as [Hty|Hty]; simpl.
    + destruct Hother as [Hne|Hfalse]; [contradiction|].
      rewrite (bind_Ret _ _ _ _ _ Hfalse).
      apply IH; [lia | assumption].
    + apply IH; [lia | assumption].
Qed.

Lemma skipn_repeat_all {A} (x : A) (n : nat) : skipn n (repeat x n) = [].
Proof. induction n; simpl; auto. Qed.

Lemma ht_add_pair_replace_eq (w : W) (elements j : Z)
    (es : list (ht_element boxed_value)) (e : ht_element boxed_value)
    (value : ht_val_arg) (src : list byte) :
  heap w !! elements = Some (BElems es) ->
  0 <= j < Z.of_nat (length es) ->
  a_ptr value <> 0 ->
  heap w !! a_ptr value = Some (BBytes src) ->
  0 <= a_size value <= Z.of_nat (length src) ->
  b_value (e_value e) = 0 \/
    (exists old, heap w !! b_value (e_value e) = Some (BBytes old)) /\
    b_value (e_value e) <> a_ptr value ->
  next_answer (alloc_plan w) = true ->
  ht_add_pair_replace elements j e value w
  = Ret tt (set_heap (took_answer w) (replaced_heap (heap w) elements j es e value src)).
Proof.
  intros Hes Hj Hptr Hsrc Hsize Hold Hok.
  unfold ht_add_pair_replace, replaced_heap.
  destruct (Z.eqb_spec (a_ptr value) 0); [contradiction|].
  set (h1 := if b_value (e_value e) =? 0 then heap w else delete (b_value (e_value e)) (heap w)).
  assert (Hfree : free (b_value (e_value e)) w = Ret tt (set_heap w h1)).
  { subst h1. destruct Hold as [Hz|[[old Hold] _]].
    - rewrite Hz. simpl. rewrite set_heap_id. reflexivity.
    - destruct (Z.eqb_spec (b_value (e_value e)) 0) as [Hz|Hnz].
      + unfold free. rewrite Hz. simpl. rewrite set_heap_id. reflexivity.
      + eapply free_eq; eassumption. }
  assert (Hes1 : h1 !! elements = Some (BElems es)).
  { subst h1. destruct (Z.eqb_spec (b_value (e_value e)) 0) as [|Hnz]; [assumption|].
    destruct Hold as [Hz|[[old Hold] _]]; [contradiction|].
    rewrite lookup_delete_ne; [assumption|]. congruence. }
  assert (Hsrc1 : h1 !! a_ptr value = Some (BBytes src)).
  { subst h1. destruct (Z.eqb_spec (b_value (e_value e)) 0); [assumption|].
    destruct Hold as [Hz|[_ Hne]]; [contradiction|].
    rewrite lookup_delete_ne; assumption. }
  rewrite (bind_Ret _ _ _ _ _ Hfree).
  unfold malloc.
  erewrite bind_Ret; [|apply alloc_succeeds; assumption].
  rewrite heap_set_heap.
  set (p := fresh_addr h1).
  assert (Hp_el : p <> elements) by (eapply fresh_addr_neq; eassumption).
  assert (Hp_src : p <> a_ptr value) by (eapply fresh_addr_neq; eassumption).
  assert (Hp0 : p <> 0) by (pose proof (fresh_addr_pos h1); subst p; lia).
  erewrite bind_Ret;
    [|eapply store_element_eq;
      [simpl; rewrite lookup_insert_ne by assumption; eassumption | assumption]].
  destruct (Z.eqb_spec p 0); [contradiction|].
  erewrite bind_Ret.
  2:{ unfold memcpy. simpl.
      rewrite lookup_insert_ne by congruence. rewrite lookup_insert_eq.
      rewrite lookup_insert_ne, lookup_insert_ne by congruence.
      rewrite Hsrc1. rewrite repeat_length.
      destruct (Z.leb_spec 0 (a_size value)); [|lia].
      destruct (Z.leb_spec (a_size value) (Z.of_nat (Z.to_nat (a_size value)))); [|lia].
      destruct (Z.leb_spec (a_size value) (Z.of_nat (length src))); [|lia].
      simpl. reflexivity. }
  erewrite store_element_eq.
  2:{ simpl. rewrite lookup_insert_ne by congruence. apply lookup_insert_eq. }
  2:{ rewrite length_insert. assumption. }
  unfold set_heap, took_answer. simpl.
  f_equal. f_equal.
  rewrite skipn_repeat_all, app_nil_r.
  rewrite list_insert_insert_eq.
  rewrite (insert_insert_ne _ p elements) by assumption.
  rewrite !insert_insert_eq.
  reflexivity.
Qed.

End Replace.




(** ** The older insert on growth and on keys of two types *)

(** Through [ht_add_pair], twelve distinct int keys leave the capacity
    at 16 and the thirteenth grows it to 32; adding the thirteen keys
    a second time finds each of them (the size stays 13). *)
Example ht_add_pair_twelve_then_thirteen :
  capacity_and_size
    (ht_add_int_keys 64 1 3 [2; 3; 4; 5; 6; 7; 8; 9; 10; 11; 12; 13] int_caller_world) 1
    = Some (16, 12) /\
  capacity_and_size
    (ht_add_int_keys 64 1 3 [2; 3; 4; 5; 6; 7; 8; 9; 10; 11; 12; 13; 1] int_caller_world) 1
    = Some (32, 13) /\
  capacity_and_size
    (ht_add_int_keys 64 1 3 ([2; 3; 4; 5; 6; 7; 8; 9; 10; 11; 12; 13; 1]
                               ++ [1; 2; 3; 4; 5; 6; 7; 8; 9; 10; 11; 12; 13])
       int_caller_world) 1
    = Some (32, 13).
Proof. vm_compute. repeat split. Qed.

(** In [ht_add_pair] the growth comes after the first probing; the
    index is then computed again, with the new capacity: the thirteenth
    key, 1, lands in bucket 25 (its digest masked with 31), not in 9. *)
Example ht_add_pair_index_after_growth :
  Z.land (hash_int 1) (16 - 1) = 9 /\
  Z.land (hash_int 1) (32 - 1) = 25 /\
  bucket_of_int_key
    (ht_add_int_keys 64 1 3 [2; 3; 4; 5; 6; 7; 8; 9; 10; 11; 12; 13; 1] int_caller_world) 1 1
    = Some 25%nat.
Proof. vm_compute. repeat split. Qed.

(** In [ht_add_pair] an occupied slot whose key has another type than
    the probe's is passed over, whatever its union holds. *)
Lemma ht_add_pair_probe_skips_other_type
    (fuel : nat) (table : Z) (key : ht_key) (value : ht_val_arg) (index : Z)
    (w : world boxed_value) (t : hash_table) (es : list (ht_element boxed_value))
    (e : ht_element boxed_value) :
  heap w !! table = Some (BTable t) ->
  heap w !! t_elements t = Some (BElems es) ->
  0 <= index -> es !! Z.to_nat index = Some e ->
  e_occupied e <> 0 ->
  k_type (e_key e) <> k_type key ->
  ht_add_pair_probe (S fuel) table key value index w
  = ht_add_pair_probe fuel table key value (to_size_t (index + 1) mod t_capacity t) w.
Proof.
  intros Ht Hes Hi He Hocc Hty. simpl.
  rewrite (bind_Ret _ _ _ _ _ (load_table_eq _ _ _ Ht)).
  rewrite (bind_Ret _ _ _ _ _ (load_element_eq _ _ _ _ _ Hes Hi He)).
  destruct (Z.eqb_spec (e_occupied e) 0); [contradiction|].
  destruct (Z.eqb_spec (k_type (e_key e)) (k_type key)); [contradiction|].
  reflexivity.
Qed.

(** ** The growth keeps the entries *)

Lemma uchar_byte_of_Z (z : Z) : uchar (byte_of_Z z) = z mod 256.
Proof.
  unfold uchar, byte_of_Z.
  pose proof (Z.mod_pos_bound z 256 ltac:(lia)) as Hb.
  destruct (Byte.of_N (Z.to_N (z mod 256))) as [b|] eqn:E.
  - apply Byte.to_of_N in E. rewrite E. lia.
  - apply Byte.of_N_None_iff in E. lia.
Qed.

Lemma le_decode_encode (n : nat) (z : Z) :
  le_decode (le_encode n z) = z mod 256 ^ Z.of_nat n.
Proof.
  revert z. induction n as [|n IH]; intros z.
  - simpl. rewrite Z.mod_1_r. reflexivity.
  - cbn [le_encode le_decode]. rewrite IH, uchar_byte_of_Z.
    rewrite Nat2Z.inj_succ, Z.pow_succ_r by lia.
    rewrite Z.rem_mul_r by lia. reflexivity.
Qed.

Lemma read_int_le_encode_8 (d : Z) : read_int (le_encode 8 d) = Some (to_int d).
Proof.
  unfold read_int, read_le.
  change (firstn 4 (le_encode 8 d)) with (le_encode 4 d).
  change (4 <=? length (le_encode 8 d))%nat with true. cbv iota.
  cbn [option_map]. rewrite le_decode_encode.
  unfold to_int. change (256 ^ Z.of_nat 4) with (2 ^ 32).
  rewrite Z.mod_mod by lia. reflexivity.
Qed.

Lemma read_ptr_le_encode_8 (d : Z) :
  0 <= d < 2 ^ 64 -> read_ptr (le_encode 8 d) = Some d.
Proof.
  intros Hd. unfold read_ptr, read_le.
  change (firstn 8 (le_encode 8 d)) with (le_encode 8 d).
  change (8 <=? length (le_encode 8 d))%nat with true. cbv iota.
  rewrite le_decode_encode. change (256 ^ Z.of_nat 8) with (2 ^ 64).
  rewrite Z.mod_small by assumption. reflexivity.
Qed.

Lemma hash_str_loop_c_string (bs s : list byte) :
  c_string bs = Some s ->
  forall hash, hash_str_loop hash bs = Some (fold_left djb2_step s hash).
Proof.
  revert s. induction bs as [|c bs IH]; intros s Hs hash; simpl in *.
  - discriminate.
  - destruct (uchar c =? 0).
    + inversion Hs. reflexivity.
    + destruct (c_string bs) as [s'|]; [|discriminate].
      inversion Hs; subst. simpl. rewrite hash_str_step. apply IH. reflexivity.
Qed.

Lemma c_string_no_nul (bs s : list byte) : c_string bs = Some s -> no_nul s.
Proof.
  revert s. induction bs as [|c bs IH]; intros s Hs; simpl in *.
  - discriminate.
  - destruct (Z.eqb_spec (uchar c) 0) as [E|E].
    + inversion Hs. constructor.
    + destruct (c_string bs) as [s'|]; [|discriminate].
      inversion Hs; subst. constructor.
      * intros ->. apply E. reflexivity.
      * apply IH. reflexivity.
Qed.

Lemma c_string_terminated (s tail : list byte) :
  no_nul s -> c_string (s ++ x00 :: tail) = Some s.
Proof.
  induction 1 as [|c s Hc Hs IH]; simpl.
  - reflexivity.
  - destruct (Z.eqb_spec (uchar c) 0) as [E|E].
    + apply uchar_zero_iff in E. contradiction.
    + rewrite IH. reflexivity.
Qed.

Lemma exists_unoccupied {V} (es : list (ht_element V)) :
  (length (filter occupied es) < length es)%nat ->
  exists j e, es !! j = Some e /\ e_occupied e = 0.
Proof.
  induction es as [|e es IH]; simpl; intros Hlt.
  - lia.
  - rewrite filter_cons in Hlt.
    destruct (decide (occupied e)) as [Hocc|Hfree].
    + simpl in Hlt. destruct IH as [j [e' [Hj He']]]; [lia|].
      exists (S j), e'. auto.
    + exists 0%nat, e. split; [reflexivity|]. unfold occupied in Hfree. lia.
Qed.

Lemma mask_mod (x n m : Z) :
  0 <= m -> n = 2 ^ m -> n < 2 ^ 64 ->
  Z.land x (to_size_t (n - 1)) = x mod n.
Proof.
  intros Hm Hn Hlt. unfold to_size_t.
  assert (0 < n) by (subst n; apply Z.pow_pos_nonneg; lia).
  rewrite (Z.mod_small (n - 1)) by lia.
  subst n. replace (2 ^ m - 1) with (Z.ones m) by (rewrite Z.ones_equiv; lia).
  apply Z.land_ones. assumption.
Qed.

Section Probe.
Context {V : Type} `{Cell V}.

Lemma rehash_probe_finds (new_elements n m : Z) (es : list (ht_element V)) (w : world V) :
  heap w !! new_elements = Some (BElems es) ->
  Z.of_nat (length es) = n -> 0 <= m -> n = 2 ^ m -> n < 2 ^ 64 ->
  forall (d : nat) (fuel : nat) (index : Z) (e0 : ht_element V),
    0 <= index < n -> (d < fuel)%nat ->
    es !! Z.to_nat ((index + Z.of_nat d) mod n) = Some e0 -> e_occupied e0 = 0 ->
    exists j e, rehash_probe fuel new_elements n index w = Ret j w /\
                0 <= j < n /\ es !! Z.to_nat j = Some e /\ e_occupied e = 0 /\
                probe_path es n index j.
Proof.
  intros Hes Hlen Hm Hn Hbound.
  assert (Hpos : 0 < n) by (rewrite Hn; apply Z.pow_pos_nonneg; lia).
  induction d as [|d IH]; intros fuel index e0 Hidx Hfuel He0 Hfree.
  - destruct fuel as [|fuel]; [lia|]. simpl.
    rewrite Z.add_0_r, Z.mod_small in He0 by lia.
    rewrite (bind_Ret _ _ _ _ _ (load_element_eq _ _ _ _ _ Hes (proj1 Hidx) He0)).
    rewrite Hfree. simpl. exists index, e0.
    split; [reflexivity|]. split; [assumption|]. split; [assumption|].
    split; [assumption|].
    exists 0%nat. split; [rewrite Z.add_0_r, Z.mod_small by lia; reflexivity|].
    intros k Hk. lia.
  - destruct fuel as [|fuel]; [lia|]. simpl.
    assert (Hsome : exists e, es !! Z.to_nat index = Some e).
    { apply lookup_lt_is_Some. lia. }
    destruct Hsome as [e He].
    rewrite (bind_Ret _ _ _ _ _ (load_element_eq _ _ _ _ _ Hes (proj1 Hidx) He)).
    destruct (Z.eqb_spec (e_occupied e) 0) as [Hz|Hnz].
    + exists index, e.
      split; [reflexivity|]. split; [assumption|]. split; [assumption|].
      split; [assumption|].
      exists 0%nat. split; [rewrite Z.add_0_r, Z.mod_small by lia; reflexivity|].
      intros k Hk. lia.
    + rewrite (mask_mod _ n m) by assumption.
      assert (Hstep : to_size_t (index + 1) mod n = (index + 1) mod n).
      { unfold to_size_t. rewrite (Z.mod_small (index + 1)) by lia. reflexivity. }
      rewrite Hstep.
      destruct (IH fuel ((index + 1) mod n) e0) as [j [e' [Hrun [Hj [He' [Hfree' Hpath]]]]]].
      * apply Z.mod_pos_bound. lia.
      * lia.
      * rewrite Z.add_mod_idemp_l by lia.
        replace (index + 1 + Z.of_nat d) with (index + Z.of_nat (S d)) by lia.
        assumption.
      * assumption.
      * exists j, e'. split; [assumption|]. split; [assumption|].
        split; [assumption|]. split; [assumption|].
        destruct Hpath as [d' [Hjd Hocc]].
        exists (S d'). split.
        { rewrite Hjd, Z.add_mod_idemp_l by lia. f_equal. lia. }
        intros k Hk. destruct k as [|k].
        { exists e. rewrite Z.add_0_r, Z.mod_small by lia. split; [assumption|].
          exact Hnz. }
        destruct (Hocc k ltac:(lia)) as [ek [Hek Hok]].
        exists ek. split; [|assumption].
        rewrite Z.add_mod_idemp_l in Hek by lia.
        replace (index + Z.of_nat (S k)) with (index + 1 + Z.of_nat k) by lia.
        assumption.
Qed.

Lemma rehash_probe_free_slot (fuel : nat) (new_elements n m index : Z)
    (es : list (ht_element V)) (w : world V) :
  heap w !! new_elements = Some (BElems es) ->
  Z.of_nat (length es) = n -> 0 <= m -> n = 2 ^ m -> n < 2 ^ 64 ->
  0 <= index < n ->
  (length (filter occupied es) < length es)%nat ->
  (Z.to_nat n <= fuel)%nat ->
  exists j e, rehash_probe fuel new_elements n index w = Ret j w /\
              0 <= j < n /\ es !! Z.to_nat j = Some e /\ e_occupied e = 0 /\
              probe_path es n index j.
Proof.
  intros Hes Hlen Hm Hn Hbound Hidx Hcount Hfuel.
  destruct (exists_unoccupied es Hcount) as [j0 [e0 [Hj0 He0]]].
  pose proof (lookup_lt_Some _ _ _ Hj0) as Hj0lt.
  apply (rehash_probe_finds new_elements n m es w Hes Hlen Hm Hn Hbound
           (Z.to_nat ((Z.of_nat j0 - index) mod n)) fuel index e0); try assumption.
  - pose proof (Z.mod_pos_bound (Z.of_nat j0 - index) n ltac:(lia)). lia.
  - pose proof (Z.mod_pos_bound (Z.of_nat j0 - index) n ltac:(lia)).
    rewrite Z2Nat.id by lia.
    rewrite Z.add_mod_idemp_r by lia.
    replace (index + (Z.of_nat j0 - index)) with (Z.of_nat j0) by lia.
    rewrite Z.mod_small by lia. rewrite Nat2Z.id. assumption.
Qed.

End Probe.

Section Entries.
Context {V : Type}.

Lemma logical_key_kept (h h' : gmap Z (block V)) (k : ht_key) :
  bytes_kept h h' -> key_live h k -> logical_key h' k = logical_key h k.
Proof.
  intros Hkept [Hint|[Hstr [bs [s [Hbs Hs]]]]]; unfold logical_key.
  - rewrite Hint. reflexivity.
  - rewrite Hstr. simpl. rewrite Hbs, (Hkept _ _ Hbs). reflexivity.
Qed.

Lemma key_digest_kept (h h' : gmap Z (block V)) (k : ht_key) :
  bytes_kept h h' -> key_live h k -> key_digest h' k = key_digest h k.
Proof.
  intros Hkept [Hint|[Hstr [bs [s [Hbs Hs]]]]]; unfold key_digest.
  - rewrite Hint. reflexivity.
  - rewrite Hstr. simpl. rewrite Hbs, (Hkept _ _ Hbs). reflexivity.
Qed.

Lemma probe_path_insert (es : list (ht_element V)) (n home j : Z) (i : nat)
    (e : ht_element V) :
  occupied e -> probe_path es n home j -> probe_path (<[i := e]> es) n home j.
Proof.
  intros Hocc [d [Hj Hpath]]. exists d. split; [assumption|].
  intros k Hk. destruct (Hpath k Hk) as [ek [Hek Hok]].
  destruct (decide (i = Z.to_nat ((home + Z.of_nat k) mod n))) as [->|Hne].
  - exists e. split; [|assumption].
    apply list_lookup_insert_eq. eapply lookup_lt_Some; eassumption.
  - exists ek. split; [|assumption].
    rewrite list_lookup_insert_ne by assumption. assumption.
Qed.

Lemma key_live_kept (h h' : gmap Z (block V)) (k : ht_key) :
  bytes_kept h h' -> key_live h k -> key_live h' k.
Proof.
  intros Hkept [Hint|[Hstr [bs [s [Hbs Hs]]]]]; [left; assumption|].
  right. split; [assumption|]. exists bs, s. split; [apply Hkept|]; assumption.
Qed.

Lemma keys_live_kept (h h' : gmap Z (block V)) (es : list (ht_element V)) :
  bytes_kept h h' -> keys_live h es -> keys_live h' es.
Proof.
  intros Hkept Hl. unfold keys_live in *.
  eapply Forall_impl; [exact Hl|].
  intros e He Hocc. eapply key_live_kept; eauto.
Qed.

Lemma entries_kept (h h' : gmap Z (block V)) (es : list (ht_element V)) :
  bytes_kept h h' -> keys_live h es -> entries h' es = entries h es.
Proof.
  intros Hkept. unfold entries, keys_live.
  induction 1 as [|e es He Hes IH]; [reflexivity|].
  rewrite !filter_cons. destruct (decide (occupied e)) as [Hocc|_]; [|assumption].
  simpl. rewrite IH. rewrite (logical_key_kept h h') by auto. reflexivity.
Qed.

Lemma filter_occupied_insert (es : list (ht_element V)) (j : nat) (e0 e : ht_element V) :
  es !! j = Some e0 -> ~ occupied e0 -> occupied e ->
  filter occupied (<[j := e]> es) ≡ₚ e :: filter occupied es.
Proof.
  intros Hj Hfree Hocc.
  rewrite <- (take_drop_middle es j e0 Hj) at 2.
  rewrite insert_take_drop by (eapply lookup_lt_Some; eassumption).
  rewrite !filter_app, !filter_cons.
  destruct (decide (occupied e)); [|contradiction].
  destruct (decide (occupied e0)); [contradiction|].
  symmetry. apply Permutation_cons_app. reflexivity.
Qed.

Lemma entries_insert (h : gmap Z (block V)) (es : list (ht_element V)) (j : nat)
    (e0 e : ht_element V) :
  es !! j = Some e0 -> ~ occupied e0 -> occupied e ->
  entries h (<[j := e]> es) ≡ₚ (logical_key h (e_key e), e_value e) :: entries h es.
Proof.
  intros Hj Hfree Hocc. unfold entries.
  rewrite (filter_occupied_insert es j e0 e) by assumption. reflexivity.
Qed.

Lemma entries_take_S (h : gmap Z (block V)) (es : list (ht_element V)) (i : nat)
    (e : ht_element V) :
  es !! i = Some e ->
  entries h (take (S i) es)
  = entries h (take i es)
    ++ (if decide (occupied e) then [(logical_key h (e_key e), e_value e)] else []).
Proof.
  intros Hi. unfold entries.
  rewrite (take_S_r es i e Hi), filter_app, map_app. f_equal.
  rewrite filter_cons. destruct (decide (occupied e)); reflexivity.
Qed.

Lemma filter_occupied_take_le (es : list (ht_element V)) (i : nat) :
  (length (filter occupied (take i es)) <= length (filter occupied es))%nat.
Proof.
  rewrite <- (take_drop i es) at 2. rewrite filter_app, length_app. lia.
Qed.

Lemma entries_length (h : gmap Z (block V)) (es : list (ht_element V)) :
  length (entries h es) = length (filter occupied es).
Proof. unfold entries. apply length_map. Qed.

End Entries.

Section RehashSteps.
Context {V : Type} `{Cell V}.

Lemma hash_the_key_c_string (key bs s : list byte) (p : Z) (w : world V) :
  read_ptr key = Some p ->
  heap w !! p = Some (BBytes bs) ->
  c_string bs = Some s ->
  hash_the_key key HT_STR_KEY w = Ret (djb2 s) w.
Proof.
  intros Hp Hbs Hs. unfold hash_the_key, bind, defined, load_bytes. simpl.
  rewrite Hp. simpl. rewrite Hbs.
  unfold hash_str. rewrite (hash_str_loop_c_string bs s Hs). reflexivity.
Qed.

Lemma rehash_index_eq (e : ht_element V) (n m : Z) (w : world V) :
  0 <= m -> n = 2 ^ m -> n < 2 ^ 64 ->
  key_live (heap w) (e_key e) ->
  (k_type (e_key e) = HT_STR_KEY -> 0 <= k_data (e_key e) < 2 ^ 64) ->
  exists digest,
    key_digest (heap w) (e_key e) = Some digest /\
    rehash_index e n w = Ret (digest mod n) w /\ 0 <= digest mod n < n.
Proof.
  intros Hm Hn Hbound Hlive Hrange. unfold rehash_index.
  assert (Hpos : 0 < n) by (subst n; apply Z.pow_pos_nonneg; lia).
  destruct Hlive as [Hint|[Hstr [bs [s [Hbs Hs]]]]].
  - exists (hash_int (as_int (k_data (e_key e)))).
    split; [unfold key_digest; rewrite Hint; reflexivity|].
    rewrite Hint. simpl.
    erewrite bind_Ret; [|apply hash_the_key_int, read_int_le_encode_8].
    unfold ret. rewrite (mask_mod _ n m) by assumption.
    split; [reflexivity|]. apply Z.mod_pos_bound. assumption.
  - exists (djb2 s).
    split.
    { unfold key_digest. rewrite Hstr. simpl. rewrite Hbs.
      unfold hash_str. apply (hash_str_loop_c_string bs s Hs). }
    rewrite Hstr. simpl.
    assert (Hhash : hash_the_key (le_encode 8 (k_data (e_key e))) HT_STR_KEY w
                    = Ret (djb2 s) w).
    { apply (hash_the_key_c_string _ bs s (k_data (e_key e))); try assumption.
      apply read_ptr_le_encode_8. auto. }
    rewrite (bind_Ret _ _ _ _ _ Hhash).
    unfold ret. rewrite (mask_mod _ n m) by assumption.
    split; [reflexivity|]. apply Z.mod_pos_bound. assumption.
Qed.

Lemma rehash_move_eq (e e0 : ht_element V) (new j : Z) (esi : list (ht_element V))
    (w : world V) :
  heap w !! new = Some (BElems esi) ->
  0 <= j -> esi !! Z.to_nat j = Some e0 ->
  alloc_plan w = [] ->
  key_live (heap w) (e_key e) ->
  exists w' k',
    rehash_move e new j w = Ret tt w' /\
    alloc_plan w' = [] /\ console w' = console w /\
    heap w' !! new
      = Some (BElems (<[Z.to_nat j := {| e_key := k'; e_value := e_value e;
                                         e_occupied := 1 |}]> esi)) /\
    (forall a b, a <> new -> heap w !! a = Some b -> heap w' !! a = Some b) /\
    logical_key (heap w') k' = logical_key (heap w) (e_key e) /\
    key_digest (heap w') k' = key_digest (heap w) (e_key e) /\
    key_live (heap w') k'.
Proof.
  intros Hnew Hj He0 Hplan Hlive. unfold rehash_move.
  assert (Hjlt : 0 <= j < Z.of_nat (length esi)).
  { apply lookup_lt_Some in He0. lia. }
  rewrite (bind_Ret _ _ _ _ _ (load_element_eq _ _ _ _ _ Hnew Hj He0)).
  erewrite bind_Ret; [|eapply store_element_eq; eassumption].
  set (e1 := {| e_key := e_key e0; e_value := e_value e; e_occupied := 1 |}).
  set (w1 := set_heap w (<[new := BElems (<[Z.to_nat j := e1]> esi)]> (heap w))).
  assert (Hnew1 : heap w1 !! new = Some (BElems (<[Z.to_nat j := e1]> esi)))
    by apply lookup_insert_eq.
  assert (Hjlt1 : 0 <= j < Z.of_nat (length (<[Z.to_nat j := e1]> esi)))
    by (rewrite length_insert; assumption).
  destruct Hlive as [Hint|[Hstr [bs [s [Hbs Hs]]]]].
  - assert (Hnstr : (k_type (e_key e) =? HT_STR_KEY) = false)
      by (rewrite Hint; reflexivity).
    rewrite Hnstr. simpl.
    erewrite store_element_eq; [|eassumption|assumption].
    eexists _, (e_key e). split; [reflexivity|].
    split; [assumption|]. split; [reflexivity|].
    split.
    { simpl. rewrite lookup_insert_eq, list_insert_insert_eq. reflexivity. }
    split.
    { intros a b Ha Hab. simpl. rewrite !lookup_insert_ne by congruence. assumption. }
    split.
    { unfold logical_key. rewrite Hint. reflexivity. }
    split.
    { unfold key_digest. rewrite Hint. reflexivity. }
    left. assumption.
  - assert (Hisstr : (k_type (e_key e) =? HT_STR_KEY) = true)
      by (rewrite Hstr; reflexivity).
    rewrite Hisstr. simpl.
    assert (Hpn : as_str (k_data (e_key e)) <> new) by congruence.
    assert (Hbs1 : heap w1 !! as_str (k_data (e_key e)) = Some (BBytes bs)).
    { subst w1. simpl. rewrite lookup_insert_ne by congruence. assumption. }
    assert (Hdup : strdup (as_str (k_data (e_key e))) w1
                   = Ret (fresh_addr (heap w1))
                       (set_heap (took_answer w1)
                          (<[fresh_addr (heap w1) := BBytes (s ++ [x00])]> (heap w1)))).
    { unfold strdup.
      rewrite (bind_Ret _ _ _ _ _ (load_string_eq _ _ _ _ Hbs1 Hs)).
      apply alloc_succeeds. subst w1. simpl. rewrite Hplan. reflexivity. }
    rewrite (bind_Ret _ _ _ _ _ Hdup).
    set (copy := fresh_addr (heap w1)).
    assert (Hcn : copy <> new) by (eapply fresh_addr_neq; eassumption).
    assert (Hc0 : copy <> 0) by (pose proof (fresh_addr_pos (heap w1)); subst copy; lia).
    erewrite bind_Ret.
    2:{ eapply store_element_eq; [|eassumption].
        simpl. rewrite lookup_insert_ne by assumption. apply lookup_insert_eq. }
    destruct (Z.eqb_spec copy 0); [contradiction|].
    match goal with
    | |- exists w' k', ret tt ?X = Ret tt w' /\ _ => set (w3 := X)
    end.
    assert (Hplan3 : alloc_plan w3 = []) by (subst w3; simpl; rewrite Hplan; reflexivity).
    assert (Hcons3 : console w3 = console w) by reflexivity.
    assert (Hnew3 : heap w3 !! new
                    = Some (BElems (<[Z.to_nat j :=
                              {| e_key := {| k_type := HT_STR_KEY; k_data := copy |};
                                 e_value := e_value e; e_occupied := 1 |}]> esi))).
    { subst w3. simpl. rewrite lookup_insert_eq, list_insert_insert_eq. reflexivity. }
    assert (Hkeep3 : forall a b, a <> new -> heap w !! a = Some b -> heap w3 !! a = Some b).
    { intros a b Ha Hab. subst w3. simpl.
      rewrite lookup_insert_ne by congruence.
      rewrite lookup_insert_ne.
      - rewrite lookup_insert_ne by congruence. assumption.
      - apply (fresh_addr_neq (heap w1) a b).
        subst w1. simpl. rewrite lookup_insert_ne by congruence. assumption. }
    assert (Hcopy : heap w3 !! copy = Some (BBytes (s ++ [x00]))).
    { subst w3. simpl. rewrite lookup_insert_ne by congruence. apply lookup_insert_eq. }
    clearbody w3.
    assert (Hcs : c_string (s ++ [x00]) = Some s).
    { apply (c_string_terminated s []). eapply c_string_no_nul; eassumption. }
    exists w3, {| k_type := HT_STR_KEY; k_data := copy |}.
    split; [reflexivity|].
    split; [assumption|]. split; [assumption|]. split; [assumption|].
    split; [assumption|].
    split.
    { unfold logical_key. rewrite Hstr. simpl. unfold as_str.
      rewrite Hcopy, Hcs. unfold as_str in Hbs. rewrite Hbs, Hs. reflexivity. }
    split.
    { unfold key_digest. rewrite Hstr. simpl. unfold as_str.
      rewrite Hcopy. unfold as_str in Hbs. rewrite Hbs.
      unfold hash_str.
      rewrite (hash_str_loop_c_string _ _ Hcs), (hash_str_loop_c_string _ _ Hs).
      reflexivity. }
    right. split; [reflexivity|].
    exists (s ++ [x00]), s. split; assumption.
Qed.

End RehashSteps.

Section RehashLoop.
Context {V : Type} `{Cell V}.
Variables (fuel : nat) (old new n m : Z) (es : list (ht_element V)) (w0 : world V).
Hypothesis Hm : 0 <= m.
Hypothesis Hn : n = 2 ^ m.
Hypothesis Hbound : n < 2 ^ 64.
Hypothesis Hfuel : (Z.to_nat n <= fuel)%nat.
Hypothesis Hold : heap w0 !! old = Some (BElems es).
Hypothesis Hnew0 : exists es0, heap w0 !! new = Some (BElems es0).
Hypothesis Hne : old <> new.
Hypothesis Hlive : keys_live (heap w0) es.
Hypothesis Hrange : pointers_in_range es.
Hypothesis Hcount : (length (filter occupied es) < Z.to_nat n)%nat.

Lemma rehash_slot_rehashed (i : nat) (e : ht_element V) (w : world V) :
  es !! i = Some e ->
  rehashed new n es w0 i w ->
  exists w', rehash_slot fuel old new n (Z.of_nat i) w = Ret tt w' /\
             rehashed new n es w0 (S i) w'.
Proof.
  intros He (Hplan & Hcons & Hkeep & esi & Hesi & Hlen & Hperm & Hlivei & Hplaced).
  assert (Holdw : heap w !! old = Some (BElems es)) by (apply Hkeep; assumption).
  unfold rehash_slot.
  erewrite bind_Ret;
    [|eapply load_element_eq; [eassumption | lia | rewrite Nat2Z.id; eassumption]].
  destruct (Z.eqb_spec (e_occupied e) 0) as [Hz|Hnz].
  - exists w. split; [reflexivity|].
    split; [assumption|]. split; [assumption|]. split; [assumption|].
    exists esi. split; [assumption|]. split; [assumption|].
    split; [|split; assumption].
    rewrite (entries_take_S _ es i e He).
    destruct (decide (occupied e)) as [Hocc|_]; [contradiction|].
    rewrite app_nil_r. assumption.
  - assert (Hocc : occupied e) by exact Hnz.
    assert (Hkept0 : bytes_kept (heap w0) (heap w)).
    { intros p bs Hp. apply Hkeep; [|assumption].
      destruct Hnew0 as [es0 Hes0]. congruence. }
    assert (Hlive0 : key_live (heap w0) (e_key e)).
    { unfold keys_live in Hlive. rewrite Forall_lookup in Hlive. eapply Hlive; eauto. }
    assert (Hlivew : key_live (heap w) (e_key e)) by (eapply key_live_kept; eauto).
    assert (Hrng : k_type (e_key e) = HT_STR_KEY -> 0 <= k_data (e_key e) < 2 ^ 64).
    { unfold pointers_in_range in Hrange. rewrite Forall_lookup in Hrange.
      eapply Hrange; eauto. }
    destruct (rehash_index_eq e n m w Hm Hn Hbound Hlivew Hrng)
      as [digest [Hdigest [Hhome Hhr]]].
    rewrite (bind_Ret _ _ _ _ _ Hhome).
    assert (Hcnt : (length (filter occupied esi) < length esi)%nat).
    { rewrite <- (entries_length (heap w) esi), (Permutation_length Hperm), entries_length.
      pose proof (filter_occupied_take_le es (S i)) as Hle.
      rewrite (take_S_r es i e He), filter_app, length_app, filter_cons in Hle.
      destruct (decide (occupied e)); [|contradiction]. simpl in Hle. lia. }
    destruct (rehash_probe_free_slot fuel new n m (digest mod n) esi w
                Hesi Hlen Hm Hn Hbound Hhr Hcnt Hfuel)
      as [j [e0 [Hprobe [Hjr [Hj [Hfree Hpath]]]]]].
    rewrite (bind_Ret _ _ _ _ _ Hprobe).
    destruct (rehash_move_eq e e0 new j esi w Hesi (proj1 Hjr) Hj Hplan Hlivew)
      as [w' [k' [Hmove [Hplan' [Hcons' [Hnew' [Hkeep' [Hlk [Hdg Hlive']]]]]]]]].
    exists w'. split; [assumption|].
    assert (Hkept' : bytes_kept (heap w) (heap w')).
    { intros p bs Hp. apply Hkeep'; [congruence|assumption]. }
    split; [assumption|]. split; [congruence|].
    split; [intros a b Ha Hab; apply Hkeep'; [assumption|]; apply Hkeep; assumption|].
    eexists. split; [exact Hnew'|].
    split; [rewrite length_insert; assumption|].
    split.
    + rewrite (entries_insert _ esi (Z.to_nat j) e0) by
        (try assumption; unfold occupied; simpl; lia).
      simpl e_key. simpl e_value.
      rewrite (entries_kept (heap w) (heap w') esi) by assumption.
      rewrite Hperm, (entries_take_S _ es i e He).
      destruct (decide (occupied e)); [|contradiction].
      rewrite Hlk, (logical_key_kept (heap w0) (heap w)) by assumption.
      apply Permutation_cons_append.
    + split.
      * unfold keys_live. apply Forall_insert.
        -- apply (keys_live_kept (heap w) (heap w')); assumption.
        -- intros _. exact Hlive'.
      * intros j' e' Hj' Hocc'.
        assert (Hnewocc : occupied {| e_key := k'; e_value := e_value e; e_occupied := 1 |})
          by (unfold occupied; simpl; lia).
        destruct (decide (j' = Z.to_nat j)) as [->|Hjj].
        -- rewrite list_lookup_insert_eq in Hj' by (apply lookup_lt_Some in Hj; assumption).
           inversion Hj'; subst e'. simpl e_key.
           exists digest. split; [congruence|].
           rewrite Z2Nat.id by lia.
           apply probe_path_insert; assumption.
        -- rewrite list_lookup_insert_ne in Hj' by congruence.
           destruct (Hplaced j' e' Hj' Hocc') as [dg [Hdg' Hpath']].
           exists dg. split.
           ++ rewrite (key_digest_kept (heap w) (heap w')); [assumption|assumption|].
              unfold keys_live in Hlivei. rewrite Forall_lookup in Hlivei.
              eapply Hlivei; eauto.
           ++ apply probe_path_insert; assumption.
Qed.

Lemma rehash_rehashed (k : nat) :
  forall (i : nat) (w : world V),
    (i + k <= length es)%nat ->
    rehashed new n es w0 i w ->
    exists w', rehash fuel old new n k (Z.of_nat i) w = Ret tt w' /\
               rehashed new n es w0 (i + k) w'.
Proof.
  induction k as [|k IH]; intros i w Hik Hinv; simpl.
  - exists w. rewrite Nat.add_0_r. auto.
  - destruct (lookup_lt_is_Some_2 es i ltac:(lia)) as [e He].
    destruct (rehash_slot_rehashed i e w He Hinv) as [w1 [Hstep Hinv1]].
    rewrite (bind_Ret _ _ _ _ _ Hstep).
    replace (Z.of_nat i + 1) with (Z.of_nat (S i)) by lia.
    destruct (IH (S i) w1 ltac:(lia) Hinv1) as [w' [Hloop Hinv']].
    exists w'. split; [assumption|].
    replace (i + S k)%nat with (S i + k)%nat by lia. assumption.
Qed.

End RehashLoop.

Section ResizeEntries.
Context {V : Type} `{Cell V}.

Lemma filter_occupied_zero (k : nat) :
  filter occupied (repeat (zero_element (V := V)) k) = [].
Proof.
  induction k as [|k IH]; [reflexivity|].
  simpl. rewrite filter_cons.
  destruct (decide (occupied (zero_element (V := V)))) as [Hocc|_]; [|assumption].
  exfalso. apply Hocc. reflexivity.
Qed.

Lemma resize_ht_move_entries (fuel : nat) (table : Z) (t : hash_table)
    (es : list (ht_element V)) (new n m : Z) (w0 : world V) :
  heap w0 !! table = Some (BTable t) ->
  t_elements t <> 0 ->
  heap w0 !! t_elements t = Some (BElems es) ->
  Z.of_nat (length es) = t_capacity t ->
  heap w0 !! new = Some (BElems (repeat zero_element (Z.to_nat n))) ->
  t_elements t <> new ->
  alloc_plan w0 = [] ->
  keys_live (heap w0) es ->
  pointers_in_range es ->
  0 <= m -> n = 2 ^ m -> n < 2 ^ 64 ->
  (length (filter occupied es) < Z.to_nat n)%nat ->
  (Z.to_nat n <= fuel)%nat ->
  exists w' es',
    resize_ht_move fuel table t n new w0 = Ret tt w' /\
    heap w' !! table = Some (BTable (with_elements (with_capacity t n) new)) /\
    heap w' !! new = Some (BElems es') /\
    Z.of_nat (length es') = n /\
    heap w' !! t_elements t = None /\
    entries (heap w') es' ≡ₚ entries (heap w0) es /\
    well_placed (heap w') es' n /\
    (forall a b, a <> table -> a <> t_elements t -> a <> new ->
                 heap w0 !! a = Some b -> heap w' !! a = Some b) /\
    console w' = console w0 /\
    alloc_plan w' = [].
Proof.
  intros Ht Hel Hes Hlen Hnew Hne Hplan Hlive Hrange Hm Hn Hbound Hcount Hfuel.
  assert (Hpos : 0 < n) by (subst n; apply Z.pow_pos_nonneg; lia).
  assert (Htn : table <> new) by congruence.
  assert (Hto : table <> t_elements t) by congruence.
  assert (Hinv0 : rehashed new n es w0 0 w0).
  { split; [assumption|]. split; [reflexivity|]. split; [auto|].
    eexists. split; [exact Hnew|].
    split; [rewrite repeat_length; lia|].
    split.
    - unfold entries. rewrite filter_occupied_zero. reflexivity.
    - split.
      + unfold keys_live. apply Forall_forall. intros e He Hocc.
        apply list_elem_of_In, repeat_spec in He. subst e.
        exfalso. apply Hocc. reflexivity.
      + intros j e Hj Hocc.
        apply list_elem_of_lookup_2, list_elem_of_In, repeat_spec in Hj. subst e.
        exfalso. apply Hocc. reflexivity. }
  destruct (rehash_rehashed fuel (t_elements t) new n m es w0 Hm Hn Hbound Hfuel Hes
              (ex_intro _ _ Hnew) Hne Hlive Hrange Hcount (length es) 0%nat w0
              ltac:(lia) Hinv0)
    as [w1 [Hloop (Hplan1 & Hcons1 & Hkeep1 & es1 & Hes1 & Hlen1 & Hperm1 & Hlive1
                   & Hplaced1)]].
  simpl in Hperm1. rewrite firstn_all in Hperm1.
  unfold resize_ht_move.
  replace (Z.to_nat (t_capacity t)) with (length es) by lia.
  change (Z.of_nat 0) with 0 in Hloop.
  rewrite (bind_Ret _ _ _ _ _ Hloop).
  assert (Hold1 : heap w1 !! t_elements t = Some (BElems es)) by (apply Hkeep1; auto).
  assert (Ht1 : heap w1 !! table = Some (BTable t)) by (apply Hkeep1; auto).
  erewrite bind_Ret; [|eapply free_eq; eassumption].
  erewrite bind_Ret.
  2:{ eapply load_table_eq. simpl. rewrite lookup_delete_ne by auto. eassumption. }
  erewrite store_table_eq.
  2:{ simpl. rewrite lookup_delete_ne by auto. eassumption. }
  eexists _, es1. split; [reflexivity|]. simpl.
  assert (Hkept : bytes_kept (heap w1)
                    (<[table := BTable (with_elements (with_capacity t n) new)]>
                       (delete (t_elements t) (heap w1)))).
  { intros p bs Hp.
    rewrite lookup_insert_ne by congruence.
    rewrite lookup_delete_ne by congruence. assumption. }
  split; [apply lookup_insert_eq|].
  split.
  { rewrite lookup_insert_ne by assumption.
    rewrite lookup_delete_ne by assumption. assumption. }
  split; [assumption|].
  split.
  { rewrite lookup_insert_ne by assumption. apply lookup_delete_eq. }
  split.
  { rewrite (entries_kept (heap w1)) by assumption. assumption. }
  split.
  { intros j e Hj Hocc. destruct (Hplaced1 j e Hj Hocc) as [dg [Hdg Hpath]].
    exists dg. split; [|assumption].
    rewrite (key_digest_kept (heap w1)); [assumption|assumption|].
    unfold keys_live in Hlive1. rewrite Forall_lookup in Hlive1. eapply Hlive1; eauto. }
  split.
  { intros a b Hat Hao Han Hab.
    rewrite lookup_insert_ne by congruence.
    rewrite lookup_delete_ne by congruence. apply Hkeep1; assumption. }
  split; assumption.
Qed.

End ResizeEntries.

(** The growth of a well-formed table, with what the callers of
    [resize_ht] go on from: the allocator still answers every request
    and the new array is at an address that was free. *)
Lemma resize_ht_grows_eq
    (V : Type) (C : Cell V) (fuel : nat) (table : Z) (t : hash_table)
    (es : list (ht_element V)) (m : Z) (w : world V) :
  table <> 0 ->
  heap w !! table = Some (BTable t) ->
  t_elements t <> 0 ->
  heap w !! t_elements t = Some (BElems es) ->
  Z.of_nat (length es) = t_capacity t ->
  0 <= m -> t_capacity t = 2 ^ m ->
  0 < sizeof_ht_element ->
  2 * t_capacity t * sizeof_ht_element <= SIZE_MAX ->
  alloc_plan w = [] ->
  keys_live (heap w) es ->
  pointers_in_range es ->
  (Z.to_nat (2 * t_capacity t) <= fuel)%nat ->
  exists w' new es',
    resize_ht fuel table ADD w = Ret tt w' /\
    heap w' !! table
      = Some (BTable (with_elements (with_capacity t (2 * t_capacity t)) new)) /\
    heap w' !! new = Some (BElems es') /\
    Z.of_nat (length es') = 2 * t_capacity t /\
    heap w' !! t_elements t = None /\
    entries (heap w') es' ≡ₚ entries (heap w) es /\
    well_placed (heap w') es' (2 * t_capacity t) /\
    (forall a b, a <> table -> a <> t_elements t ->
                 heap w !! a = Some b -> heap w' !! a = Some b) /\
    console w' = console w /\
    alloc_plan w' = [] /\ heap w !! new = None.
Proof.
  intros Htab Ht Hel Hes Hlen Hm Hcap Hsz Hfit Hplan Hlive Hrange Hfuel.
  assert (Hcpos : 0 < t_capacity t) by (rewrite Hcap; apply Z.pow_pos_nonneg; lia).
  assert (Hsmall : 2 * t_capacity t <= SIZE_MAX) by nia.
  assert (Hskip : resize_skipped ADD (t_capacity t) = false).
  { simpl. apply Z.ltb_ge. apply Z.div_le_lower_bound; lia. }
  assert (Hnewcap : resized_capacity ADD (t_capacity t) = 2 * t_capacity t).
  { simpl. unfold to_size_t. rewrite Z.mod_small; [lia|].
    unfold SIZE_MAX in Hsmall. lia. }
  rewrite (resize_ht_unfold fuel table ADD t w) by assumption.
  rewrite Hnewcap.
  assert (Hcalloc : calloc_elements (2 * t_capacity t) w
                    = Ret (fresh_addr (heap w))
                        (set_heap (took_answer w)
                           (<[fresh_addr (heap w) :=
                                BElems (repeat zero_element (Z.to_nat (2 * t_capacity t)))]>
                              (heap w)))).
  { unfold calloc_elements.
    destruct (Z.ltb_spec SIZE_MAX (2 * t_capacity t * sizeof_ht_element)); [lia|].
    apply alloc_succeeds. rewrite Hplan. reflexivity. }
  rewrite (bind_Ret _ _ _ _ _ Hcalloc).
  set (new := fresh_addr (heap w)).
  assert (Hnew0 : new <> 0) by (pose proof (fresh_addr_pos (heap w)); subst new; lia).
  assert (Hnt : new <> table) by (eapply fresh_addr_neq; eassumption).
  assert (Hno : new <> t_elements t) by (eapply fresh_addr_neq; eassumption).
  destruct (Z.eqb_spec new 0); [contradiction|].
  set (w0 := set_heap (took_answer w)
               (<[new := BElems (repeat zero_element (Z.to_nat (2 * t_capacity t)))]>
                  (heap w))).
  assert (Hkept0 : bytes_kept (heap w) (heap w0)).
  { intros p bs Hp. subst w0. simpl. rewrite lookup_insert_ne; [assumption|].
    eapply fresh_addr_neq; eassumption. }
  destruct (resize_ht_move_entries fuel table t es new (2 * t_capacity t) (m + 1) w0)
    as [w' [es' (Hmove & Htab' & Hnew' & Hlen' & Hold' & Hperm' & Hplaced' & Hkeep'
                 & Hcons' & Hplan')]].
  - subst w0. simpl. rewrite lookup_insert_ne by assumption. assumption.
  - assumption.
  - subst w0. simpl. rewrite lookup_insert_ne by assumption. assumption.
  - assumption.
  - subst w0. simpl. apply lookup_insert_eq.
  - congruence.
  - subst w0. simpl. rewrite Hplan. reflexivity.
  - eapply keys_live_kept; eassumption.
  - assumption.
  - lia.
  - rewrite Z.pow_add_r by lia. rewrite Hcap. lia.
  - unfold SIZE_MAX in Hsmall. lia.
  - pose proof (filter_occupied_take_le es (length es)) as Hle.
    assert (length (filter occupied es) <= length es)%nat.
    { clear. induction es as [|e l IH]; [reflexivity|].
      rewrite filter_cons. destruct (decide (occupied e)); simpl; lia. }
    lia.
  - assumption.
  - exists w', new, es'.
    split; [assumption|]. split; [assumption|]. split; [assumption|].
    split; [assumption|]. split; [assumption|].
    split.
    { rewrite Hperm'. rewrite (entries_kept (heap w) (heap w0)) by assumption.
      reflexivity. }
    split; [assumption|].
    split.
    { intros a b Hat Hao Hab. apply Hkeep'; try assumption.
      + intros E. subst a. subst new. rewrite fresh_addr_fresh in Hab. discriminate.
      + subst w0. simpl. rewrite lookup_insert_ne; [assumption|].
        eapply fresh_addr_neq; eassumption. }
    split; [assumption|].
    split; [assumption|].
    apply fresh_addr_fresh.
Qed.



(** * Further properties of the code *)

(** ** The digest of an int key is one-to-one *)

Lemma MULTIPLIER_inverse : (MULTIPLIER * 340573321) mod 2 ^ 32 = 1.
Proof. reflexivity. Qed.

Lemma to_uint32_hash_int (k : Z) : hash_int k = (to_uint32 k * MULTIPLIER) mod 2 ^ 32.
Proof.
  unfold hash_int, to_size_t, to_uint32.
  apply Z.mod_small.
  pose proof (Z.mod_pos_bound (k mod 2 ^ 32 * MULTIPLIER) (2 ^ 32) ltac:(lia)). lia.
Qed.

(** X1.  Two int keys have the same digest only when they are the
    same 32-bit value: [MULTIPLIER] is odd, so the product modulo 2^32
    can be undone. *)
Theorem hash_int_one_to_one (k1 k2 : Z) :
  hash_int k1 = hash_int k2 <-> to_uint32 k1 = to_uint32 k2.
Proof.
  split.
  - rewrite !to_uint32_hash_int. intros Heq.
    assert (Hinv : forall a, 0 <= a < 2 ^ 32 ->
                             ((a * MULTIPLIER) mod 2 ^ 32 * 340573321) mod 2 ^ 32 = a).
    { intros a Ha. rewrite Z.mul_mod_idemp_l by lia.
      rewrite <- Z.mul_assoc, <- Z.mul_mod_idemp_r by lia.
      rewrite MULTIPLIER_inverse, Z.mul_1_r. apply Z.mod_small. assumption. }
    rewrite <- (Hinv (to_uint32 k1)), <- (Hinv (to_uint32 k2)).
    + rewrite Heq. reflexivity.
    + apply Z.mod_pos_bound. lia.
    + apply Z.mod_pos_bound. lia.
  - intros Heq. unfold hash_int. rewrite Heq. reflexivity.
Qed.

(** ** The thresholds of the capacity check, in integers *)

Lemma dgt_ddiv_max (n c : Z) :
  0 < c ->
  dgt (ddiv (inject_Z n) (inject_Z c)) HT_MAX_DEFAULT_LOAD_FACTOR = (3 * c <? 4 * n).
Proof.
  intros Hc. unfold ddiv, dgt, Qlt_bool, Qle_bool, Qeq_bool, HT_MAX_DEFAULT_LOAD_FACTOR.
  destruct c as [|p|p]; try lia.
  cbn. rewrite ?Z.mul_1_r, ?Pos.mul_1_r, ?Pos.mul_1_l.
  change (Z.pos p =? 0) with false. cbv iota.
  unfold Qdiv, Qmult, Qinv, inject_Z. cbn. rewrite ?Z.mul_1_r, ?Pos.mul_1_l.
  destruct (Z.leb_spec (n * 100) (75 * Z.pos p)); destruct (Z.ltb_spec (3 * Z.pos p) (4 * n));
    simpl; try reflexivity; lia.
Qed.

Lemma dlt_ddiv_min (n c : Z) :
  0 < c ->
  dlt (ddiv (inject_Z n) (inject_Z c)) HT_MIN_DEFAULT_LOAD_FACTOR = (4 * n <? c).
Proof.
  intros Hc. unfold ddiv, dlt, Qlt_bool, Qle_bool, Qeq_bool, HT_MIN_DEFAULT_LOAD_FACTOR.
  destruct c as [|p|p]; try lia.
  cbn. rewrite ?Z.mul_1_r, ?Pos.mul_1_r, ?Pos.mul_1_l.
  change (Z.pos p =? 0) with false. cbv iota.
  unfold Qdiv, Qmult, Qinv, inject_Z. cbn. rewrite ?Z.mul_1_r, ?Pos.mul_1_l.
  destruct (Z.leb_spec (25 * Z.pos p) (n * 100)); destruct (Z.ltb_spec (4 * n) (Z.pos p));
    simpl; try reflexivity; lia.
Qed.

Section CapacityCheck.
Context {V : Type} `{Cell V}.

Lemma ht_capacity_check_thresholds (fuel : nat) (table : Z)
    (check_call_type : capacity_check_call_type) (t : hash_table) (w : world V) :
  heap w !! table = Some (BTable t) ->
  0 < t_capacity t ->
  ht_capacity_check fuel table check_call_type w
  = if (3 * t_capacity t <? 4 * (t_size t + adder_of check_call_type))
       || (4 * (t_size t + adder_of check_call_type) <? t_capacity t)
    then (run resize_ht fuel table check_call_type; ret true) w
    else Ret true w.
Proof.
  intros Ht Hc. unfold ht_capacity_check.
  rewrite (bind_Ret _ _ _ _ _ (load_table_eq _ _ _ Ht)).
  assert (Hsum : (inject_Z (t_size t)
                  + match check_call_type with ADD => 1%Q | DELETE => (-1)%Q end)%Q
                 = inject_Z (t_size t + adder_of check_call_type)).
  { destruct check_call_type; unfold Qplus, inject_Z; simpl; f_equal; lia. }
  rewrite Hsum, dgt_ddiv_max, dlt_ddiv_min by assumption.
  destruct (_ || _); reflexivity.
Qed.

End CapacityCheck.

Lemma bind_Ret_inv {W A B} (m : M W A) (k : A -> M W B) (w w' : W) (b : B) :
  bind m k w = Ret b w' -> exists a w1, m w = Ret a w1 /\ k a w1 = Ret b w'.
Proof.
  unfold bind. destruct (m w) as [a w1| | | |]; try discriminate. eauto.
Qed.

Section CapacityLimits.
Context {V : Type} `{Cell V}.

Lemma resize_ht_skip (fuel : nat) (table : Z) (check_call_type : capacity_check_call_type)
    (t : hash_table) (w : world V) :
  heap w !! table = Some (BTable t) ->
  resize_skipped check_call_type (t_capacity t) = true ->
  exists msgs, resize_ht fuel table check_call_type w = Ret tt (printed w msgs) /\
               Forall (fun m => fst m = Stderr) msgs.
Proof.
  intros Ht Hskip. unfold resize_ht.
  destruct (table =? 0).
  { exists []. rewrite printed_nil. split; [reflexivity|constructor]. }
  rewrite (bind_Ret _ _ _ _ _ (load_table_eq _ _ _ Ht)).
  destruct (t_elements t =? 0).
  { eexists [_]. rewrite fprintf_printed. split; [reflexivity|].
    constructor; [reflexivity|constructor]. }
  destruct check_call_type; simpl in Hskip; rewrite Hskip;
    eexists [_]; rewrite fprintf_printed; (split; [reflexivity|]);
    (constructor; [reflexivity|constructor]).
Qed.

End CapacityLimits.

(** X2.  A table is not resized past the limits of [resize_ht]: the
    capacity check of a removal on a table of no more than
    [HT_INITIAL_CAPACITY] buckets, and the capacity check of an insert
    on a table of more than [SIZE_MAX / 2] buckets, return [true] with
    the memory as it was; at most a message went to stderr. *)
Theorem ht_capacity_check_stops_at_the_limits
    (V : Type) (C : Cell V) (fuel : nat) (table : Z)
    (check_call_type : capacity_check_call_type) (t : hash_table) (w : world V) :
  heap w !! table = Some (BTable t) ->
  (check_call_type = DELETE /\ t_capacity t <= HT_INITIAL_CAPACITY) \/
  (check_call_type = ADD /\ SIZE_MAX / 2 < t_capacity t) ->
  exists msgs,
    ht_capacity_check fuel table check_call_type w = Ret true (printed w msgs) /\
    Forall (fun m => fst m = Stderr) msgs.
Proof.
  intros Ht Hlim.
  assert (Hskip : resize_skipped check_call_type (t_capacity t) = true).
  { destruct Hlim as [[-> Hle]|[-> Hlt]]; simpl.
    - apply Z.leb_le. assumption.
    - apply Z.ltb_lt. assumption. }
  unfold ht_capacity_check.
  rewrite (bind_Ret _ _ _ _ _ (load_table_eq _ _ _ Ht)).
  destruct (_ || _).
  - destruct (resize_ht_skip fuel table check_call_type t w Ht Hskip) as [msgs [Hrun Hall]].
    exists msgs. rewrite (bind_Ret _ _ _ _ _ Hrun). split; [reflexivity|assumption].
  - exists []. rewrite printed_nil. split; [reflexivity|constructor].
Qed.

Lemma ht_capacity_check_stops_at_the_limits_witness :
  exists msgs,
    ht_capacity_check 64 1 DELETE fig_world = Ret true (printed fig_world msgs) /\
    Forall (fun m => fst m = Stderr) msgs.
Proof.
  apply (ht_capacity_check_stops_at_the_limits boxed_value boxed_cell 64 1 DELETE fig_table).
  - reflexivity.
  - left. split; [reflexivity|]. vm_compute. discriminate.
Defined.



(** ** What [ht_insert] does after its argument check *)

Section TypedInsertOutcomes.

Local Abbreviation W := (world ht_value).

Lemma ht_insert_status_loop_rejects (fuel : nat) (table tmp_hashed_key : Z)
    (key : list byte) (curr_key_type : Z) (w w' : W) (b : bool) :
  ht_insert_status_loop fuel table tmp_hashed_key key curr_key_type w = Ret (inl b) w' ->
  b = false.
Proof.
  revert w. induction fuel as [|fuel IH]; intros w Hrun; simpl in Hrun.
  - discriminate.
  - apply bind_Ret_inv in Hrun. destruct Hrun as [status [w1 [_ Hrun]]].
    destruct status.
    + apply bind_Ret_inv in Hrun. destruct Hrun as [in_range [w2 [_ Hrun]]].
      destruct in_range as [[|]|].
      * inversion Hrun.
      * apply bind_Ret_inv in Hrun. destruct Hrun as [? [w3 [_ Hrun]]].
        inversion Hrun. reflexivity.
      * discriminate.
    + eapply IH. eassumption.
    + inversion Hrun.
Qed.

Lemma land_mask_idem (a m : Z) : Z.land (Z.land a m) m = Z.land a m.
Proof. rewrite <- Z.land_assoc, Z.land_diag. reflexivity. Qed.

Lemma land_mask_nonneg (a c : Z) : 0 <= Z.land a (to_size_t c).
Proof.
  apply Z.land_nonneg. right. unfold to_size_t. apply Z.mod_pos_bound. lia.
Qed.

(** The status check of slot [index], already masked, for an int
    probe. *)
Lemma check_new_element_hash_int (table : Z) (t : hash_table)
    (es : list (ht_element ht_value)) (digest : Z) (key : list byte) (k : Z)
    (e : ht_element ht_value) (w : W) :
  heap w !! table = Some (BTable t) ->
  heap w !! t_elements t = Some (BElems es) ->
  es !! Z.to_nat (Z.land digest (to_size_t (t_capacity t - 1))) = Some e ->
  read_int key = Some k ->
  check_new_element_hash table (Z.land digest (to_size_t (t_capacity t - 1)))
    key HT_INT_KEY w
  = Ret (if (e_occupied e =? 0) then NEW_PAIR_NEW_HASH
         else if (as_int (k_data (e_key e)) =? k) then OLD_PAIR_NEW_VALUE
              else NEW_PAIR_REPEATED_HASH) w.
Proof.
  intros Ht Hes He Hk. unfold check_new_element_hash.
  rewrite (bind_Ret _ _ _ _ _ (load_table_eq _ _ _ Ht)).
  rewrite land_mask_idem.
  erewrite bind_Ret;
    [|eapply load_element_eq; [eassumption | apply land_mask_nonneg | eassumption]].
  destruct (e_occupied e =? 0); [reflexivity|].
  simpl. rewrite Hk. unfold defined, bind, ret.
  destruct (as_int (k_data (e_key e)) =? k); reflexivity.
Qed.

Lemma ht_insert_index_between_thresholds (fuel : nat) (table key curr_key_type : Z)
    (t : hash_table) (key_object : list byte) (digest : Z) (w : W) :
  heap w !! table = Some (BTable t) ->
  0 < t_capacity t ->
  t_capacity t <= 4 * (t_size t + 1) <= 3 * t_capacity t ->
  heap w !! key = Some (BBytes key_object) ->
  hash_the_key key_object curr_key_type w = Ret digest w ->
  ht_insert_index fuel table key curr_key_type w
  = Ret (t, key_object, Z.land digest (to_size_t (t_capacity t - 1))) w.
Proof.
  intros Ht Hc Hband Hkey Hdigest. unfold ht_insert_index.
  rewrite (bind_Ret _ _ _ _ _ (load_table_eq _ _ _ Ht)).
  erewrite bind_Ret.
  2:{ rewrite (ht_capacity_check_thresholds fuel table ADD t w Ht Hc). simpl adder_of.
      destruct (Z.ltb_spec (3 * t_capacity t) (4 * (t_size t + 1))); [lia|].
      destruct (Z.ltb_spec (4 * (t_size t + 1)) (t_capacity t)); [lia|].
      reflexivity. }
  rewrite (bind_Ret _ _ _ _ _ (load_bytes_eq _ _ _ Hkey)).
  rewrite (bind_Ret _ _ _ _ _ Hdigest). reflexivity.
Qed.

Lemma ht_insert_after_checks (fuel : nat)
    (table key curr_key_type value curr_value_type value_pass_method : Z) (w : W) :
  table <> 0 -> key <> 0 -> value <> 0 ->
  key_type_check curr_key_type = true ->
  value_type_check curr_value_type = true ->
  ht_insert fuel table key curr_key_type value curr_value_type value_pass_method w
  = (do start <- ht_insert_index fuel table key curr_key_type;
     let '(curr_ht, key_object, tmp_hashed_key) := start in
     if (tmp_hashed_key =? 0) then
       run fprintf Stderr "[ERROR] Hash operation error in ht_insert()\n";
       ret (Some false)
     else
       do permission <-
         ht_insert_status_loop fuel table tmp_hashed_key key_object curr_key_type;
       match permission with
       | inl b => ret (Some b)
       | inr tt =>
           run ht_insert_write curr_ht tmp_hashed_key key_object curr_key_type
                 value curr_value_type value_pass_method;
           ret None
       end) w.
Proof.
  intros Htab Hkey Hval Hkt Hvt. unfold ht_insert.
  destruct (Z.eqb_spec table 0); [contradiction|].
  rewrite (bind_Ret _ _ _ _ _
             (check_ht_pair_input_accepts key curr_key_type value curr_value_type w
                Hkey Hval Hkt Hvt)).
  reflexivity.
Qed.

End TypedInsertOutcomes.

(** X6.  [ht_insert] never returns [true]: a call that returns either
    returned [false] or reached the end of the function, which has no
    [return] statement. *)
Theorem ht_insert_never_returns_true
    (fuel : nat) (table key curr_key_type value curr_value_type value_pass_method : Z)
    (w w' : world ht_value) (r : option bool) :
  ht_insert fuel table key curr_key_type value curr_value_type value_pass_method w
    = Ret r w' ->
  r = Some false \/ r = None.
Proof.
  unfold ht_insert. intros Hrun.
  destruct (table =? 0).
  { apply bind_Ret_inv in Hrun. destruct Hrun as [? [? [_ Hrun]]].
    inversion Hrun. auto. }
  apply bind_Ret_inv in Hrun. destruct Hrun as [ok [w1 [_ Hrun]]].
  destruct ok; simpl in Hrun.
  2:{ apply bind_Ret_inv in Hrun. destruct Hrun as [? [? [_ Hrun]]].
      inversion Hrun. auto. }
  apply bind_Ret_inv in Hrun. destruct Hrun as [[[curr_ht key_object] index] [w2 [_ Hrun]]].
  destruct (index =? 0).
  { apply bind_Ret_inv in Hrun. destruct Hrun as [? [? [_ Hrun]]].
    inversion Hrun. auto. }
  apply bind_Ret_inv in Hrun. destruct Hrun as [permission [w3 [Hloop Hrun]]].
  destruct permission as [b|[]].
  - apply ht_insert_status_loop_rejects in Hloop. subst b. inversion Hrun. auto.
  - apply bind_Ret_inv in Hrun. destruct Hrun as [? [? [_ Hrun]]].
    inversion Hrun. auto.
Qed.

Lemma ht_insert_never_returns_true_witness :
  exists w',
    ht_insert 64 1 3 HT_INT_KEY 4 HT_INT_VAL PASS_BY_COPY (caller_world 16 70)
      = Ret (Some false) w' /\
    (Some false = Some false \/ Some false = @None bool).
Proof.
  eexists. split.
  - vm_compute. reflexivity.
  - eapply (ht_insert_never_returns_true 64 1 3 HT_INT_KEY 4 HT_INT_VAL PASS_BY_COPY
              (caller_world 16 70)).
    vm_compute. reflexivity.
Defined.







(** ** The halving of [resize_ht] *)


Lemma keys_live_fig_elements_32 : keys_live (heap fig_world_32) fig_elements_32.
Proof.
  unfold keys_live, fig_elements_32. simpl.
  repeat apply List.Forall_cons; try apply List.Forall_nil;
    try (intros Hocc; exfalso; apply Hocc; reflexivity).
  intros _. right. split; [reflexivity|].
  exists fig, (list_byte_of_string "fig"). split; reflexivity.
Defined.

Lemma pointers_in_range_fig_elements_32 : pointers_in_range fig_elements_32.
Proof.
  unfold pointers_in_range, fig_elements_32. simpl.
  repeat apply List.Forall_cons; try apply List.Forall_nil;
    try (intros Hocc; exfalso; apply Hocc; reflexivity).
  intros _ _. simpl. lia.
Defined.


(** ** Freeing what the elements own ([ht_delete], [ht_clear]) *)

Section FreeingElements.

Local Abbreviation W := (world boxed_value).

Variable h0 : gmap Z (block boxed_value).
Variables (curr_table : Z) (t : hash_table).

Lemma free_freeing (ps : list Z) (cur : list (ht_element boxed_value)) (p : Z) (w0 w : W) :
  freeing h0 curr_table t ps cur w0 w -> p <> 0 -> freeable h0 curr_table t ps p ->
  exists w', free p w = Ret tt w' /\ freeing h0 curr_table t (ps ++ [p]) cur w0 w'.
Proof.
  intros (Ht & Hcur & Hless & Hplan & Hcons) Hp0 (Hlive & Hpc & Hpe & Hps).
  assert (Hp : is_Some (heap w !! p)).
  { rewrite (Hless p Hpe). destruct (decide (p ∈ ps)); [contradiction|assumption]. }
  destruct Hp as [b Hb].
  exists (set_heap w (delete p (heap w))).
  split; [eapply free_eq; eassumption|].
  split; [simpl; rewrite lookup_delete_ne by congruence; assumption|].
  split; [simpl; rewrite lookup_delete_ne by congruence; assumption|].
  split; [|split; assumption].
  intros a Ha. simpl.
  destruct (decide (a = p)) as [->|Hap].
  - rewrite lookup_delete_eq.
    destruct (decide (p ∈ ps ++ [p])) as [_|Hn]; [reflexivity|].
    exfalso. apply Hn. apply elem_of_app. right. apply list_elem_of_singleton. reflexivity.
  - rewrite lookup_delete_ne by congruence. rewrite (Hless a Ha).
    destruct (decide (a ∈ ps)) as [Hin|Hnin];
      destruct (decide (a ∈ ps ++ [p])) as [Hin'|Hnin']; try reflexivity.
    + exfalso. apply Hnin'. apply elem_of_app. left. assumption.
    + exfalso. apply elem_of_app in Hin'. destruct Hin' as [?|Hin']; [contradiction|].
      apply list_elem_of_singleton in Hin'. contradiction.
Qed.

Lemma free_element_data_freeing (ps : list Z) (cur : list (ht_element boxed_value))
    (i : Z) (e : ht_element boxed_value) (w0 w : W) :
  freeing h0 curr_table t ps cur w0 w ->
  0 <= i -> cur !! Z.to_nat i = Some e ->
  NoDup (element_blocks e) ->
  Forall (freeable h0 curr_table t ps) (element_blocks e) ->
  exists w', free_element_data (t_elements t) i w = Ret tt w' /\
             freeing h0 curr_table t (ps ++ element_blocks e) cur w0 w'.
Proof.
  intros Hinv Hi He Hnd Hall. unfold free_element_data.
  pose proof Hinv as (_ & Hcur & _).
  rewrite (bind_Ret _ _ _ _ _ (load_element_eq _ _ _ _ _ Hcur Hi He)).
  unfold element_blocks in *.
  destruct (Z.eqb_spec (e_occupied e) 0) as [Hfree|Hocc].
  { exists w. rewrite app_nil_r. split; [reflexivity|assumption]. }
  destruct ((k_type (e_key e) =? HT_STR_KEY) && negb (as_str (k_data (e_key e)) =? 0))
    eqn:Hkey.
  - assert (Hk0 : as_str (k_data (e_key e)) <> 0).
    { apply andb_prop in Hkey. destruct Hkey as [_ Hnz].
      apply negb_true_iff, Z.eqb_neq in Hnz. assumption. }
    simpl in Hnd, Hall.
    apply Forall_cons in Hall. destruct Hall as [Hfk Hall].
    destruct (free_freeing ps cur _ w0 w Hinv Hk0 Hfk) as [w1 [Hfree1 Hinv1]].
    rewrite (bind_Ret _ _ _ _ _ Hfree1).
    pose proof Hinv1 as (_ & Hcur1 & _).
    rewrite (bind_Ret _ _ _ _ _ (load_element_eq _ _ _ _ _ Hcur1 Hi He)).
    destruct (Z.eqb_spec (b_value (e_value e)) 0) as [Hv0|Hv0].
    + exists w1. split; [reflexivity|assumption].
    + apply Forall_cons in Hall. destruct Hall as [(Hlive & Hvc & Hve & Hvps) _].
      apply NoDup_cons in Hnd. destruct Hnd as [Hkv _].
      destruct (free_freeing (ps ++ [as_str (k_data (e_key e))]) cur
                  (b_value (e_value e)) w0 w1 Hinv1 Hv0) as [w2 [Hfree2 Hinv2]].
      { split; [assumption|]. split; [assumption|]. split; [assumption|].
        intros Hin. apply elem_of_app in Hin. destruct Hin as [Hin|Hin]; [contradiction|].
        apply list_elem_of_singleton in Hin. apply Hkv. rewrite Hin.
        apply list_elem_of_here. }
      exists w2. split; [assumption|].
      rewrite <- app_assoc in Hinv2. exact Hinv2.
  - simpl. rewrite bind_Ret with (a := tt) (w' := w) by reflexivity.
    rewrite (bind_Ret _ _ _ _ _ (load_element_eq _ _ _ _ _ Hcur Hi He)).
    destruct (Z.eqb_spec (b_value (e_value e)) 0) as [Hv0|Hv0].
    + exists w. rewrite app_nil_r. split; [reflexivity|assumption].
    + simpl in Hall. apply Forall_cons in Hall. destruct Hall as [Hfv _].
      apply (free_freeing ps cur _ w0 w Hinv Hv0 Hfv).
Qed.

Lemma store_zero_freeing (ps : list Z) (cur : list (ht_element boxed_value))
    (i : Z) (w0 w : W) :
  freeing h0 curr_table t ps cur w0 w ->
  0 <= i < Z.of_nat (length cur) ->
  t_elements t <> curr_table ->
  exists w', store_element (t_elements t) i zero_element w = Ret tt w' /\
             freeing h0 curr_table t ps (<[Z.to_nat i := zero_element]> cur) w0 w'.
Proof.
  intros (Ht & Hcur & Hless & Hplan & Hcons) Hi Hne.
  eexists. split; [eapply store_element_eq; eassumption|].
  split; [simpl; rewrite lookup_insert_ne by congruence; assumption|].
  split; [simpl; apply lookup_insert_eq|].
  split; [|split; assumption].
  intros a Ha. simpl. rewrite lookup_insert_ne by congruence. apply Hless. assumption.
Qed.

End FreeingElements.

Lemma wiped_lookup (n : nat) (es : list (ht_element boxed_value)) :
  wiped n es !! n = es !! n.
Proof.
  unfold wiped. rewrite lookup_app_r by (rewrite repeat_length; lia).
  rewrite repeat_length, Nat.sub_diag, lookup_drop. f_equal. lia.
Qed.

Lemma wiped_length (n : nat) (es : list (ht_element boxed_value)) :
  (n <= length es)%nat -> length (wiped n es) = length es.
Proof.
  intros Hn. unfold wiped. rewrite length_app, repeat_length, length_drop. lia.
Qed.

Lemma wiped_insert (n : nat) (es : list (ht_element boxed_value)) :
  (n < length es)%nat ->
  <[n := zero_element]> (wiped n es) = wiped (S n) es.
Proof.
  intros Hn. unfold wiped.
  destruct (lookup_lt_is_Some_2 es n Hn) as [e He].
  rewrite insert_app_r_alt by (rewrite repeat_length; lia).
  rewrite repeat_length, Nat.sub_diag, (drop_S es e n He).
  cbn [repeat insert list_insert]. rewrite repeat_cons, <- app_assoc. reflexivity.
Qed.

Lemma wiped_all (es : list (ht_element boxed_value)) :
  wiped (length es) es = repeat zero_element (length es).
Proof. unfold wiped. rewrite drop_all, app_nil_r. reflexivity. Qed.

Lemma array_blocks_cons (e : ht_element boxed_value) (es : list (ht_element boxed_value)) :
  array_blocks (e :: es) = element_blocks e ++ array_blocks es.
Proof. reflexivity. Qed.

Lemma take_S_drop {A} (es : list A) (e : A) (i k : nat) :
  es !! i = Some e -> take (S k) (drop i es) = e :: take k (drop (S i) es).
Proof. intros He. rewrite (drop_S es e i He). reflexivity. Qed.

Section FreeingLoops.

Local Abbreviation W := (world boxed_value).

Variable h0 : gmap Z (block boxed_value).
Variables (curr_table : Z) (t : hash_table) (es : list (ht_element boxed_value)).
Variable w0 : W.
Hypothesis Hne : t_elements t <> curr_table.

Lemma slot_freeing (wipe : bool) (ps : list Z) (i : nat) (e : ht_element boxed_value)
    (w : W) :
  es !! i = Some e ->
  freeing h0 curr_table t ps (array_of es wipe i) w0 w ->
  NoDup (ps ++ element_blocks e) ->
  Forall (releasable h0 curr_table t) (element_blocks e) ->
  exists w',
    (run free_element_data (t_elements t) (Z.of_nat i);
     if wipe then store_element (t_elements t) (Z.of_nat i) zero_element else ret tt) w
    = Ret tt w' /\
    freeing h0 curr_table t (ps ++ element_blocks e) (array_of es wipe (S i)) w0 w'.
Proof.
  intros He Hinv Hnd Hall.
  assert (Hi : (i < length es)%nat) by (eapply lookup_lt_Some; eassumption).
  assert (Hcur : array_of es wipe i !! Z.to_nat (Z.of_nat i) = Some e).
  { rewrite Nat2Z.id. unfold array_of. destruct wipe; [rewrite wiped_lookup|]; assumption. }
  apply NoDup_app in Hnd. destruct Hnd as (_ & Hdisj & Hnde).
  destruct (free_element_data_freeing h0 curr_table t ps (array_of es wipe i) (Z.of_nat i) e
              w0 w Hinv ltac:(lia) Hcur Hnde) as [w1 [Hfree Hinv1]].
  { apply Forall_forall. intros p Hp.
    rewrite Forall_forall in Hall. destruct (Hall p Hp) as (Hl & Hc & Hel).
    split; [assumption|]. split; [assumption|]. split; [assumption|].
    intros Hin. exact (Hdisj p Hin Hp). }
  rewrite (bind_Ret _ _ _ _ _ Hfree).
  destruct wipe.
  - destruct (store_zero_freeing h0 curr_table t _ _ (Z.of_nat i) w0 w1 Hinv1)
      as [w2 [Hstore Hinv2]].
    + unfold array_of. rewrite wiped_length by lia. lia.
    + assumption.
    + exists w2. split; [assumption|].
      unfold array_of in *. rewrite Nat2Z.id, wiped_insert in Hinv2 by assumption.
      assumption.
  - exists w1. split; [reflexivity|assumption].
Qed.

Lemma ht_clear_loop_freeing (wipe : bool) (k : nat) :
  forall (i : nat) (ps : list Z) (w : W),
    (i + k <= length es)%nat ->
    freeing h0 curr_table t ps (array_of es wipe i) w0 w ->
    NoDup (ps ++ array_blocks (take k (drop i es))) ->
    Forall (releasable h0 curr_table t) (array_blocks (take k (drop i es))) ->
    exists w',
      ht_clear_loop wipe curr_table k (Z.of_nat i) w = Ret tt w' /\
      freeing h0 curr_table t (ps ++ array_blocks (take k (drop i es)))
        (array_of es wipe (i + k)) w0 w'.
Proof.
  induction k as [|k IH]; intros i ps w Hik Hinv Hnd Hall.
  - exists w. simpl. rewrite app_nil_r, Nat.add_0_r. split; [reflexivity|assumption].
  - destruct (lookup_lt_is_Some_2 es i ltac:(lia)) as [e He].
    rewrite (take_S_drop es e i k He), array_blocks_cons in *.
    rewrite app_assoc in Hnd. apply Forall_app in Hall. destruct Hall as [Halle Hallr].
    cbn [ht_clear_loop].
    pose proof Hinv as (Ht & _).
    rewrite (bind_Ret _ _ _ _ _ (load_table_eq _ _ _ Ht)).
    destruct (slot_freeing wipe ps i e w He Hinv) as [w1 [Hslot Hinv1]].
    { apply NoDup_app in Hnd. tauto. }
    { assumption. }
    assert (Hbody :
      (run free_element_data (t_elements t) (Z.of_nat i);
       run (if wipe then store_element (t_elements t) (Z.of_nat i) zero_element
            else ret tt);
       ht_clear_loop wipe curr_table k (Z.of_nat i + 1)) w
      = ht_clear_loop wipe curr_table k (Z.of_nat i + 1) w1).
    { unfold bind in Hslot |- *.
      destruct (free_element_data (t_elements t) (Z.of_nat i) w) as [[] wa| | | |];
        try discriminate.
      rewrite Hslot. reflexivity. }
    rewrite Hbody.
    replace (Z.of_nat i + 1) with (Z.of_nat (S i)) by lia.
    destruct (IH (S i) (ps ++ element_blocks e) w1 ltac:(lia) Hinv1 Hnd Hallr)
      as [w' [Hloop Hinv']].
    exists w'. split; [assumption|].
    rewrite app_assoc. replace (i + S k)%nat with (S i + k)%nat by lia. assumption.
Qed.

Hypothesis Hlen : Z.of_nat (length es) = t_capacity t.
Hypothesis Hcap : t_capacity t < 2 ^ 64.

Lemma ht_delete_loop_freeing (k : nat) :
  forall (i : nat) (fuel : nat) (ps : list Z) (w : W),
    (i + k = length es)%nat ->
    (k < fuel)%nat ->
    freeing h0 curr_table t ps (wiped i es) w0 w ->
    NoDup (ps ++ array_blocks (drop i es)) ->
    Forall (releasable h0 curr_table t) (array_blocks (drop i es)) ->
    exists w',
      ht_delete_loop fuel curr_table (Z.of_nat i) w = Ret tt w' /\
      freeing h0 curr_table t (ps ++ array_blocks (drop i es))
        (repeat zero_element (length es)) w0 w'.
Proof.
  induction k as [|k IH]; intros i fuel ps w Hik Hfuel Hinv Hnd Hall.
  - destruct fuel as [|fuel]; [lia|]. simpl.
    pose proof Hinv as (Ht & _).
    rewrite (bind_Ret _ _ _ _ _ (load_table_eq _ _ _ Ht)).
    destruct (Z.ltb_spec (Z.of_nat i) (t_capacity t)); [lia|].
    exists w. split; [reflexivity|].
    assert (i = length es) by lia. subst i.
    rewrite drop_all. simpl. rewrite app_nil_r. rewrite wiped_all in Hinv. assumption.
  - destruct fuel as [|fuel]; [lia|].
    destruct (lookup_lt_is_Some_2 es i ltac:(lia)) as [e He].
    rewrite (drop_S es e i He), array_blocks_cons in *.
    rewrite app_assoc in Hnd. apply Forall_app in Hall. destruct Hall as [Halle Hallr].
    cbn [ht_delete_loop].
    pose proof Hinv as (Ht & _).
    rewrite (bind_Ret _ _ _ _ _ (load_table_eq _ _ _ Ht)).
    destruct (Z.ltb_spec (Z.of_nat i) (t_capacity t)); [|lia].
    rewrite (bind_Ret _ _ _ _ _ (load_table_eq _ _ _ Ht)).
    destruct (slot_freeing true ps i e w He Hinv) as [w1 [Hslot Hinv1]].
    { apply NoDup_app in Hnd. tauto. }
    { assumption. }
    assert (Hbody :
      (run free_element_data (t_elements t) (Z.of_nat i);
       run store_element (t_elements t) (Z.of_nat i) zero_element;
       ht_delete_loop fuel curr_table (to_size_t (Z.of_nat i + 1))) w
      = ht_delete_loop fuel curr_table (to_size_t (Z.of_nat i + 1)) w1).
    { unfold bind in Hslot |- *.
      destruct (free_element_data (t_elements t) (Z.of_nat i) w) as [[] wa| | | |];
        try discriminate.
      rewrite Hslot. reflexivity. }
    rewrite Hbody.
    assert (Hnext : to_size_t (Z.of_nat i + 1) = Z.of_nat (S i)).
    { unfold to_size_t. rewrite Z.mod_small by lia. lia. }
    rewrite Hnext.
    destruct (IH (S i) fuel (ps ++ element_blocks e) w1 ltac:(lia) ltac:(lia) Hinv1 Hnd Hallr)
      as [w' [Hloop Hinv']].
    exists w'. split; [assumption|].
    rewrite app_assoc. assumption.
Qed.

End FreeingLoops.

Lemma read_ptr_length (bs : list byte) (p : Z) : read_ptr bs = Some p -> (8 <= length bs)%nat.
Proof.
  unfold read_ptr, read_le. destruct (Nat.leb_spec 8 (length bs)); [auto|discriminate].
Qed.

Lemma read_ptr_le_encode_app (p : Z) (tail : list byte) :
  0 <= p < 2 ^ 64 -> read_ptr (le_encode 8 p ++ tail) = Some p.
Proof.
  intros Hp. unfold read_ptr, read_le.
  change (firstn 8 (le_encode 8 p ++ tail)) with (le_encode 8 p).
  replace (8 <=? length (le_encode 8 p ++ tail))%nat with true.
  - rewrite le_decode_encode. change (256 ^ Z.of_nat 8) with (2 ^ 64).
    rewrite Z.mod_small by assumption. reflexivity.
  - symmetry. apply Nat.leb_le. rewrite length_app. simpl. lia.
Qed.

Section Delete.

Local Abbreviation W := (world boxed_value).

Lemma load_pointer_eq (table p : Z) (bs : list byte) (w : W) :
  heap w !! table = Some (BBytes bs) -> read_ptr bs = Some p ->
  load_pointer table w = Ret p w.
Proof.
  intros Hbs Hp. unfold load_pointer.
  rewrite (bind_Ret _ _ _ _ _ (load_bytes_eq _ _ _ Hbs)). rewrite Hp. reflexivity.
Qed.

Lemma store_pointer_eq (table p : Z) (bs : list byte) (w : W) :
  heap w !! table = Some (BBytes bs) -> (8 <= length bs)%nat ->
  store_pointer table p w
  = Ret tt (set_heap w (<[table := BBytes (le_encode 8 p ++ skipn 8 bs)]> (heap w))).
Proof.
  intros Hbs Hlen. unfold store_pointer. rewrite Hbs.
  destruct (Nat.leb_spec 8 (length bs)); [reflexivity|lia].
Qed.

Lemma update_table_eq (curr_table : Z) (f : hash_table -> hash_table) (t : hash_table)
    (w : W) :
  heap w !! curr_table = Some (BTable t) ->
  update_table curr_table f w
  = Ret tt (set_heap w (<[curr_table := BTable (f t)]> (heap w))).
Proof.
  intros Ht. unfold update_table.
  rewrite (bind_Ret _ _ _ _ _ (load_table_eq _ _ _ Ht)).
  eapply store_table_eq. eassumption.
Qed.

Lemma freeing_start (curr_table : Z) (t : hash_table) (es : list (ht_element boxed_value))
    (w : W) :
  heap w !! curr_table = Some (BTable t) ->
  heap w !! t_elements t = Some (BElems es) ->
  freeing (heap w) curr_table t [] es w w.
Proof.
  intros Ht Hes. split; [assumption|]. split; [assumption|].
  split; [|split; reflexivity].
  intros a _. destruct (decide (a ∈ [])) as [Hin|_]; [|reflexivity].
  apply elem_of_nil in Hin. contradiction.
Qed.

Lemma blocks_owned_releasable (h : gmap Z (block boxed_value)) (roots : list Z)
    (curr_table : Z) (t : hash_table) (ps : list Z) :
  blocks_owned h roots ps ->
  curr_table ∈ roots -> t_elements t ∈ roots ->
  Forall (releasable h curr_table t) ps.
Proof.
  intros [_ Hall] Hc He. eapply Forall_impl; [exact Hall|].
  intros p [Hlive Hroots]. split; [assumption|].
  split; intros ->; contradiction.
Qed.

Lemma ht_delete_eq (fuel : nat) (table curr_table : Z) (bs : list byte) (t : hash_table)
    (es : list (ht_element boxed_value)) (w : W) :
  table <> 0 ->
  heap w !! table = Some (BBytes bs) ->
  read_ptr bs = Some curr_table ->
  curr_table <> 0 ->
  heap w !! curr_table = Some (BTable t) ->
  t_elements t <> 0 ->
  heap w !! t_elements t = Some (BElems es) ->
  Z.of_nat (length es) = t_capacity t ->
  t_capacity t < 2 ^ 64 ->
  blocks_owned (heap w) [table; curr_table; t_elements t] (array_blocks es) ->
  (length es < fuel)%nat ->
  exists w',
    ht_delete fuel table w = Ret tt w' /\
    heap w' !! table = Some (BBytes (le_encode 8 0 ++ skipn 8 bs)) /\
    (forall a, a ∈ table_blocks curr_table t es -> heap w' !! a = None) /\
    (forall a, a <> table -> a ∉ table_blocks curr_table t es ->
               heap w' !! a = heap w !! a) /\
    alloc_plan w' = alloc_plan w /\ console w' = console w.
Proof.
  intros Htab Hvar Hptr Hcurr Ht Hel Hes Hlen Hcap Howned Hfuel.
  assert (Htc : table <> curr_table) by congruence.
  assert (Hte : table <> t_elements t) by congruence.
  assert (Hce : t_elements t <> curr_table) by congruence.
  assert (Hrel : Forall (releasable (heap w) curr_table t) (array_blocks es)).
  { apply (blocks_owned_releasable _ [table; curr_table; t_elements t]);
      [assumption| |]; repeat constructor. }
  assert (Hnotvar : table ∉ array_blocks es).
  { intros Hin. destruct Howned as [_ Hall]. rewrite Forall_forall in Hall.
    destruct (Hall table Hin) as [_ Hroots]. apply Hroots. constructor. }
  destruct Howned as [Hnd _].
  unfold ht_delete.
  destruct (Z.eqb_spec table 0); [contradiction|].
  rewrite (bind_Ret _ _ _ _ _ (load_pointer_eq _ _ _ _ Hvar Hptr)).
  destruct (Z.eqb_spec curr_table 0); [contradiction|].
  rewrite (bind_Ret _ _ _ _ _ (load_table_eq _ _ _ Ht)).
  destruct (Z.eqb_spec (t_elements t) 0); [contradiction|].
  destruct (ht_delete_loop_freeing (heap w) curr_table t es w Hce Hlen Hcap
              (length es) 0%nat fuel [] w ltac:(lia) Hfuel)
    as [w1 [Hloop (Ht1 & Hes1 & Hless1 & Hplan1 & Hcons1)]].
  { apply freeing_start; assumption. }
  { rewrite drop_0. exact Hnd. }
  { rewrite drop_0. exact Hrel. }
  rewrite drop_0 in Hless1. simpl in Hless1.
  change (Z.of_nat 0) with 0 in Hloop.
  assert (Hvar1 : heap w1 !! table = Some (BBytes bs)).
  { rewrite (Hless1 table Hte).
    destruct (decide (table ∈ array_blocks es)); [contradiction|assumption]. }
  set (h2 := delete (t_elements t) (heap w1)).
  set (h3 := <[curr_table := BTable (with_elements t 0)]> h2).
  set (h4 := delete curr_table h3).
  assert (Hfirst :
    (run ht_delete_loop fuel curr_table 0;
     do t' <- load_table curr_table;
     run free (t_elements t');
     update_table curr_table (fun t' => with_elements t' 0)) w
    = Ret tt (set_heap w1 h3)).
  { rewrite (bind_Ret _ _ _ _ _ Hloop).
    rewrite (bind_Ret _ _ _ _ _ (load_table_eq _ _ _ Ht1)).
    erewrite bind_Ret; [|eapply free_eq; eassumption].
    erewrite update_table_eq.
    2:{ simpl. rewrite lookup_delete_ne by assumption. eassumption. }
    rewrite set_heap_set_heap. reflexivity. }
  rewrite (bind_Ret _ _ _ _ _ Hfirst).
  erewrite bind_Ret.
  2:{ eapply free_eq; [assumption|]. simpl. subst h3. apply lookup_insert_eq. }
  rewrite set_heap_set_heap, heap_set_heap. fold h4.
  assert (Hvar4 : h4 !! table = Some (BBytes bs)).
  { subst h4 h3 h2. rewrite lookup_delete_ne, lookup_insert_ne, lookup_delete_ne by congruence.
    assumption. }
  erewrite store_pointer_eq;
    [|simpl; eassumption | eapply read_ptr_length; eassumption].
  eexists. split; [reflexivity|]. simpl.
  split; [apply lookup_insert_eq|].
  split; [|split; [|split; assumption]].
  - intros a Ha. unfold table_blocks in Ha.
    apply elem_of_cons in Ha. destruct Ha as [->|Ha].
    { rewrite lookup_insert_ne by congruence. subst h4. apply lookup_delete_eq. }
    apply elem_of_cons in Ha. destruct Ha as [->|Ha].
    { rewrite lookup_insert_ne by congruence. subst h4 h3 h2.
      rewrite lookup_delete_ne, lookup_insert_ne by congruence. apply lookup_delete_eq. }
    assert (Hat : a <> table) by (intros ->; contradiction).
    rewrite Forall_forall in Hrel. destruct (Hrel a Ha) as (_ & Hac & Hae).
    rewrite lookup_insert_ne by congruence. subst h4 h3 h2.
    rewrite lookup_delete_ne, lookup_insert_ne, lookup_delete_ne by congruence.
    rewrite (Hless1 a Hae). destruct (decide (a ∈ array_blocks es)); [reflexivity|contradiction].
  - intros a Hat Hout. unfold table_blocks in Hout.
    apply not_elem_of_cons in Hout. destruct Hout as [Hac Hout].
    apply not_elem_of_cons in Hout. destruct Hout as [Hae Hout].
    rewrite lookup_insert_ne by congruence. subst h4 h3 h2.
    rewrite lookup_delete_ne, lookup_insert_ne, lookup_delete_ne by congruence.
    rewrite (Hless1 a Hae). destruct (decide (a ∈ array_blocks es)); [contradiction|reflexivity].
Qed.

End Delete.

(** ** [ht_delete] *)

(** X16.  [ht_delete] releases a table and nothing else.  Let the
    caller's pointer variable (at [table]) hold the address of a table
    record whose array has [capacity] elements, and let the key and
    value blocks of the occupied elements be live, distinct from each
    other and from the record, the array and the variable.  Then
    [ht_delete] returns; the record, the array and every one of those
    blocks are freed; the variable holds [NULL]; every other block of
    the heap is as before, and nothing is printed. *)
Theorem ht_delete_frees_the_table
    (fuel : nat) (table curr_table : Z) (bs : list byte) (t : hash_table)
    (es : list (ht_element boxed_value)) (w : world boxed_value) :
  table <> 0 ->
  heap w !! table = Some (BBytes bs) ->
  read_ptr bs = Some curr_table ->
  curr_table <> 0 ->
  heap w !! curr_table = Some (BTable t) ->
  t_elements t <> 0 ->
  heap w !! t_elements t = Some (BElems es) ->
  Z.of_nat (length es) = t_capacity t ->
  t_capacity t < 2 ^ 64 ->
  blocks_owned (heap w) [table; curr_table; t_elements t] (array_blocks es) ->
  (length es < fuel)%nat ->
  exists w' bs',
    ht_delete fuel table w = Ret tt w' /\
    heap w' !! table = Some (BBytes bs') /\ read_ptr bs' = Some 0 /\
    length bs' = length bs /\
    (forall a, a ∈ table_blocks curr_table t es -> heap w' !! a = None) /\
    (forall a, a <> table -> a ∉ table_blocks curr_table t es ->
               heap w' !! a = heap w !! a) /\
    alloc_plan w' = alloc_plan w /\ console w' = console w.
Proof.
  intros Htab Hvar Hptr Hcurr Ht Hel Hes Hlen Hcap Howned Hfuel.
  destruct (ht_delete_eq fuel table curr_table bs t es w Htab Hvar Hptr Hcurr Ht Hel Hes
              Hlen Hcap Howned Hfuel)
    as [w' (Hrun & Hvar' & Hfreed & Hkept & Hplan & Hcons)].
  exists w', (le_encode 8 0 ++ skipn 8 bs).
  split; [assumption|]. split; [assumption|].
  split; [apply read_ptr_le_encode_app; lia|].
  split.
  { pose proof (read_ptr_length bs curr_table Hptr).
    rewrite length_app, length_skipn. simpl. lia. }
  split; [assumption|]. split; [assumption|]. split; assumption.
Qed.

Lemma blocks_owned_fig : blocks_owned (heap fig_owner_world) [7; 1; 2] (array_blocks fig_elements).
Proof.
  split.
  - vm_compute. repeat constructor; intros Hin;
      repeat (apply elem_of_cons in Hin; destruct Hin as [Hin|Hin]; [discriminate|]);
      apply elem_of_nil in Hin; assumption.
  - vm_compute. repeat constructor; try (eexists; reflexivity);
      intros Hin;
      repeat (apply elem_of_cons in Hin; destruct Hin as [Hin|Hin]; [discriminate|]);
      apply elem_of_nil in Hin; assumption.
Defined.

Lemma ht_delete_frees_the_table_witness :
  exists w' bs',
    ht_delete 17 7 fig_owner_world = Ret tt w' /\
    heap w' !! 7 = Some (BBytes bs') /\ read_ptr bs' = Some 0 /\
    length bs' = length (le_encode 8 1) /\
    (forall a, a ∈ table_blocks 1 fig_table fig_elements -> heap w' !! a = None) /\
    (forall a, a <> 7 -> a ∉ table_blocks 1 fig_table fig_elements ->
               heap w' !! a = heap fig_owner_world !! a) /\
    alloc_plan w' = alloc_plan fig_owner_world /\ console w' = console fig_owner_world.
Proof.
  apply (ht_delete_frees_the_table 17 7 1 (le_encode 8 1) fig_table fig_elements
           fig_owner_world).
  - discriminate.
  - reflexivity.
  - reflexivity.
  - discriminate.
  - reflexivity.
  - discriminate.
  - reflexivity.
  - reflexivity.
  - reflexivity.
  - exact blocks_owned_fig.
  - simpl. lia.
Defined.

Section DeleteAgain.

Local Abbreviation W := (world boxed_value).

Lemma load_pointer_inv (table p : Z) (w w1 : W) :
  load_pointer table w = Ret p w1 ->
  w1 = w /\ exists bs, heap w !! table = Some (BBytes bs) /\ read_ptr bs = Some p.
Proof.
  unfold load_pointer, bind, load_bytes, defined.
  destruct (heap w !! table) as [[| |bs]|]; try discriminate.
  destruct (read_ptr bs) as [q|] eqn:Hq; [|discriminate].
  intros E. inversion E. subst. eauto.
Qed.

Lemma store_pointer_inv (table p : Z) (w w' : W) :
  store_pointer table p w = Ret tt w' ->
  exists bs, heap w' !! table = Some (BBytes (le_encode 8 p ++ skipn 8 bs)).
Proof.
  unfold store_pointer.
  destruct (heap w !! table) as [[| |bs]|]; try discriminate.
  destruct (8 <=? length bs)%nat; [|discriminate].
  intros E. inversion E. exists bs. simpl. apply lookup_insert_eq.
Qed.

End DeleteAgain.

(** X17.  Deleting a deleted table does nothing.  Whenever
    [ht_delete] returns, it leaves [NULL] in the caller's variable (or
    found it there, or was given no variable), so a second [ht_delete]
    through the same variable returns at once: no block is freed
    twice. *)
Theorem ht_delete_again_does_nothing
    (fuel fuel' : nat) (table : Z) (w w' : world boxed_value) :
  ht_delete fuel table w = Ret tt w' ->
  ht_delete fuel' table w' = Ret tt w'.
Proof.
  unfold ht_delete at 1. intros Hrun.
  destruct (Z.eqb_spec table 0) as [Hz|Hnz].
  { inversion Hrun. subst. unfold ht_delete. rewrite Z.eqb_refl. reflexivity. }
  apply bind_Ret_inv in Hrun. destruct Hrun as [curr_table [w1 [Hload Hrun]]].
  apply load_pointer_inv in Hload. destruct Hload as [-> [bs [Hbs Hptr]]].
  destruct (Z.eqb_spec curr_table 0) as [Hc|Hc].
  { inversion Hrun. subst w'. unfold ht_delete.
    destruct (Z.eqb_spec table 0); [contradiction|].
    rewrite (bind_Ret _ _ _ _ _ (load_pointer_eq _ _ _ _ Hbs Hptr)).
    subst curr_table. reflexivity. }
  apply bind_Ret_inv in Hrun. destruct Hrun as [t [w2 [_ Hrun]]].
  apply bind_Ret_inv in Hrun. destruct Hrun as [[] [w3 [_ Hrun]]].
  apply bind_Ret_inv in Hrun. destruct Hrun as [[] [w4 [_ Hrun]]].
  apply store_pointer_inv in Hrun. destruct Hrun as [bs' Hbs'].
  unfold ht_delete.
  destruct (Z.eqb_spec table 0); [contradiction|].
  erewrite bind_Ret.
  2:{ eapply load_pointer_eq; [eassumption|]. apply read_ptr_le_encode_app. lia. }
  reflexivity.
Qed.

Lemma ht_delete_again_does_nothing_witness :
  exists w',
    ht_delete 17 7 fig_owner_world = Ret tt w' /\
    ht_delete 0 7 w' = Ret tt w'.
Proof.
  eexists. split.
  - vm_compute. reflexivity.
  - apply (ht_delete_again_does_nothing 17 0 7 fig_owner_world).
    vm_compute. reflexivity.
Defined.

(** ** From [ht_create] to [ht_delete] *)

Section CreateDelete.

Local Abbreviation W := (world boxed_value).

Lemma ht_create_succeeds (w : W) :
  alloc_plan w = [] ->
  let table := fresh_addr (heap w) in
  let elements := fresh_addr (<[table := BTable (created HT_INITIAL_CAPACITY HT_MAX_DEFAULT_LOAD_FACTOR 0)]>
                                (heap w)) in
  ht_create w
  = Ret table
      (set_heap w
         (<[table := BTable (created HT_INITIAL_CAPACITY HT_MAX_DEFAULT_LOAD_FACTOR elements)]>
            (<[elements := BElems (repeat zero_element 16)]> (heap w)))).
Proof.
  intros Hplan table elements.
  assert (Hne : elements <> table).
  { apply (fresh_addr_neq _ _ (BTable (created HT_INITIAL_CAPACITY HT_MAX_DEFAULT_LOAD_FACTOR 0))).
    apply lookup_insert_eq. }
  pose proof (fresh_addr_pos
    (<[table := BTable (created HT_INITIAL_CAPACITY HT_MAX_DEFAULT_LOAD_FACTOR 0)]> (heap w))) as Hepos.
  fold elements in Hepos.
  unfold ht_create.
  rewrite ht_create_with_unfold by (rewrite Hplan; reflexivity).
  fold table. unfold ht_create_rest.
  change (t_capacity (created HT_INITIAL_CAPACITY HT_MAX_DEFAULT_LOAD_FACTOR 0)) with 16.
  change ((16 =? 0) || (SIZE_MAX / sizeof_ht_element <? 16)) with false. cbv iota.
  erewrite bind_Ret.
  2:{ rewrite calloc_elements_in_range by (vm_compute; split; [reflexivity|discriminate]).
      apply alloc_succeeds. simpl. rewrite Hplan. reflexivity. }
  rewrite heap_set_heap. fold elements.
  erewrite bind_Ret;
    [|eapply store_table_eq; rewrite heap_set_heap, lookup_insert_ne by assumption;
      apply lookup_insert_eq].
  destruct (Z.eqb_spec elements 0); [lia|].
  unfold ret, set_heap, took_answer. simpl. rewrite Hplan. simpl.
  f_equal. destruct w as [h p c]. simpl in *. subst p. f_equal.
  change (with_elements (created HT_INITIAL_CAPACITY HT_MAX_DEFAULT_LOAD_FACTOR 0) elements)
    with (created HT_INITIAL_CAPACITY HT_MAX_DEFAULT_LOAD_FACTOR elements).
  rewrite (insert_insert_ne _ table elements) by congruence.
  rewrite insert_insert_eq.
  rewrite (insert_insert_ne _ elements table) by assumption.
  reflexivity.
Qed.

Lemma array_blocks_zero (n : nat) : array_blocks (repeat zero_element n) = [].
Proof. induction n as [|n IH]; [reflexivity|]. simpl. assumption. Qed.

End CreateDelete.

(** X18.  A table that is created and deleted leaves no trace.  In a
    heap whose addresses fit a pointer, with every allocation
    succeeding: [ht_create], the caller keeping the result in the
    pointer variable at [table], then [ht_delete] on that variable,
    return with the heap as it was before the two calls, apart from
    the variable, which holds [NULL]. *)
Theorem ht_create_then_ht_delete
    (fuel : nat) (table : Z) (bs : list byte) (w : world boxed_value) :
  table <> 0 ->
  heap w !! table = Some (BBytes bs) ->
  (8 <= length bs)%nat ->
  fresh_addr (heap w) < 2 ^ 64 ->
  alloc_plan w = [] ->
  (16 < fuel)%nat ->
  (do curr_table <- ht_create;
   run store_pointer table curr_table;
   ht_delete fuel table) w
  = Ret tt (set_heap w (<[table := BBytes (le_encode 8 0 ++ skipn 8 bs)]> (heap w))).
Proof.
  intros Htab Hvar Hlen Hfit Hplan Hfuel.
  set (curr_table := fresh_addr (heap w)).
  set (elements := fresh_addr (<[curr_table :=
                                   BTable (created HT_INITIAL_CAPACITY HT_MAX_DEFAULT_LOAD_FACTOR 0)]>
                                 (heap w))).
  set (t := created HT_INITIAL_CAPACITY HT_MAX_DEFAULT_LOAD_FACTOR elements).
  assert (Hcpos : 0 < curr_table) by apply fresh_addr_pos.
  assert (Hepos : 0 < elements) by apply fresh_addr_pos.
  assert (Hce : elements <> curr_table).
  { apply (fresh_addr_neq _ _ (BTable (created HT_INITIAL_CAPACITY HT_MAX_DEFAULT_LOAD_FACTOR 0))).
    apply lookup_insert_eq. }
  assert (Hct : curr_table <> table) by (eapply fresh_addr_neq; eassumption).
  assert (Het : elements <> table).
  { apply (fresh_addr_neq _ _ (BBytes bs)). rewrite lookup_insert_ne by congruence.
    assumption. }
  assert (Hcfresh : heap w !! curr_table = None) by apply fresh_addr_fresh.
  assert (Hefresh : heap w !! elements = None).
  { pose proof (fresh_addr_fresh
      (<[curr_table := BTable (created HT_INITIAL_CAPACITY HT_MAX_DEFAULT_LOAD_FACTOR 0)]> (heap w))) as Hf.
    fold elements in Hf. rewrite lookup_insert_ne in Hf by congruence. assumption. }
  rewrite (bind_Ret _ _ _ _ _ (ht_create_succeeds w Hplan)).
  fold curr_table. fold elements. fold t.
  set (h1 := <[curr_table := BTable t]>
               (<[elements := BElems (repeat zero_element 16)]> (heap w))).
  erewrite bind_Ret.
  2:{ eapply store_pointer_eq; [|eassumption].
      simpl. subst h1. rewrite !lookup_insert_ne by congruence. eassumption. }
  rewrite set_heap_set_heap, heap_set_heap.
  set (w1 := set_heap w (<[table := BBytes (le_encode 8 curr_table ++ skipn 8 bs)]> h1)).
  destruct (ht_delete_eq fuel table curr_table (le_encode 8 curr_table ++ skipn 8 bs)
              t (repeat zero_element 16) w1)
    as [w' (Hrun & Hvar' & Hfreed & Hkept & Hplan' & Hcons')].
  - assumption.
  - subst w1. simpl. apply lookup_insert_eq.
  - apply read_ptr_le_encode_app. lia.
  - lia.
  - subst w1 h1. simpl. rewrite lookup_insert_ne by congruence. apply lookup_insert_eq.
  - simpl. lia.
  - subst w1 h1. simpl. rewrite !lookup_insert_ne by congruence. apply lookup_insert_eq.
  - reflexivity.
  - reflexivity.
  - rewrite array_blocks_zero. split; constructor.
  - simpl. lia.
  - rewrite Hrun. f_equal.
    destruct w' as [h' p' c']. destruct w as [h p c].
    unfold set_heap. simpl in *. subst p' c'. f_equal.
    apply map_eq. intros a.
    destruct (decide (a = table)) as [->|Hat].
    { rewrite Hvar', lookup_insert_eq. reflexivity. }
    rewrite lookup_insert_ne by congruence.
    unfold table_blocks in *.
    destruct (decide (a = curr_table)) as [->|Hac].
    { rewrite Hfreed by (simpl; constructor). symmetry. assumption. }
    destruct (decide (a = elements)) as [->|Hae].
    { rewrite Hfreed by (simpl; apply list_elem_of_further; constructor).
      symmetry. assumption. }
    rewrite Hkept.
    + subst w1 h1. simpl. rewrite !lookup_insert_ne by congruence. reflexivity.
    + assumption.
    + simpl. intros Hin.
      apply elem_of_cons in Hin. destruct Hin as [?|Hin]; [contradiction|].
      apply elem_of_cons in Hin. destruct Hin as [?|Hin]; [contradiction|].
      apply elem_of_nil in Hin. assumption.
Qed.

Lemma ht_create_then_ht_delete_witness :
  (do curr_table <- ht_create;
   run store_pointer 1 curr_table;
   ht_delete 17 1) variable_world
  = Ret tt (set_heap variable_world
              (<[1 := BBytes (le_encode 8 0 ++ skipn 8 (le_encode 8 0))]>
                 (heap variable_world))).
Proof.
  apply (ht_create_then_ht_delete 17 1 (le_encode 8 0) variable_world).
  - discriminate.
  - reflexivity.
  - simpl. lia.
  - vm_compute. reflexivity.
  - reflexivity.
  - lia.
Defined.

(** ** [ht_clear] *)

Section Clear.

Local Abbreviation W := (world boxed_value).

Lemma ht_clear_unfold (moves : bool) (table curr_table : Z) (bs : list byte)
    (t : hash_table) (w : W) :
  table <> 0 ->
  heap w !! table = Some (BBytes bs) ->
  read_ptr bs = Some curr_table ->
  curr_table <> 0 ->
  heap w !! curr_table = Some (BTable t) ->
  t_elements t <> 0 ->
  ht_clear moves table w
  = (if (t_capacity t <=? HT_INITIAL_CAPACITY) then
       run ht_clear_loop true curr_table (Z.to_nat (t_capacity t)) 0;
       run update_table curr_table (fun t => with_size t 0);
       update_table curr_table (fun t => with_capacity t HT_INITIAL_CAPACITY)
     else
       run ht_clear_loop false curr_table
             (Z.to_nat (t_capacity t - HT_INITIAL_CAPACITY)) HT_INITIAL_CAPACITY;
       run ht_clear_loop true curr_table (Z.to_nat HT_INITIAL_CAPACITY) 0;
       do t' <- load_table curr_table;
       do new_elements <- realloc_elements moves (t_elements t') HT_INITIAL_CAPACITY;
       run (if negb (new_elements =? 0) && (HT_INITIAL_CAPACITY <? t_capacity t)
            then memset_elements new_elements HT_INITIAL_CAPACITY
            else ret tt);
       run (if negb (new_elements =? 0)
            then update_table curr_table (fun t => with_elements t new_elements)
            else ret tt);
       run update_table curr_table (fun t => with_size t 0);
       update_table curr_table (fun t => with_capacity t HT_INITIAL_CAPACITY)) w.
Proof.
  intros Htab Hvar Hptr Hcurr Ht Hel. unfold ht_clear.
  destruct (Z.eqb_spec table 0); [contradiction|].
  rewrite (bind_Ret _ _ _ _ _ (load_pointer_eq _ _ _ _ Hvar Hptr)).
  destruct (Z.eqb_spec curr_table 0); [contradiction|].
  rewrite (bind_Ret _ _ _ _ _ (load_table_eq _ _ _ Ht)).
  destruct (Z.eqb_spec (t_elements t) 0); [contradiction|].
  reflexivity.
Qed.

Lemma array_blocks_app (l1 l2 : list (ht_element boxed_value)) :
  array_blocks (l1 ++ l2) = array_blocks l1 ++ array_blocks l2.
Proof. apply flat_map_app. Qed.

End Clear.

(** X20.  [ht_clear] on a table that was never grown.  Let the table
    hold an array of [capacity] elements, the capacity no more than
    [HT_INITIAL_CAPACITY], and let the blocks of the occupied elements
    be live, distinct from each other and from the record and the
    array.  Then [ht_clear] returns; every element of the array is
    zeroed and every one of those blocks is freed; the record keeps
    its array, with size 0 and capacity [HT_INITIAL_CAPACITY]; the
    rest of the heap is as before and nothing is printed. *)
Theorem ht_clear_empties_a_small_table
    (moves : bool) (table curr_table : Z) (bs : list byte) (t : hash_table)
    (es : list (ht_element boxed_value)) (w : world boxed_value) :
  table <> 0 ->
  heap w !! table = Some (BBytes bs) ->
  read_ptr bs = Some curr_table ->
  curr_table <> 0 ->
  heap w !! curr_table = Some (BTable t) ->
  t_elements t <> 0 ->
  heap w !! t_elements t = Some (BElems es) ->
  Z.of_nat (length es) = t_capacity t ->
  t_capacity t <= HT_INITIAL_CAPACITY ->
  blocks_owned (heap w) [curr_table; t_elements t] (array_blocks es) ->
  exists w',
    ht_clear moves table w = Ret tt w' /\
    heap w' !! curr_table
      = Some (BTable (with_capacity (with_size t 0) HT_INITIAL_CAPACITY)) /\
    heap w' !! t_elements t = Some (BElems (repeat zero_element (length es))) /\
    (forall a, a ∈ array_blocks es -> heap w' !! a = None) /\
    (forall a, a <> curr_table -> a <> t_elements t -> a ∉ array_blocks es ->
               heap w' !! a = heap w !! a) /\
    alloc_plan w' = alloc_plan w /\ console w' = console w.
Proof.
  intros Htab Hvar Hptr Hcurr Ht Hel Hes Hlen Hsmall Howned.
  assert (Hce : t_elements t <> curr_table) by congruence.
  assert (Hrel : Forall (releasable (heap w) curr_table t) (array_blocks es)).
  { apply (blocks_owned_releasable _ [curr_table; t_elements t]);
      [assumption| |]; repeat constructor. }
  destruct Howned as [Hnd _].
  rewrite (ht_clear_unfold moves table curr_table bs t w) by assumption.
  destruct (Z.leb_spec (t_capacity t) HT_INITIAL_CAPACITY); [|lia].
  replace (Z.to_nat (t_capacity t)) with (length es) by lia.
  assert (Htake : take (length es) (drop 0 es) = es) by (rewrite drop_0; apply firstn_all).
  destruct (ht_clear_loop_freeing (heap w) curr_table t es w Hce true (length es) 0%nat [] w)
    as [w1 [Hloop (Ht1 & Hes1 & Hless1 & Hplan1 & Hcons1)]].
  { lia. }
  { apply freeing_start; assumption. }
  { rewrite Htake. exact Hnd. }
  { rewrite Htake. exact Hrel. }
  rewrite Htake in Hless1. simpl in Hless1, Hes1.
  unfold array_of in Hes1. rewrite wiped_all in Hes1.
  change (Z.of_nat 0) with 0 in Hloop.
  rewrite (bind_Ret _ _ _ _ _ Hloop).
  erewrite bind_Ret; [|eapply update_table_eq; eassumption].
  erewrite update_table_eq; [|simpl; apply lookup_insert_eq].
  eexists. split; [reflexivity|]. simpl.
  rewrite insert_insert_eq.
  split; [apply lookup_insert_eq|].
  split; [rewrite lookup_insert_ne by congruence; assumption|].
  split; [|split; [|split; assumption]].
  - intros a Ha.
    rewrite Forall_forall in Hrel. destruct (Hrel a Ha) as (_ & Hac & Hae).
    rewrite lookup_insert_ne by congruence. rewrite (Hless1 a Hae).
    destruct (decide (a ∈ array_blocks es)); [reflexivity|contradiction].
  - intros a Hac Hae Hout.
    rewrite lookup_insert_ne by congruence. rewrite (Hless1 a Hae).
    destruct (decide (a ∈ array_blocks es)); [contradiction|reflexivity].
Qed.

Lemma blocks_owned_fig_clear :
  blocks_owned (heap fig_owner_world) [1; 2] (array_blocks fig_elements).
Proof.
  split.
  - vm_compute. repeat constructor; intros Hin;
      repeat (apply elem_of_cons in Hin; destruct Hin as [Hin|Hin]; [discriminate|]);
      apply elem_of_nil in Hin; assumption.
  - vm_compute. repeat constructor; try (eexists; reflexivity);
      intros Hin;
      repeat (apply elem_of_cons in Hin; destruct Hin as [Hin|Hin]; [discriminate|]);
      apply elem_of_nil in Hin; assumption.
Defined.

Lemma ht_clear_empties_a_small_table_witness :
  exists w',
    ht_clear false 7 fig_owner_world = Ret tt w' /\
    heap w' !! 1
      = Some (BTable (with_capacity (with_size fig_table 0) HT_INITIAL_CAPACITY)) /\
    heap w' !! 2 = Some (BElems (repeat zero_element (length fig_elements))) /\
    (forall a, a ∈ array_blocks fig_elements -> heap w' !! a = None) /\
    (forall a, a <> 1 -> a <> 2 -> a ∉ array_blocks fig_elements ->
               heap w' !! a = heap fig_owner_world !! a) /\
    alloc_plan w' = alloc_plan fig_owner_world /\ console w' = console fig_owner_world.
Proof.
  apply (ht_clear_empties_a_small_table false 7 1 (le_encode 8 1) fig_table fig_elements
           fig_owner_world).
  - discriminate.
  - reflexivity.
  - reflexivity.
  - discriminate.
  - reflexivity.
  - discriminate.
  - reflexivity.
  - reflexivity.
  - vm_compute. discriminate.
  - exact blocks_owned_fig_clear.
Defined.

Section ClearGrown.

Local Abbreviation W := (world boxed_value).

Lemma elem_of_array_blocks_split (es : list (ht_element boxed_value)) (n : nat) (a : Z) :
  a ∈ array_blocks (drop n es) ++ array_blocks (take n es) <-> a ∈ array_blocks es.
Proof.
  rewrite <- (take_drop n es) at 3. rewrite array_blocks_app, !elem_of_app. tauto.
Qed.

(** The two loops of [ht_clear] on a grown table. *)
Lemma ht_clear_loops_freeing (curr_table : Z) (t : hash_table)
    (es : list (ht_element boxed_value)) (w : W) :
  heap w !! curr_table = Some (BTable t) ->
  heap w !! t_elements t = Some (BElems es) ->
  Z.of_nat (length es) = t_capacity t ->
  HT_INITIAL_CAPACITY < t_capacity t ->
  blocks_owned (heap w) [curr_table; t_elements t] (array_blocks es) ->
  exists w2,
    (run ht_clear_loop false curr_table
           (Z.to_nat (t_capacity t - HT_INITIAL_CAPACITY)) HT_INITIAL_CAPACITY;
     ht_clear_loop true curr_table (Z.to_nat HT_INITIAL_CAPACITY) 0) w = Ret tt w2 /\
    freeing (heap w) curr_table t (array_blocks (drop 16 es) ++ array_blocks (take 16 es))
      (wiped 16 es) w w2.
Proof.
  intros Ht Hes Hlen Hbig Howned.
  assert (Hce : t_elements t <> curr_table) by congruence.
  assert (Hrel : Forall (releasable (heap w) curr_table t) (array_blocks es)).
  { apply (blocks_owned_releasable _ [curr_table; t_elements t]);
      [assumption| |]; repeat constructor. }
  destruct Howned as [Hnd _].
  unfold HT_INITIAL_CAPACITY in *.
  rewrite <- (take_drop 16 es), array_blocks_app in Hnd, Hrel.
  apply Forall_app in Hrel. destruct Hrel as [Hrel1 Hrel2].
  assert (Hnd' : NoDup (array_blocks (drop 16 es) ++ array_blocks (take 16 es))).
  { apply NoDup_app in Hnd. destruct Hnd as (Hn1 & Hdisj & Hn2).
    apply NoDup_app. split; [assumption|]. split; [|assumption].
    intros x Hx2 Hx1. exact (Hdisj x Hx1 Hx2). }
  assert (Hk : Z.to_nat (t_capacity t - 16) = (length es - 16)%nat) by lia.
  assert (Htake1 : take (length es - 16) (drop 16 es) = drop 16 es).
  { apply take_ge. rewrite length_drop. lia. }
  rewrite Hk.
  destruct (ht_clear_loop_freeing (heap w) curr_table t es w Hce false (length es - 16)
              16%nat [] w)
    as [w1 [Hloop1 Hinv1]].
  { lia. }
  { apply freeing_start; assumption. }
  { rewrite Htake1. apply NoDup_app in Hnd'. simpl. tauto. }
  { rewrite Htake1. assumption. }
  rewrite Htake1 in Hinv1. simpl app in Hinv1.
  change (Z.of_nat 16) with 16 in Hloop1.
  rewrite (bind_Ret _ _ _ _ _ Hloop1).
  destruct (ht_clear_loop_freeing (heap w) curr_table t es w Hce true 16
              0%nat (array_blocks (drop 16 es)) w1)
    as [w2 [Hloop2 Hinv2]].
  { lia. }
  { exact Hinv1. }
  { rewrite drop_0. assumption. }
  { rewrite drop_0. assumption. }
  rewrite drop_0 in Hinv2.
  exists w2. split; [exact Hloop2|exact Hinv2].
Qed.

Lemma wiped_take (n : nat) (es : list (ht_element boxed_value)) :
  (n <= length es)%nat ->
  firstn n (wiped n es) ++ repeat zero_element (n - length (wiped n es))
  = repeat zero_element n.
Proof.
  intros Hn. rewrite wiped_length by assumption.
  replace (n - length es)%nat with 0%nat by lia. simpl. rewrite app_nil_r.
  unfold wiped. rewrite take_app_length'; [reflexivity|]. rewrite repeat_length. reflexivity.
Qed.

End ClearGrown.

(** X21.  [ht_clear] on a grown table, when [realloc] succeeds.  Let
    the table hold an array of [capacity] elements, the capacity above
    [HT_INITIAL_CAPACITY], and let the blocks of the occupied elements
    be live, distinct from each other and from the record and the
    array.  Then [ht_clear] returns; every one of those blocks is
    freed (all elements are visited, those beyond the first
    [HT_INITIAL_CAPACITY] first); the record has size 0, capacity
    [HT_INITIAL_CAPACITY] and an array [new] of [HT_INITIAL_CAPACITY]
    zeroed elements, which is the old array shrunk in place or, when
    [realloc] moved it, a block of its own with the old array freed;
    nothing is printed and the rest of the heap is as before. *)
Theorem ht_clear_shrinks_a_grown_table
    (moves : bool) (table curr_table : Z) (bs : list byte) (t : hash_table)
    (es : list (ht_element boxed_value)) (w : world boxed_value) :
  table <> 0 ->
  heap w !! table = Some (BBytes bs) ->
  read_ptr bs = Some curr_table ->
  curr_table <> 0 ->
  heap w !! curr_table = Some (BTable t) ->
  t_elements t <> 0 ->
  heap w !! t_elements t = Some (BElems es) ->
  Z.of_nat (length es) = t_capacity t ->
  HT_INITIAL_CAPACITY < t_capacity t ->
  blocks_owned (heap w) [curr_table; t_elements t] (array_blocks es) ->
  next_answer (alloc_plan w) = true ->
  exists w' new,
    ht_clear moves table w = Ret tt w' /\
    new <> 0 /\ new <> curr_table /\
    (if moves then new <> t_elements t /\ heap w' !! t_elements t = None
     else new = t_elements t) /\
    heap w' !! curr_table
      = Some (BTable (with_capacity (with_size (with_elements t new) 0)
                        HT_INITIAL_CAPACITY)) /\
    heap w' !! new = Some (BElems (repeat zero_element 16)) /\
    (forall a, a ∈ array_blocks es -> a <> new -> heap w' !! a = None) /\
    (forall a, a <> curr_table -> a <> t_elements t -> a <> new -> a ∉ array_blocks es ->
               heap w' !! a = heap w !! a) /\
    console w' = console w.
Proof.
  intros Htab Hvar Hptr Hcurr Ht Hel Hes Hlen Hbig Howned Hok.
  assert (Hce : t_elements t <> curr_table) by congruence.
  assert (Hrel : Forall (releasable (heap w) curr_table t) (array_blocks es)).
  { apply (blocks_owned_releasable _ [curr_table; t_elements t]);
      [assumption| |]; repeat constructor. }
  rewrite (ht_clear_unfold moves table curr_table bs t w) by assumption.
  destruct (Z.leb_spec (t_capacity t) HT_INITIAL_CAPACITY); [lia|].
  destruct (Z.ltb_spec HT_INITIAL_CAPACITY (t_capacity t)); [|lia].
  destruct (ht_clear_loops_freeing curr_table t es w Ht Hes Hlen Hbig Howned)
    as [w2 [Hloops (Ht2 & Hes2 & Hless2 & Hplan2 & Hcons2)]].
  assert (Hlen16 : (16 <= length es)%nat) by (unfold HT_INITIAL_CAPACITY in *; lia).
  assert (Hstart :
    forall k : world boxed_value -> outcome (world boxed_value) unit,
      (run ht_clear_loop false curr_table
             (Z.to_nat (t_capacity t - HT_INITIAL_CAPACITY)) HT_INITIAL_CAPACITY;
       run ht_clear_loop true curr_table (Z.to_nat HT_INITIAL_CAPACITY) 0;
       k) w = k w2).
  { intros k. unfold bind in Hloops |- *.
    destruct (ht_clear_loop false curr_table _ HT_INITIAL_CAPACITY w) as [[] wa| | | |];
      try discriminate.
    rewrite Hloops. reflexivity. }
  rewrite Hstart.
  rewrite (bind_Ret _ _ _ _ _ (load_table_eq _ _ _ Ht2)).
  assert (Hfreed : forall a, a ∈ array_blocks es -> heap w2 !! a = None).
  { intros a Ha. rewrite Forall_forall in Hrel. destruct (Hrel a Ha) as (_ & _ & Hae).
    rewrite (Hless2 a Hae).
    destruct (decide (a ∈ array_blocks (drop 16 es) ++ array_blocks (take 16 es)))
      as [_|Hn]; [reflexivity|].
    exfalso. apply Hn. apply elem_of_array_blocks_split. assumption. }
  assert (Hkept : forall a, a <> t_elements t -> a ∉ array_blocks es ->
                            heap w2 !! a = heap w !! a).
  { intros a Hae Hout. rewrite (Hless2 a Hae).
    destruct (decide (a ∈ array_blocks (drop 16 es) ++ array_blocks (take 16 es)))
      as [Hin|_]; [|reflexivity].
    exfalso. apply Hout. apply elem_of_array_blocks_split in Hin. assumption. }
  unfold realloc_elements.
  destruct (Z.eqb_spec (t_elements t) 0); [contradiction|].
  unfold bind at 1. rewrite Hes2, Hplan2, Hok.
  change (Z.to_nat HT_INITIAL_CAPACITY) with 16%nat.
  rewrite (wiped_take 16 es Hlen16).
  destruct moves.
  - set (new := fresh_addr (heap w2)).
    assert (Hn0 : new <> 0) by (pose proof (fresh_addr_pos (heap w2)); subst new; lia).
    assert (Hnc : new <> curr_table) by (eapply fresh_addr_neq; eassumption).
    assert (Hne : new <> t_elements t) by (eapply fresh_addr_neq; eassumption).
    destruct (Z.eqb_spec new 0); [contradiction|]. cbn [negb andb].
    set (h3 := <[new := BElems (repeat zero_element 16)]>
                 (delete (t_elements t) (heap w2))).
    erewrite bind_Ret.
    2:{ unfold memset_elements. cbn [heap]. fold h3.
        replace (h3 !! new) with (Some (BElems (repeat (zero_element (V := boxed_value)) 16)))
          by (subst h3; rewrite lookup_insert_eq; reflexivity).
        reflexivity. }
    erewrite bind_Ret.
    2:{ eapply update_table_eq. simpl. subst h3.
        rewrite !lookup_insert_ne by congruence.
        rewrite lookup_delete_ne by congruence. eassumption. }
    erewrite bind_Ret; [|eapply update_table_eq; simpl; apply lookup_insert_eq].
    erewrite update_table_eq; [|simpl; apply lookup_insert_eq].
    eexists _, new. split; [reflexivity|]. simpl. subst h3.
    rewrite !insert_insert_eq.
    split; [assumption|]. split; [assumption|].
    split.
    { split; [assumption|].
      rewrite !lookup_insert_ne by congruence. apply lookup_delete_eq. }
    split; [apply lookup_insert_eq|].
    split; [rewrite lookup_insert_ne by congruence; apply lookup_insert_eq|].
    split; [|split; [|assumption]].
    + intros a Ha Han.
      rewrite Forall_forall in Hrel. destruct (Hrel a Ha) as (_ & Hac & Hae).
      rewrite !lookup_insert_ne by congruence.
      rewrite lookup_delete_ne by congruence. apply Hfreed. assumption.
    + intros a Hac Hae Han Hout.
      rewrite !lookup_insert_ne by congruence.
      rewrite lookup_delete_ne by congruence. apply Hkept; assumption.
  - destruct (Z.eqb_spec (t_elements t) 0); [contradiction|]. cbn [negb andb].
    erewrite bind_Ret.
    2:{ unfold memset_elements. cbn [heap].
        rewrite lookup_insert_eq. reflexivity. }
    erewrite bind_Ret.
    2:{ eapply update_table_eq. simpl. rewrite insert_insert_eq.
        rewrite lookup_insert_ne by congruence. eassumption. }
    erewrite bind_Ret; [|eapply update_table_eq; simpl; apply lookup_insert_eq].
    erewrite update_table_eq; [|simpl; apply lookup_insert_eq].
    eexists _, (t_elements t). split; [reflexivity|]. simpl.
    rewrite !insert_insert_eq.
    split; [assumption|]. split; [assumption|]. split; [reflexivity|].
    split; [apply lookup_insert_eq|].
    split; [rewrite lookup_insert_ne by congruence; apply lookup_insert_eq|].
    split; [|split; [|assumption]].
    + intros a Ha Han.
      rewrite Forall_forall in Hrel. destruct (Hrel a Ha) as (_ & Hac & Hae).
      rewrite !lookup_insert_ne by congruence. apply Hfreed. assumption.
    + intros a Hac Hae Han Hout.
      rewrite !lookup_insert_ne by congruence. apply Hkept; assumption.
Qed.

Lemma blocks_owned_fig_32 :
  blocks_owned (heap fig_owner_world_32) [1; 7] (array_blocks fig_elements_32).
Proof.
  split.
  - vm_compute. repeat constructor; intros Hin;
      repeat (apply elem_of_cons in Hin; destruct Hin as [Hin|Hin]; [discriminate|]);
      apply elem_of_nil in Hin; assumption.
  - vm_compute. repeat constructor; try (eexists; reflexivity);
      intros Hin;
      repeat (apply elem_of_cons in Hin; destruct Hin as [Hin|Hin]; [discriminate|]);
      apply elem_of_nil in Hin; assumption.
Defined.

Lemma ht_clear_shrinks_a_grown_table_witness :
  exists w' new,
    ht_clear true 9 fig_owner_world_32 = Ret tt w' /\
    new <> 0 /\ new <> 1 /\
    (new <> 7 /\ heap w' !! 7 = None) /\
    heap w' !! 1
      = Some (BTable (with_capacity (with_size (with_elements fig_table_32 new) 0)
                        HT_INITIAL_CAPACITY)) /\
    heap w' !! new = Some (BElems (repeat zero_element 16)) /\
    (forall a, a ∈ array_blocks fig_elements_32 -> a <> new -> heap w' !! a = None) /\
    (forall a, a <> 1 -> a <> 7 -> a <> new -> a ∉ array_blocks fig_elements_32 ->
               heap w' !! a = heap fig_owner_world_32 !! a) /\
    console w' = console fig_owner_world_32.
Proof.
  apply (ht_clear_shrinks_a_grown_table true 9 1 (le_encode 8 1) fig_table_32
           fig_elements_32 fig_owner_world_32).
  - discriminate.
  - reflexivity.
  - reflexivity.
  - discriminate.
  - reflexivity.
  - discriminate.
  - reflexivity.
  - reflexivity.
  - reflexivity.
  - exact blocks_owned_fig_32.
  - reflexivity.
Defined.

(** X22.  [ht_clear] on a grown table, when [realloc] fails.  Under
    the conditions of the success case, [ht_clear] returns and reports
    nothing; the blocks of all elements are freed and the record has
    size 0 and capacity [HT_INITIAL_CAPACITY], but it keeps the old
    array at its old length: the first [HT_INITIAL_CAPACITY] elements
    are zeroed, the elements beyond them are as they were, occupancy
    marks and freed pointers included. *)
Theorem ht_clear_keeps_the_array_when_realloc_fails
    (moves : bool) (table curr_table : Z) (bs : list byte) (t : hash_table)
    (es : list (ht_element boxed_value)) (w : world boxed_value) :
  table <> 0 ->
  heap w !! table = Some (BBytes bs) ->
  read_ptr bs = Some curr_table ->
  curr_table <> 0 ->
  heap w !! curr_table = Some (BTable t) ->
  t_elements t <> 0 ->
  heap w !! t_elements t = Some (BElems es) ->
  Z.of_nat (length es) = t_capacity t ->
  HT_INITIAL_CAPACITY < t_capacity t ->
  blocks_owned (heap w) [curr_table; t_elements t] (array_blocks es) ->
  next_answer (alloc_plan w) = false ->
  exists w',
    ht_clear moves table w = Ret tt w' /\
    heap w' !! curr_table
      = Some (BTable (with_capacity (with_size t 0) HT_INITIAL_CAPACITY)) /\
    heap w' !! t_elements t
      = Some (BElems (repeat zero_element 16 ++ drop 16 es)) /\
    (forall a, a ∈ array_blocks es -> heap w' !! a = None) /\
    (forall a, a <> curr_table -> a <> t_elements t -> a ∉ array_blocks es ->
               heap w' !! a = heap w !! a) /\
    console w' = console w.
Proof.
  intros Htab Hvar Hptr Hcurr Ht Hel Hes Hlen Hbig Howned Hfail.
  assert (Hce : t_elements t <> curr_table) by congruence.
  assert (Hrel : Forall (releasable (heap w) curr_table t) (array_blocks es)).
  { apply (blocks_owned_releasable _ [curr_table; t_elements t]);
      [assumption| |]; repeat constructor. }
  rewrite (ht_clear_unfold moves table curr_table bs t w) by assumption.
  destruct (Z.leb_spec (t_capacity t) HT_INITIAL_CAPACITY); [lia|].
  destruct (ht_clear_loops_freeing curr_table t es w Ht Hes Hlen Hbig Howned)
    as [w2 [Hloops (Ht2 & Hes2 & Hless2 & Hplan2 & Hcons2)]].
  assert (Hstart :
    forall k : world boxed_value -> outcome (world boxed_value) unit,
      (run ht_clear_loop false curr_table
             (Z.to_nat (t_capacity t - HT_INITIAL_CAPACITY)) HT_INITIAL_CAPACITY;
       run ht_clear_loop true curr_table (Z.to_nat HT_INITIAL_CAPACITY) 0;
       k) w = k w2).
  { intros k. unfold bind in Hloops |- *.
    destruct (ht_clear_loop false curr_table _ HT_INITIAL_CAPACITY w) as [[] wa| | | |];
      try discriminate.
    rewrite Hloops. reflexivity. }
  rewrite Hstart.
  rewrite (bind_Ret _ _ _ _ _ (load_table_eq _ _ _ Ht2)).
  unfold realloc_elements.
  destruct (Z.eqb_spec (t_elements t) 0); [contradiction|].
  unfold bind at 1. rewrite Hes2, Hplan2, Hfail.
  change (0 =? 0) with true. cbn [negb andb].
  rewrite bind_Ret with (a := tt) (w' := {| heap := heap w2;
                                            alloc_plan := tail (alloc_plan w);
                                            console := console w2 |}) by reflexivity.
  rewrite bind_Ret with (a := tt) (w' := {| heap := heap w2;
                                            alloc_plan := tail (alloc_plan w);
                                            console := console w2 |}) by reflexivity.
  erewrite bind_Ret; [|eapply update_table_eq; simpl; eassumption].
  erewrite update_table_eq; [|simpl; apply lookup_insert_eq].
  eexists. split; [reflexivity|]. simpl.
  rewrite !insert_insert_eq.
  split; [apply lookup_insert_eq|].
  split; [rewrite lookup_insert_ne by congruence; exact Hes2|].
  split; [|split; [|assumption]].
  - intros a Ha.
    rewrite Forall_forall in Hrel. destruct (Hrel a Ha) as (_ & Hac & Hae).
    rewrite lookup_insert_ne by congruence. rewrite (Hless2 a Hae).
    destruct (decide (a ∈ array_blocks (drop 16 es) ++ array_blocks (take 16 es)))
      as [_|Hn]; [reflexivity|].
    exfalso. apply Hn. apply elem_of_array_blocks_split. assumption.
  - intros a Hac Hae Hout.
    rewrite lookup_insert_ne by congruence. rewrite (Hless2 a Hae).
    destruct (decide (a ∈ array_blocks (drop 16 es) ++ array_blocks (take 16 es)))
      as [Hin|_]; [|reflexivity].
    exfalso. apply Hout. apply elem_of_array_blocks_split in Hin. assumption.
Qed.

Lemma ht_clear_keeps_the_array_when_realloc_fails_witness :
  exists w',
    ht_clear true 9 (with_plan fig_owner_world_32 [false]) = Ret tt w' /\
    heap w' !! 1
      = Some (BTable (with_capacity (with_size fig_table_32 0) HT_INITIAL_CAPACITY)) /\
    heap w' !! 7
      = Some (BElems (repeat zero_element 16 ++ drop 16 fig_elements_32)) /\
    (forall a, a ∈ array_blocks fig_elements_32 -> heap w' !! a = None) /\
    (forall a, a <> 1 -> a <> 7 -> a ∉ array_blocks fig_elements_32 ->
               heap w' !! a = heap (with_plan fig_owner_world_32 [false]) !! a) /\
    console w' = console (with_plan fig_owner_world_32 [false]).
Proof.
  apply (ht_clear_keeps_the_array_when_realloc_fails true 9 1 (le_encode 8 1) fig_table_32
           fig_elements_32 (with_plan fig_owner_world_32 [false])).
  - discriminate.
  - reflexivity.
  - reflexivity.
  - discriminate.
  - reflexivity.
  - discriminate.
  - reflexivity.
  - reflexivity.
  - reflexivity.
  - exact blocks_owned_fig_32.
  - reflexivity.
Defined.

(** X23.  [ht_clear] on a table that has no array.  The record gets
    capacity [HT_INITIAL_CAPACITY], size 0 and the result of [calloc],
    which is not looked at: when the allocation succeeds the table has
    a fresh array of [HT_INITIAL_CAPACITY] zeroed elements; when it
    fails the table is left without an array and nothing is reported. *)
Theorem ht_clear_allocates_a_missing_array
    (moves : bool) (table curr_table : Z) (bs : list byte) (t : hash_table)
    (w : world boxed_value) :
  table <> 0 ->
  heap w !! table = Some (BBytes bs) ->
  read_ptr bs = Some curr_table ->
  curr_table <> 0 ->
  heap w !! curr_table = Some (BTable t) ->
  t_elements t = 0 ->
  exists w' elements,
    ht_clear moves table w = Ret tt w' /\
    heap w' !! curr_table
      = Some (BTable (with_elements (with_size (with_capacity t HT_INITIAL_CAPACITY) 0)
                        elements)) /\
    (if next_answer (alloc_plan w)
     then elements <> 0 /\ heap w !! elements = None /\
          heap w' !! elements = Some (BElems (repeat zero_element 16))
     else elements = 0) /\
    (forall a, a <> curr_table -> a <> elements -> heap w' !! a = heap w !! a) /\
    console w' = console w.
Proof.
  intros Htab Hvar Hptr Hcurr Ht Hel. unfold ht_clear.
  destruct (Z.eqb_spec table 0); [contradiction|].
  rewrite (bind_Ret _ _ _ _ _ (load_pointer_eq _ _ _ _ Hvar Hptr)).
  destruct (Z.eqb_spec curr_table 0); [contradiction|].
  rewrite (bind_Ret _ _ _ _ _ (load_table_eq _ _ _ Ht)).
  destruct (Z.eqb_spec (t_elements t) 0); [|contradiction].
  erewrite bind_Ret; [|eapply update_table_eq; eassumption].
  erewrite bind_Ret; [|eapply update_table_eq; simpl; apply lookup_insert_eq].
  erewrite bind_Ret; [|eapply load_table_eq; simpl; apply lookup_insert_eq].
  rewrite set_heap_set_heap, heap_set_heap, insert_insert_eq.
  set (t2 := with_size (with_capacity t HT_INITIAL_CAPACITY) 0).
  set (h2 := <[curr_table := BTable t2]> (heap w)).
  change (t_capacity t2) with 16.
  destruct (next_answer (alloc_plan w)) eqn:Hplan.
  - erewrite bind_Ret.
    2:{ rewrite calloc_elements_in_range by (vm_compute; split; [reflexivity|discriminate]).
        apply alloc_succeeds; simpl; assumption. }
    rewrite heap_set_heap.
    set (new := fresh_addr h2).
    assert (Hn0 : new <> 0) by (pose proof (fresh_addr_pos h2); subst new; lia).
    assert (Hnc : new <> curr_table).
    { apply (fresh_addr_neq h2 curr_table (BTable t2)). subst h2. apply lookup_insert_eq. }
    assert (Hfresh : heap w !! new = None).
    { pose proof (fresh_addr_fresh h2) as Hf. fold new in Hf. subst h2.
      rewrite lookup_insert_ne in Hf by congruence. assumption. }
    erewrite update_table_eq.
    2:{ simpl. rewrite lookup_insert_ne by congruence. subst h2. apply lookup_insert_eq. }
    eexists _, new. split; [reflexivity|]. simpl.
    split; [apply lookup_insert_eq|].
    split.
    { split; [assumption|]. split; [assumption|].
      rewrite lookup_insert_ne by congruence. apply lookup_insert_eq. }
    split; [|reflexivity].
    intros a Hac Han. subst h2. rewrite !lookup_insert_ne by congruence. reflexivity.
  - erewrite bind_Ret.
    2:{ rewrite calloc_elements_in_range by (vm_compute; split; [reflexivity|discriminate]).
        apply alloc_fails; simpl; assumption. }
    erewrite update_table_eq.
    2:{ simpl. subst h2. apply lookup_insert_eq. }
    eexists _, 0. split; [reflexivity|]. simpl.
    split; [apply lookup_insert_eq|].
    split; [reflexivity|].
    split; [|reflexivity].
    intros a Hac _. subst h2. rewrite !lookup_insert_ne by congruence. reflexivity.
Qed.

Lemma ht_clear_allocates_a_missing_array_witness :
  exists w' elements,
    ht_clear false 2 bare_table_world = Ret tt w' /\
    heap w' !! 1
      = Some (BTable (with_elements
                        (with_size (with_capacity (with_elements fig_table 0)
                                      HT_INITIAL_CAPACITY) 0)
                        elements)) /\
    elements = 0 /\
    (forall a, a <> 1 -> a <> elements -> heap w' !! a = heap bare_table_world !! a) /\
    console w' = console bare_table_world.
Proof.
  apply (ht_clear_allocates_a_missing_array false 2 1 (le_encode 8 1)
           (with_elements fig_table 0) bare_table_world).
  - discriminate.
  - reflexivity.
  - reflexivity.
  - discriminate.
  - reflexivity.
  - reflexivity.
Defined.

(** ** A new key through [ht_add_pair] *)

Section NewKey.

Local Abbreviation W := (world boxed_value).

Lemma probe_misses_slot (w : W) es c key n i j :
  probe_misses w es c key n i j ->
  0 <= j /\ exists e, es !! Z.to_nat j = Some e /\ e_occupied e = 0.
Proof. induction 1; eauto. Qed.

Lemma ht_add_pair_probe_misses (w : W) (table : Z) (t : hash_table)
    (es : list (ht_element boxed_value)) (key : ht_key) (value : ht_val_arg)
    (n : nat) (i j : Z) :
  heap w !! table = Some (BTable t) ->
  heap w !! t_elements t = Some (BElems es) ->
  probe_misses w es (t_capacity t) key n i j ->
  forall fuel, (n < fuel)%nat ->
    ht_add_pair_probe fuel table key value i w = Ret (inr j) w.
Proof.
  intros Ht Hes. induction 1 as [i e Hi He Hfree | n i j e Hi He Hocc Hother Hrest IH];
    intros fuel Hfuel.
  - destruct fuel as [|fuel]; [lia|]. simpl.
    rewrite (bind_Ret _ _ _ _ _ (load_table_eq _ _ _ Ht)).
    rewrite (bind_Ret _ _ _ _ _ (load_element_eq _ _ _ _ _ Hes Hi He)).
    rewrite Hfree. reflexivity.
  - destruct fuel as [|fuel]; [lia|]. simpl.
    rewrite (bind_Ret _ _ _ _ _ (load_table_eq _ _ _ Ht)).
    rewrite (bind_Ret _ _ _ _ _ (load_element_eq _ _ _ _ _ Hes Hi He)).
    destruct (Z.eqb_spec (e_occupied e) 0); [contradiction|].
    destruct (Z.eqb_spec (k_type (e_key e)) (k_type key)) as [Hty|Hty]; simpl.
    + destruct Hother as [Hne|Hfalse]; [contradiction|].
      rewrite (bind_Ret _ _ _ _ _ Hfalse).
      apply IH. lia.
    + apply IH. lia.
Qed.

(** The value part of the insertion: [malloc], [memcpy] and the two
    stores into the element. *)
Lemma store_value_copy (elements j : Z) (es : list (ht_element boxed_value))
    (element : ht_element boxed_value) (value : ht_val_arg) (src : list byte) (w : W) :
  heap w !! elements = Some (BElems es) ->
  0 <= j < Z.of_nat (length es) ->
  a_ptr value <> 0 ->
  heap w !! a_ptr value = Some (BBytes src) ->
  0 <= a_size value <= Z.of_nat (length src) ->
  alloc_plan w = [] ->
  let p := fresh_addr (heap w) in
  (do p <- malloc (a_size value);
   run store_element elements j (set_value element p);
   if (p =? 0) then
     fprintf Stderr "Error: failed to allocate memory for value\n"
   else
     run memcpy p (a_ptr value) (a_size value);
     store_element elements j (set_value_size (set_value element p) (a_size value))) w
  = Ret tt (set_heap w
              (<[elements := BElems (<[Z.to_nat j :=
                                         set_value_size (set_value element p) (a_size value)]>
                                       es)]>
                 (<[p := BBytes (firstn (Z.to_nat (a_size value)) src)]> (heap w)))).
Proof.
  intros Hes Hj Hptr Hsrc Hsize Hplan p.
  unfold malloc.
  erewrite bind_Ret; [|apply alloc_succeeds; rewrite Hplan; reflexivity].
  fold p.
  assert (Hp_el : p <> elements) by (eapply fresh_addr_neq; eassumption).
  assert (Hp_src : p <> a_ptr value) by (eapply fresh_addr_neq; eassumption).
  assert (Hp0 : p <> 0) by (pose proof (fresh_addr_pos (heap w)); subst p; lia).
  erewrite bind_Ret;
    [|eapply store_element_eq;
      [simpl; rewrite lookup_insert_ne by congruence; eassumption | assumption]].
  destruct (Z.eqb_spec p 0); [contradiction|].
  erewrite bind_Ret.
  2:{ unfold memcpy. simpl.
      rewrite lookup_insert_ne by congruence. rewrite lookup_insert_eq.
      rewrite lookup_insert_ne, lookup_insert_ne by congruence.
      rewrite Hsrc. rewrite repeat_length.
      destruct (Z.leb_spec 0 (a_size value)); [|lia].
      destruct (Z.leb_spec (a_size value) (Z.of_nat (Z.to_nat (a_size value)))); [|lia].
      destruct (Z.leb_spec (a_size value) (Z.of_nat (length src))); [|lia].
      simpl. reflexivity. }
  erewrite store_element_eq.
  2:{ simpl. rewrite lookup_insert_ne by congruence. apply lookup_insert_eq. }
  2:{ rewrite length_insert. assumption. }
  unfold set_heap, took_answer. simpl. rewrite Hplan. simpl.
  destruct w as [h pl c]. simpl in *. subst pl.
  f_equal. f_equal.
  rewrite skipn_repeat_all, app_nil_r.
  rewrite list_insert_insert_eq.
  rewrite (insert_insert_ne _ p elements) by assumption.
  rewrite !insert_insert_eq.
  reflexivity.
Qed.

End NewKey.

Section NewElement.

Local Abbreviation W := (world boxed_value).

Lemma strcmp_eq_refl (s : list byte) : strcmp_eq s s = true.
Proof.
  induction s as [|c s IH]; [reflexivity|]. simpl.
  rewrite IH, andb_true_r. apply Byte.byte_dec_lb. reflexivity.
Qed.

Lemma element_blocks_new_int (key : ht_key) (p size : Z) :
  k_type key = HT_INT_KEY -> p <> 0 ->
  element_blocks (new_element key p size) = [p].
Proof.
  intros Hk Hp. unfold element_blocks, new_element. simpl. rewrite Hk. simpl.
  destruct (Z.eqb_spec p 0); [contradiction|reflexivity].
Qed.

Lemma element_blocks_new_str (copy p size : Z) :
  copy <> 0 -> p <> 0 ->
  element_blocks (new_element {| k_type := HT_STR_KEY; k_data := copy |} p size)
  = [copy; p].
Proof.
  intros Hc Hp. unfold element_blocks, new_element, as_str. simpl.
  destruct (Z.eqb_spec copy 0); [contradiction|].
  destruct (Z.eqb_spec p 0); [contradiction|reflexivity].
Qed.

Lemma ht_add_pair_new_eq (table j : Z) (t : hash_table)
    (es : list (ht_element boxed_value)) (e0 : ht_element boxed_value)
    (key : ht_key) (value : ht_val_arg) (src : list byte) (w : W) :
  heap w !! table = Some (BTable t) ->
  heap w !! t_elements t = Some (BElems es) ->
  0 <= j -> es !! Z.to_nat j = Some e0 ->
  key_live (heap w) key ->
  a_ptr value <> 0 ->
  heap w !! a_ptr value = Some (BBytes src) ->
  0 <= a_size value <= Z.of_nat (length src) ->
  alloc_plan w = [] ->
  exists w' k' p,
    ht_add_pair_new table j key value w = Ret tt w' /\
    alloc_plan w' = [] /\ console w' = console w /\
    heap w' !! t_elements t
      = Some (BElems (<[Z.to_nat j := new_element k' p (a_size value)]> es)) /\
    k_type k' = k_type key /\
    (k_type key = HT_INT_KEY -> k' = key) /\
    logical_key (heap w') k' = logical_key (heap w) key /\
    key_digest (heap w') k' = key_digest (heap w) key /\
    key_live (heap w') k' /\
    p <> 0 /\
    (k_type key = HT_STR_KEY -> as_str (k_data k') <> 0) /\
    heap w' !! p = Some (BBytes (firstn (Z.to_nat (a_size value)) src)) /\
    NoDup (element_blocks (new_element k' p (a_size value))) /\
    (forall a, a ∈ element_blocks (new_element k' p (a_size value)) ->
               heap w !! a = None /\ is_Some (heap w' !! a) /\ a <> 0) /\
    (forall a, a <> t_elements t -> a ∉ element_blocks (new_element k' p (a_size value)) ->
               heap w' !! a = heap w !! a).
Proof.
  intros Ht Hes Hj He0 Hlive Hptr Hsrc Hsize Hplan.
  assert (Hjlt : 0 <= j < Z.of_nat (length es)).
  { apply lookup_lt_Some in He0. lia. }
  unfold ht_add_pair_new.
  rewrite (bind_Ret _ _ _ _ _ (load_table_eq _ _ _ Ht)).
  rewrite (bind_Ret _ _ _ _ _ (load_element_eq _ _ _ _ _ Hes Hj He0)).
  erewrite bind_Ret; [|eapply store_element_eq; eassumption].
  set (e1 := {| e_key := e_key e0; e_value := e_value e0; e_occupied := 1 |}).
  set (w1 := set_heap w (<[t_elements t := BElems (<[Z.to_nat j := e1]> es)]> (heap w))).
  assert (Hes1 : heap w1 !! t_elements t = Some (BElems (<[Z.to_nat j := e1]> es)))
    by apply lookup_insert_eq.
  assert (Hjlt1 : 0 <= j < Z.of_nat (length (<[Z.to_nat j := e1]> es)))
    by (rewrite length_insert; assumption).
  assert (Hsrc_el : a_ptr value <> t_elements t) by congruence.
  destruct Hlive as [Hint|[Hstr [bs [s [Hbs Hs]]]]].
  - (* an int key *)
    assert (Hnstr : (k_type key =? HT_STR_KEY) = false) by (rewrite Hint; reflexivity).
    rewrite Hnstr.
    set (e2 := {| e_key := key; e_value := e_value e1; e_occupied := e_occupied e1 |}).
    erewrite bind_Ret.
    2:{ erewrite bind_Ret; [|eapply store_element_eq; eassumption]. reflexivity. }
    cbv beta iota. subst w1. rewrite set_heap_set_heap, heap_set_heap, insert_insert_eq.
    rewrite list_insert_insert_eq.
    set (w2 := set_heap w (<[t_elements t := BElems (<[Z.to_nat j := e2]> es)]> (heap w))).
    pose proof (store_value_copy (t_elements t) j (<[Z.to_nat j := e2]> es) e2 value src w2)
      as Hcopy.
    cbv zeta in Hcopy. rewrite Hcopy; clear Hcopy.
    2:{ apply lookup_insert_eq. }
    2:{ rewrite length_insert. assumption. }
    2:{ assumption. }
    2:{ subst w2. simpl. rewrite lookup_insert_ne by congruence. assumption. }
    2:{ assumption. }
    2:{ assumption. }
    set (p := fresh_addr (heap w2)).
    assert (Hp0 : p <> 0) by (pose proof (fresh_addr_pos (heap w2)); subst p; lia).
    assert (Hp_el : p <> t_elements t).
    { eapply (fresh_addr_neq (heap w2)). subst w2. apply lookup_insert_eq. }
    assert (Hpfresh : heap w !! p = None).
    { pose proof (fresh_addr_fresh (heap w2)) as Hf. fold p in Hf. subst w2. simpl in Hf.
      rewrite lookup_insert_ne in Hf by congruence. assumption. }
    exists (set_heap w2
              (<[t_elements t :=
                   BElems (<[Z.to_nat j := set_value_size (set_value e2 p) (a_size value)]>
                             (<[Z.to_nat j := e2]> es))]>
                 (<[p := BBytes (firstn (Z.to_nat (a_size value)) src)]> (heap w2)))),
           key, p.
    split; [reflexivity|].
    split; [assumption|]. split; [reflexivity|].
    split.
    { simpl. rewrite lookup_insert_eq, list_insert_insert_eq. reflexivity. }
    split; [reflexivity|]. split; [reflexivity|].
    split; [unfold logical_key; rewrite Hint; reflexivity|].
    split; [unfold key_digest; rewrite Hint; reflexivity|].
    split; [left; assumption|].
    split; [assumption|].
    split; [intros Hk; rewrite Hint in Hk; discriminate|].
    split.
    { simpl. rewrite lookup_insert_ne by congruence. apply lookup_insert_eq. }
    rewrite (element_blocks_new_int key p _ Hint Hp0).
    split; [repeat constructor; intros Hin; apply elem_of_nil in Hin; assumption|].
    split.
    + intros a Ha. apply list_elem_of_singleton in Ha. subst a.
      split; [assumption|]. split; [|assumption].
      simpl. rewrite lookup_insert_ne by congruence. rewrite lookup_insert_eq. eauto.
    + intros a Hae Hap. rewrite list_elem_of_singleton in Hap.
      simpl. rewrite !lookup_insert_ne by congruence. reflexivity.
  - (* a string key *)
    assert (Hisstr : (k_type key =? HT_STR_KEY) = true) by (rewrite Hstr; reflexivity).
    rewrite Hisstr.
    assert (Hkey_el : as_str (k_data key) <> t_elements t) by congruence.
    assert (Hbs1 : heap w1 !! as_str (k_data key) = Some (BBytes bs)).
    { subst w1. simpl. rewrite lookup_insert_ne by congruence. assumption. }
    set (copy := fresh_addr (heap w1)).
    assert (Hc0 : copy <> 0) by (pose proof (fresh_addr_pos (heap w1)); subst copy; lia).
    assert (Hc_el : copy <> t_elements t) by (eapply fresh_addr_neq; eassumption).
    assert (Hcfresh : heap w !! copy = None).
    { pose proof (fresh_addr_fresh (heap w1)) as Hf. fold copy in Hf. subst w1. simpl in Hf.
      rewrite lookup_insert_ne in Hf by congruence. assumption. }
    set (k' := {| k_type := HT_STR_KEY; k_data := copy |}).
    set (e2 := {| e_key := k'; e_value := e_value e1; e_occupied := e_occupied e1 |}).
    set (h2 := <[t_elements t := BElems (<[Z.to_nat j := e2]> es)]>
                 (<[copy := BBytes (s ++ [x00])]> (heap w))).
    assert (Hkeyed :
      (do copy <- strdup (as_str (k_data key));
       let element :=
         {| e_key := {| k_type := HT_STR_KEY;
                        k_data := set_as_str (k_data (e_key e1)) copy |};
            e_value := e_value e1; e_occupied := e_occupied e1 |} in
       run store_element (t_elements t) j element;
       if (copy =? 0) then
         run fprintf Stderr "Error: failed to duplicate string key\n";
         ret None
       else ret (Some element)) w1
      = Ret (Some e2) (set_heap w h2)).
    { assert (Hdup : strdup (as_str (k_data key)) w1
                     = Ret copy (set_heap (took_answer w1)
                                   (<[copy := BBytes (s ++ [x00])]> (heap w1)))).
      { unfold strdup.
        rewrite (bind_Ret _ _ _ _ _ (load_string_eq _ _ _ _ Hbs1 Hs)).
        apply alloc_succeeds. subst w1. simpl. rewrite Hplan. reflexivity. }
      rewrite (bind_Ret _ _ _ _ _ Hdup). cbv zeta.
      erewrite bind_Ret.
      2:{ eapply store_element_eq; [|eassumption].
          simpl. rewrite lookup_insert_ne by congruence. apply lookup_insert_eq. }
      destruct (Z.eqb_spec copy 0); [contradiction|].
      unfold ret, set_as_str. fold k'. fold e2. f_equal.
      unfold set_heap, took_answer. simpl. rewrite Hplan. simpl.
      destruct w as [h pl c]. simpl in *. subst pl. f_equal.
      subst h2. rewrite list_insert_insert_eq.
      rewrite (insert_insert_ne _ copy (t_elements t)) by assumption.
      rewrite insert_insert_eq. reflexivity. }
    rewrite (bind_Ret _ _ _ _ _ Hkeyed). cbv beta iota.
    set (w2 := set_heap w h2).
    assert (Hcopy2 : heap w2 !! copy = Some (BBytes (s ++ [x00]))).
    { subst w2 h2. simpl. rewrite lookup_insert_ne by congruence. apply lookup_insert_eq. }
    pose proof (store_value_copy (t_elements t) j (<[Z.to_nat j := e2]> es) e2 value src w2)
      as Hcopy.
    cbv zeta in Hcopy. rewrite Hcopy; clear Hcopy.
    2:{ subst w2 h2. apply lookup_insert_eq. }
    2:{ rewrite length_insert. assumption. }
    2:{ assumption. }
    2:{ subst w2 h2. simpl. rewrite !lookup_insert_ne; [assumption| |congruence].
        intros E. rewrite <- E in Hsrc. congruence. }
    2:{ assumption. }
    2:{ assumption. }
    set (p := fresh_addr (heap w2)).
    assert (Hp0 : p <> 0) by (pose proof (fresh_addr_pos (heap w2)); subst p; lia).
    assert (Hp_el : p <> t_elements t).
    { eapply (fresh_addr_neq (heap w2)). subst w2 h2. apply lookup_insert_eq. }
    assert (Hp_copy : p <> copy) by (eapply fresh_addr_neq; eassumption).
    assert (Hpfresh : heap w !! p = None).
    { pose proof (fresh_addr_fresh (heap w2)) as Hf. fold p in Hf. subst w2 h2. simpl in Hf.
      rewrite !lookup_insert_ne in Hf by congruence. assumption. }
    assert (Hcs : c_string (s ++ [x00]) = Some s).
    { apply (c_string_terminated s []). eapply c_string_no_nul; eassumption. }
    set (w3 := set_heap w2
              (<[t_elements t :=
                   BElems (<[Z.to_nat j := set_value_size (set_value e2 p) (a_size value)]>
                             (<[Z.to_nat j := e2]> es))]>
                 (<[p := BBytes (firstn (Z.to_nat (a_size value)) src)]> (heap w2)))).
    assert (Hplan3 : alloc_plan w3 = []) by (subst w3; simpl; assumption).
    assert (Hcons3 : console w3 = console w) by reflexivity.
    assert (Hes3 : heap w3 !! t_elements t
                   = Some (BElems (<[Z.to_nat j := new_element k' p (a_size value)]> es))).
    { subst w3. simpl. rewrite lookup_insert_eq, list_insert_insert_eq. reflexivity. }
    assert (Hcopy3 : heap w3 !! copy = Some (BBytes (s ++ [x00]))).
    { subst w3. simpl. rewrite !lookup_insert_ne by congruence. assumption. }
    assert (Hp3 : heap w3 !! p = Some (BBytes (firstn (Z.to_nat (a_size value)) src))).
    { subst w3. simpl. rewrite lookup_insert_ne by congruence. apply lookup_insert_eq. }
    assert (Hkept3 : forall a, a <> t_elements t -> a <> copy -> a <> p ->
                               heap w3 !! a = heap w !! a).
    { intros a Hae Hac Hap. subst w3. simpl. rewrite !lookup_insert_ne by congruence.
      subst h2. rewrite !lookup_insert_ne by congruence. reflexivity. }
    exists w3, k', p. clearbody w3.
    split; [reflexivity|].
    split; [assumption|]. split; [assumption|].
    split; [assumption|].
    split; [symmetry; assumption|].
    split; [intros Hk; rewrite Hstr in Hk; discriminate|].
    split.
    { unfold logical_key. rewrite Hstr. simpl. unfold as_str in *.
      rewrite Hcopy3, Hcs, Hbs, Hs. reflexivity. }
    split.
    { unfold key_digest. rewrite Hstr. simpl. unfold as_str in *.
      rewrite Hcopy3, Hbs. unfold hash_str.
      rewrite (hash_str_loop_c_string _ _ Hcs), (hash_str_loop_c_string _ _ Hs).
      reflexivity. }
    split.
    { right. split; [reflexivity|]. exists (s ++ [x00]), s. split; assumption. }
    split; [assumption|].
    split; [intros _; exact Hc0|].
    split; [assumption|].
    subst k'. rewrite (element_blocks_new_str copy p _ Hc0 Hp0).
    split.
    { repeat constructor.
      - intros Hin. apply list_elem_of_singleton in Hin. congruence.
      - intros Hin. apply elem_of_nil in Hin. assumption. }
    split.
    + intros a Ha. apply elem_of_cons in Ha. destruct Ha as [->|Ha].
      { split; [assumption|]. split; [|assumption]. rewrite Hcopy3. eauto. }
      apply list_elem_of_singleton in Ha. subst a.
      split; [assumption|]. split; [|assumption]. rewrite Hp3. eauto.
    + intros a Hae Hout.
      apply not_elem_of_cons in Hout. destruct Hout as [Hac Hap].
      rewrite list_elem_of_singleton in Hap.
      apply Hkept3; assumption.
Qed.

End NewElement.

Section InsertNewKey.

Local Abbreviation W := (world boxed_value).

Lemma ht_add_pair_hashed (key : ht_key) (hash_value : Z) (w : W) :
  key_digest (heap w) key = Some hash_value ->
  (if k_type key =? HT_INT_KEY then ret (Some (hash_int (as_int (k_data key))))
   else if k_type key =? HT_STR_KEY then
     do key_string <- load_bytes (as_str (k_data key));
     do h <- defined (hash_str key_string);
     ret (Some h)
   else
     run fprintf Stderr "Error: unknown key type.\n";
     ret None) w = Ret (Some hash_value) w.
Proof.
  intros Hdig. unfold key_digest in Hdig.
  destruct (k_type key =? HT_INT_KEY); [inversion Hdig; reflexivity|].
  destruct (k_type key =? HT_STR_KEY); [|discriminate].
  destruct (heap w !! as_str (k_data key)) as [[| |key_string]|] eqn:Hks;
    try discriminate.
  rewrite (bind_Ret _ _ _ _ _ (load_bytes_eq _ _ _ Hks)).
  rewrite Hdig. reflexivity.
Qed.

Lemma ht_add_pair_insert_eq (fuel : nat) (table : Z) (key : ht_key) (value : ht_val_arg)
    (w : W) (t : hash_table) (es : list (ht_element boxed_value)) (src : list byte)
    (hash_value : Z) (n : nat) (j : Z) :
  table <> 0 ->
  heap w !! table = Some (BTable t) ->
  t_elements t <> 0 ->
  heap w !! t_elements t = Some (BElems es) ->
  0 < t_capacity t ->
  a_ptr value <> 0 ->
  heap w !! a_ptr value = Some (BBytes src) ->
  0 <= a_size value <= Z.of_nat (length src) ->
  key_live (heap w) key ->
  key_digest (heap w) key = Some hash_value ->
  probe_misses w es (t_capacity t) key n (hash_value mod t_capacity t) j ->
  grows_for_one_more t = false ->
  alloc_plan w = [] ->
  (n < fuel)%nat ->
  exists w' k' p,
    ht_add_pair fuel table key value w = Ret tt w' /\
    alloc_plan w' = [] /\ console w' = console w /\
    heap w' !! table = Some (BTable (with_size t (to_size_t (t_size t + 1)))) /\
    heap w' !! t_elements t
      = Some (BElems (<[Z.to_nat j := new_element k' p (a_size value)]> es)) /\
    k_type k' = k_type key /\
    (k_type key = HT_INT_KEY -> k' = key) /\
    logical_key (heap w') k' = logical_key (heap w) key /\
    key_digest (heap w') k' = key_digest (heap w) key /\
    key_live (heap w') k' /\
    p <> 0 /\
    (k_type key = HT_STR_KEY -> as_str (k_data k') <> 0) /\
    heap w' !! p = Some (BBytes (firstn (Z.to_nat (a_size value)) src)) /\
    NoDup (element_blocks (new_element k' p (a_size value))) /\
    (forall a, a ∈ element_blocks (new_element k' p (a_size value)) ->
               heap w !! a = None /\ is_Some (heap w' !! a) /\ a <> 0) /\
    (forall a, a <> table -> a <> t_elements t ->
               a ∉ element_blocks (new_element k' p (a_size value)) ->
               heap w' !! a = heap w !! a).
Proof.
  intros Htab Ht Hel Hes Hcap Hptr Hsrc Hsize Hlive Hdig Hprobe Hgrow Hplan Hfuel.
  destruct (probe_misses_slot _ _ _ _ _ _ _ Hprobe) as [Hj0 [e0 [He0 Hfree0]]].
  assert (Hte : table <> t_elements t) by congruence.
  assert (Hts : table <> a_ptr value) by congruence.
  set (t1 := with_size t (to_size_t (t_size t + 1))).
  set (w1 := set_heap w (<[table := BTable t1]> (heap w))).
  assert (Hkept1 : bytes_kept (heap w) (heap w1)).
  { intros a bs Ha. subst w1. simpl. rewrite lookup_insert_ne by congruence. assumption. }
  destruct (ht_add_pair_new_eq table j t1 es e0 key value src w1)
    as (w' & k' & p & Hnew & Hplan' & Hcons' & Hes' & Hty & Hint & Hlk & Hdg & Hlive'
        & Hp0 & Hk0 & Hp & Hnd & Hfresh & Hkept).
  { subst w1. simpl. apply lookup_insert_eq. }
  { subst w1. simpl. rewrite lookup_insert_ne by congruence. assumption. }
  { assumption. }
  { assumption. }
  { eapply key_live_kept; eassumption. }
  { assumption. }
  { apply Hkept1. assumption. }
  { assumption. }
  { subst w1. simpl. assumption. }
  exists w', k', p.
  split.
  { unfold ht_add_pair.
    destruct (Z.eqb_spec table 0); [contradiction|].
    rewrite (bind_Ret _ _ _ _ _ (load_table_eq _ _ _ Ht)).
    destruct (Z.eqb_spec (t_elements t) 0); [contradiction|].
    destruct (Z.eqb_spec (a_ptr value) 0); [contradiction|].
    rewrite (bind_Ret _ _ _ _ _ (ht_add_pair_hashed key hash_value w Hdig)).
    destruct (Z.eqb_spec (t_capacity t) 0); [lia|].
    rewrite (bind_Ret _ _ _ _ _
               (ht_add_pair_probe_misses w table t es key value n _ j Ht Hes Hprobe fuel Hfuel)).
    cbv beta iota.
    rewrite (bind_Ret _ _ _ _ _ (load_table_eq _ _ _ Ht)).
    erewrite bind_Ret; [|eapply store_table_eq; eassumption].
    fold t1. fold w1.
    change (dgt (ddiv (inject_Z (t_size t1)) (inject_Z (t_capacity t1)))
              (t_max_load_factor t1)) with (grows_for_one_more t).
    rewrite Hgrow.
    rewrite bind_Ret with (a := j) (w' := w1) by reflexivity.
    exact Hnew. }
  split; [assumption|]. split; [assumption|].
  assert (Hblocks_ne : forall a, a ∈ element_blocks (new_element k' p (a_size value)) ->
                                 a <> table).
  { intros a Ha E. subst a. destruct (Hfresh table Ha) as [Hnone _].
    subst w1. simpl in Hnone. rewrite lookup_insert_eq in Hnone. discriminate. }
  split.
  { rewrite Hkept.
    - subst w1. simpl. apply lookup_insert_eq.
    - assumption.
    - intros Hin. exact (Hblocks_ne table Hin eq_refl). }
  split; [assumption|]. split; [assumption|]. split; [assumption|].
  split; [rewrite Hlk; apply logical_key_kept; assumption|].
  split; [rewrite Hdg; apply key_digest_kept; assumption|].
  split; [assumption|]. split; [assumption|]. split; [assumption|]. split; [assumption|].
  split; [assumption|].
  split.
  - intros a Ha. destruct (Hfresh a Ha) as (Hnone & Hsome & Ha0).
    split; [|split; assumption].
    subst w1. simpl in Hnone.
    rewrite lookup_insert_ne in Hnone; [assumption|].
    intros E. symmetry in E. exact (Hblocks_ne a Ha E).
  - intros a Hat Hae Hout. rewrite (Hkept a Hae Hout).
    subst w1. simpl. apply lookup_insert_ne. congruence.
Qed.

End InsertNewKey.


Section FoundAgain.

Local Abbreviation W := (world boxed_value).

Lemma same_key_kept (e : ht_element boxed_value) (key : ht_key) (b : bool) (w w' : W) :
  same_key e key w = Ret b w ->
  bytes_kept (heap w) (heap w') ->
  same_key e key w' = Ret b w'.
Proof.
  unfold same_key. intros Hrun Hkept.
  destruct (k_type key =? HT_INT_KEY).
  { inversion Hrun. reflexivity. }
  destruct (k_type key =? HT_STR_KEY); [|inversion Hrun; reflexivity].
  unfold load_string in *. unfold bind, load_bytes, defined, ret in *.
  destruct (heap w !! as_str (k_data (e_key e))) as [[| |bs1]|] eqn:H1; try discriminate.
  rewrite (Hkept _ _ H1).
  destruct (c_string bs1) as [s1|]; [|discriminate].
  destruct (heap w !! as_str (k_data key)) as [[| |bs2]|] eqn:H2; try discriminate.
  rewrite (Hkept _ _ H2).
  destruct (c_string bs2) as [s2|]; [|discriminate].
  inversion Hrun. reflexivity.
Qed.

Lemma same_key_true (e : ht_element boxed_value) (key : ht_key) (w : W) :
  k_type (e_key e) = k_type key ->
  key_live (heap w) key ->
  logical_key (heap w) (e_key e) = logical_key (heap w) key ->
  same_key e key w = Ret true w.
Proof.
  intros Hty Hlive Heq. unfold same_key.
  destruct Hlive as [Hint|[Hstr [bs [s [Hbs Hs]]]]].
  - rewrite Hint. simpl. unfold logical_key in Heq. rewrite Hty, Hint in Heq. simpl in Heq.
    inversion Heq as [Hk]. rewrite Hk, Z.eqb_refl. reflexivity.
  - rewrite Hstr. simpl. unfold logical_key in Heq. rewrite Hty, Hstr in Heq. simpl in Heq.
    rewrite Hbs, Hs in Heq. simpl in Heq.
    destruct (heap w !! as_str (k_data (e_key e))) as [[| |bs1]|] eqn:H1; try discriminate.
    destruct (c_string bs1) as [s1|] eqn:Hs1; [|discriminate].
    simpl in Heq. inversion Heq; subst s1.
    rewrite (bind_Ret _ _ _ _ _ (load_string_eq _ _ _ _ H1 Hs1)).
    rewrite (bind_Ret _ _ _ _ _ (load_string_eq _ _ _ _ Hbs Hs)).
    unfold ret. rewrite strcmp_eq_refl. reflexivity.
Qed.

(** A key stored in the slot its probing came to is found by the
    same probing. *)
Lemma probe_misses_reaches (w w' : W) (es : list (ht_element boxed_value)) (c : Z)
    (key : ht_key) (e' : ht_element boxed_value) (n : nat) (i j : Z) :
  probe_misses w es c key n i j ->
  bytes_kept (heap w) (heap w') ->
  e_occupied e' <> 0 ->
  k_type (e_key e') = k_type key ->
  same_key e' key w' = Ret true w' ->
  probe_reaches w' (<[Z.to_nat j := e']> es) c key n i j.
Proof.
  intros Hprobe Hkept Hocc' Hty' Hsame'.
  destruct (probe_misses_slot _ _ _ _ _ _ _ Hprobe) as [Hj0 [e0 [He0 Hfree0]]].
  induction Hprobe as [i e Hi He Hfree | n i j e Hi He Hocc Hother Hrest IH].
  - apply (probe_here _ _ _ _ i e'); try assumption.
    apply list_lookup_insert_eq. eapply lookup_lt_Some; eassumption.
  - apply (probe_next _ _ _ _ n i j e); try assumption.
    + rewrite list_lookup_insert_ne; [assumption|].
      intros E. rewrite E in He0. rewrite He0 in He. inversion He; subst e0. contradiction.
    + destruct Hother as [Hne|Hfalse]; [left; assumption|].
      right. eapply same_key_kept; eassumption.
    + apply IH; assumption.
Qed.

End FoundAgain.

Lemma elem_of_element_blocks_new (k : ht_key) (p size a : Z) :
  a ∈ element_blocks (new_element k p size) <->
  a ∈ element_blocks (new_element k 0 size) \/ (a = p /\ p <> 0).
Proof.
  unfold element_blocks, new_element. simpl.
  rewrite !elem_of_app.
  destruct (Z.eqb_spec p 0) as [Hp|Hp].
  - split; [intros [H|H]; [auto|apply elem_of_nil in H; contradiction]|].
    intros [[H|H]|[_ H]]; [auto|apply elem_of_nil in H; contradiction|contradiction].
  - rewrite list_elem_of_singleton.
    split; [intros [H|H]; auto|].
    intros [[H|H]|[H _]]; [auto|apply elem_of_nil in H; contradiction|auto].
Qed.


Section AddThenDelete.

Local Abbreviation W := (world boxed_value).

Lemma array_blocks_insert (es : list (ht_element boxed_value)) (j : nat)
    (e0 e' : ht_element boxed_value) :
  es !! j = Some e0 -> element_blocks e0 = [] ->
  array_blocks es = array_blocks (take j es) ++ array_blocks (drop (S j) es) /\
  array_blocks (<[j := e']> es)
  = array_blocks (take j es) ++ element_blocks e' ++ array_blocks (drop (S j) es).
Proof.
  intros Hj Hnone. split.
  - rewrite <- (take_drop_middle es j e0 Hj) at 1.
    rewrite array_blocks_app, array_blocks_cons, Hnone. reflexivity.
  - rewrite insert_take_drop by (eapply lookup_lt_Some; eassumption).
    rewrite array_blocks_app, array_blocks_cons. reflexivity.
Qed.

Lemma elem_of_array_blocks_insert (es : list (ht_element boxed_value)) (j : nat)
    (e0 e' : ht_element boxed_value) (a : Z) :
  es !! j = Some e0 -> element_blocks e0 = [] ->
  a ∈ array_blocks (<[j := e']> es) <-> a ∈ element_blocks e' \/ a ∈ array_blocks es.
Proof.
  intros Hj Hnone.
  destruct (array_blocks_insert es j e0 e' Hj Hnone) as [-> ->].
  rewrite !elem_of_app. tauto.
Qed.

Lemma NoDup_array_blocks_insert (es : list (ht_element boxed_value)) (j : nat)
    (e0 e' : ht_element boxed_value) :
  es !! j = Some e0 -> element_blocks e0 = [] ->
  NoDup (array_blocks es) -> NoDup (element_blocks e') ->
  (forall a, a ∈ element_blocks e' -> a ∉ array_blocks es) ->
  NoDup (array_blocks (<[j := e']> es)).
Proof.
  intros Hj Hnone Hnd Hnd' Hdisj.
  destruct (array_blocks_insert es j e0 e' Hj Hnone) as [Heq ->].
  rewrite Heq in Hnd, Hdisj.
  apply NoDup_app in Hnd. destruct Hnd as (Hn1 & Hd & Hn2).
  apply NoDup_app. split; [assumption|]. split.
  - intros x Hx1 Hx. apply elem_of_app in Hx. destruct Hx as [Hx|Hx].
    + apply (Hdisj x Hx). apply elem_of_app. left. assumption.
    + exact (Hd x Hx1 Hx).
  - apply NoDup_app. split; [assumption|]. split; [|assumption].
    intros x Hx Hx2. apply (Hdisj x Hx). apply elem_of_app. right. assumption.
Qed.

Lemma element_blocks_free (e : ht_element boxed_value) :
  e_occupied e = 0 -> element_blocks e = [].
Proof. intros Hfree. unfold element_blocks. rewrite Hfree. reflexivity. Qed.

End AddThenDelete.


(** ** Error paths of [ht_add_pair] *)




Lemma hash_int_as_int_to_uint32 (x : Z) : hash_int (as_int (to_uint32 x)) = hash_int x.
Proof.
  unfold hash_int, as_int. rewrite to_int_to_uint32.
  unfold to_uint32. rewrite Z.mod_mod by lia. reflexivity.
Qed.

(** ** [ht_add_pair] on the table that holds "fig" *)

Lemma probe_misses_three (w : world boxed_value) :
  probe_misses w fig_elements (t_capacity fig_table) three 1
    (hash_int 3 mod t_capacity fig_table) 12.
Proof.
  change (probe_misses w fig_elements 16 three 1 11 12).
  eapply miss_next with (e := fig_slot);
    [lia | reflexivity | discriminate | left; discriminate |].
  change (to_size_t (11 + 1) mod 16) with 12.
  eapply miss_here with (e := zero_element); [lia | reflexivity | reflexivity].
Defined.

Lemma probe_misses_fig (w : world boxed_value) :
  probe_misses w (repeat zero_element 16) (t_capacity created_table) fig_key 0
    (193491643 mod t_capacity created_table) 11.
Proof.
  change (probe_misses w (repeat zero_element 16) 16 fig_key 0 11 11).
  eapply miss_here with (e := zero_element); [lia | reflexivity | reflexivity].
Defined.

Lemma key_live_fig_key : key_live (heap fig_caller_world) fig_key.
Proof.
  right. split; [reflexivity|].
  exists fig, (list_byte_of_string "fig"). split; reflexivity.
Defined.





(** ** [ht_add_elements] *)

(** X14.  [ht_add_elements] with no table (a null [table], or a null
    pointer in the caller's variable) or with an odd number of
    arguments adds nothing: it prints one message on stderr and
    returns with the memory as it was. *)
Theorem ht_add_elements_rejects_invalid_arguments
    (fuel : nat) (table elements_quantity : Z) (args : list Z) (w : world boxed_value) :
  table = 0 \/
  (exists bs curr_table,
     heap w !! table = Some (BBytes bs) /\ read_ptr bs = Some curr_table /\
     (curr_table = 0 \/ elements_quantity mod 2 <> 0)) ->
  exists msg,
    ht_add_elements fuel table elements_quantity args w = Ret tt (printed w [(Stderr, msg)]).
Proof.
  intros Hbad. unfold ht_add_elements.
  destruct (Z.eqb_spec table 0) as [Hz|Hnz].
  { eexists. apply fprintf_printed. }
  destruct Hbad as [?|(bs & curr_table & Hvar & Hptr & Hbad)]; [contradiction|].
  rewrite (bind_Ret _ _ _ _ _ (load_pointer_eq _ _ _ _ Hvar Hptr)).
  destruct (Z.eqb_spec curr_table 0) as [Hc|Hc].
  { eexists. apply fprintf_printed. }
  destruct Hbad as [?|Hodd]; [contradiction|].
  destruct (Z.eqb_spec (elements_quantity mod 2) 0); [contradiction|].
  eexists. apply fprintf_printed.
Qed.

Lemma ht_add_elements_rejects_invalid_arguments_witness :
  exists msg,
    ht_add_elements 64 7 3 [1; 10; 2] fig_owner_world
    = Ret tt (printed fig_owner_world [(Stderr, msg)]).
Proof.
  apply (ht_add_elements_rejects_invalid_arguments 64 7 3 [1; 10; 2] fig_owner_world).
  right. exists (le_encode 8 1), 1.
  split; [reflexivity|]. split; [reflexivity|]. right. discriminate.
Defined.

Section AddElements.

Local Abbreviation W := (world boxed_value).

Lemma fold_min_bound (l : list (Z * block boxed_value)) (k : Z) (b : block boxed_value) :
  (k, b) ∈ l -> foldr (fun kv acc => Z.min (fst kv) acc) 0 l <= k.
Proof.
  induction l as [|[k' b'] l IH]; intros Hin.
  - inversion Hin.
  - simpl. apply elem_of_cons in Hin as [Heq|Hin].
    + inversion Heq; subst. lia.
    + specialize (IH Hin). lia.
Qed.

Lemma local_addr_neg (h : gmap Z (block boxed_value)) : local_addr h < 0.
Proof.
  unfold local_addr.
  assert (foldr (fun kv acc => Z.min (fst kv) acc) 0 (map_to_list h) <= 0); [|lia].
  induction (map_to_list h) as [|kv l IH]; simpl; lia.
Qed.

Lemma local_addr_fresh (h : gmap Z (block boxed_value)) : h !! local_addr h = None.
Proof.
  destruct (h !! local_addr h) as [b|] eqn:E; [|reflexivity].
  apply elem_of_map_to_list in E. apply fold_min_bound in E.
  unfold local_addr in E. lia.
Qed.

(** The block of a local whose address is only taken ends with the
    memory as it was. *)
Lemma with_local_ret {A : Type} (bytes : list byte) (f : Z -> A) (w : W) :
  with_local bytes (fun p => ret (f p)) w = Ret (f (local_addr (heap w))) w.
Proof.
  unfold with_local, ret. f_equal.
  rewrite set_heap_set_heap. cbn [heap set_heap].
  rewrite delete_insert_id by apply local_addr_fresh.
  apply set_heap_id.
Qed.

Lemma bind_Undef {A B : Type} (m : M W A) (k : A -> M W B) (w : W) :
  m w = Undef -> bind m k w = Undef.
Proof. intros E. unfold bind. rewrite E. reflexivity. Qed.

(** [ht_add_pair] for a new int key and a value pointer to no live
    object: it comes to the [memcpy] from that pointer. *)
Lemma ht_add_pair_dead_value (fuel : nat) (table : Z) (key : ht_key) (value : ht_val_arg)
    (w : W) (t : hash_table) (es : list (ht_element boxed_value)) (n : nat) (j : Z) :
  table <> 0 ->
  heap w !! table = Some (BTable t) ->
  t_elements t <> 0 ->
  heap w !! t_elements t = Some (BElems es) ->
  0 < t_capacity t ->
  a_ptr value < 0 ->
  heap w !! a_ptr value = None ->
  k_type key = HT_INT_KEY ->
  probe_misses w es (t_capacity t) key n (hash_int (as_int (k_data key)) mod t_capacity t) j ->
  grows_for_one_more t = false ->
  next_answer (alloc_plan w) = true ->
  (n < fuel)%nat ->
  ht_add_pair fuel table key value w = Undef.
Proof.
  intros Htab Ht Hel Hes Hcap Hneg Hdead Hint Hprobe Hgrow Hplan Hfuel.
  destruct (probe_misses_slot _ _ _ _ _ _ _ Hprobe) as [Hj0 [e0 [He0 Hfree0]]].
  assert (Hjlt : 0 <= j < Z.of_nat (length es)).
  { apply lookup_lt_Some in He0. lia. }
  assert (Hte : table <> t_elements t) by congruence.
  assert (Hvt : a_ptr value <> table) by congruence.
  assert (Hve : a_ptr value <> t_elements t) by congruence.
  assert (Hdig : key_digest (heap w) key = Some (hash_int (as_int (k_data key)))).
  { unfold key_digest. rewrite Hint. reflexivity. }
  set (t1 := with_size t (to_size_t (t_size t + 1))).
  set (w1 := set_heap w (<[table := BTable t1]> (heap w))).
  unfold ht_add_pair.
  destruct (Z.eqb_spec table 0); [contradiction|].
  rewrite (bind_Ret _ _ _ _ _ (load_table_eq _ _ _ Ht)).
  destruct (Z.eqb_spec (t_elements t) 0); [contradiction|].
  destruct (Z.eqb_spec (a_ptr value) 0); [lia|].
  rewrite (bind_Ret _ _ _ _ _ (ht_add_pair_hashed key _ w Hdig)).
  destruct (Z.eqb_spec (t_capacity t) 0); [lia|].
  rewrite (bind_Ret _ _ _ _ _
             (ht_add_pair_probe_misses w table t es key value n _ j Ht Hes Hprobe fuel Hfuel)).
  cbv beta iota.
  rewrite (bind_Ret _ _ _ _ _ (load_table_eq _ _ _ Ht)).
  erewrite bind_Ret; [|eapply store_table_eq; eassumption].
  fold t1. fold w1.
  change (dgt (ddiv (inject_Z (t_size t1)) (inject_Z (t_capacity t1)))
            (t_max_load_factor t1)) with (grows_for_one_more t).
  rewrite Hgrow.
  rewrite bind_Ret with (a := j) (w' := w1) by reflexivity.
  assert (Ht1 : heap w1 !! table = Some (BTable t1)) by apply lookup_insert_eq.
  assert (Hes1 : heap w1 !! t_elements t = Some (BElems es)).
  { subst w1. simpl. rewrite lookup_insert_ne by congruence. assumption. }
  unfold ht_add_pair_new.
  rewrite (bind_Ret _ _ _ _ _ (load_table_eq _ _ _ Ht1)).
  change (t_elements t1) with (t_elements t).
  rewrite (bind_Ret _ _ _ _ _ (load_element_eq _ _ _ _ _ Hes1 Hj0 He0)).
  erewrite bind_Ret; [|eapply store_element_eq; eassumption].
  set (e1 := {| e_key := e_key e0; e_value := e_value e0; e_occupied := 1 |}).
  set (w2 := set_heap w1 (<[t_elements t := BElems (<[Z.to_nat j := e1]> es)]> (heap w1))).
  assert (Hes2 : heap w2 !! t_elements t = Some (BElems (<[Z.to_nat j := e1]> es)))
    by apply lookup_insert_eq.
  assert (Hjlt2 : 0 <= j < Z.of_nat (length (<[Z.to_nat j := e1]> es)))
    by (rewrite length_insert; assumption).
  assert (Hplan2 : next_answer (alloc_plan w2) = true) by exact Hplan.
  assert (Hdead2 : heap w2 !! a_ptr value = None).
  { subst w2 w1. simpl. rewrite !lookup_insert_ne by congruence. assumption. }
  assert (Hnstr : (k_type key =? HT_STR_KEY) = false) by (rewrite Hint; reflexivity).
  rewrite Hnstr.
  erewrite bind_Ret.
  2:{ erewrite bind_Ret; [|eapply store_element_eq; eassumption]. reflexivity. }
  cbv beta iota.
  unfold malloc.
  erewrite bind_Ret; [|apply alloc_succeeds; simpl; assumption].
  set (p := fresh_addr _).
  assert (Hp : 0 < p) by apply fresh_addr_pos.
  erewrite bind_Ret.
  2:{ eapply store_element_eq; [simpl; rewrite lookup_insert_ne|].
      - apply lookup_insert_eq.
      - subst p. eapply fresh_addr_neq. simpl. apply lookup_insert_eq.
      - rewrite length_insert. assumption. }
  destruct (Z.eqb_spec p 0); [lia|].
  apply bind_Undef.
  unfold memcpy. simpl.
  repeat (rewrite (lookup_insert_ne _ _ (a_ptr value)) by (congruence || lia)).
  rewrite Hdead.
  destruct (_ !! p) as [[| |d]|]; reflexivity.
Qed.

End AddElements.



(** ** A new key through [ht_add_pair] when the table grows *)

Section AddWithGrowth.

Local Abbreviation W := (world boxed_value).

(** On a capacity that is a power of two the probing loop after the
    resize is the probing loop of the rehash: the remainder and the
    mask select the same slot. *)
Lemma ht_add_pair_reprobe_rehash_probe (table : Z) (t : hash_table) (m : Z) (w : W) :
  heap w !! table = Some (BTable t) ->
  0 <= m -> t_capacity t = 2 ^ m -> t_capacity t < 2 ^ 64 ->
  forall (fuel : nat) (index : Z),
    ht_add_pair_reprobe fuel table index w
    = rehash_probe fuel (t_elements t) (t_capacity t) index w.
Proof.
  intros Ht Hm Hcap Hlt. induction fuel as [|fuel IH]; intros index; [reflexivity|].
  simpl. rewrite (bind_Ret _ _ _ _ _ (load_table_eq _ _ _ Ht)).
  unfold bind. pose proof (readonly_load_element (t_elements t) index w) as Hro.
  destruct (load_element (t_elements t) index w) as [e w'| | | |]; try reflexivity.
  subst w'. destruct (e_occupied e =? 0); [reflexivity|].
  rewrite IH. rewrite (mask_mod _ _ m) by assumption. reflexivity.
Qed.

Lemma logical_key_digest_kept (h h' : gmap Z (block boxed_value)) (k : ht_key) (d : Z) :
  bytes_kept h h' -> key_digest h k = Some d ->
  logical_key h' k = logical_key h k /\ key_digest h' k = Some d.
Proof.
  intros Hkept. unfold key_digest, logical_key.
  destruct (k_type k =? HT_INT_KEY); [intros Hd; split; [reflexivity|assumption]|].
  destruct (k_type k =? HT_STR_KEY); [|discriminate].
  destruct (h !! as_str (k_data k)) as [[| |bs]|] eqn:Hbs; try discriminate.
  rewrite (Hkept _ _ Hbs). intros Hd. split; [reflexivity|assumption].
Qed.

Lemma entries_digest_kept (h h' : gmap Z (block boxed_value))
    (es : list (ht_element boxed_value)) :
  bytes_kept h h' ->
  Forall (fun e => occupied e -> is_Some (key_digest h (e_key e))) es ->
  entries h' es = entries h es.
Proof.
  intros Hkept. unfold entries.
  induction 1 as [|e es He Hes IH]; [reflexivity|].
  rewrite !filter_cons. destruct (decide (occupied e)) as [Hocc|_]; [|assumption].
  simpl. rewrite IH. destruct (He Hocc) as [d Hd].
  destruct (logical_key_digest_kept h h' (e_key e) d Hkept Hd) as [-> _]. reflexivity.
Qed.

Lemma filter_occupied_le (es : list (ht_element boxed_value)) :
  (length (filter occupied es) <= length es)%nat.
Proof.
  induction es as [|e l IH]; [reflexivity|].
  rewrite filter_cons. destruct (decide (occupied e)); simpl; lia.
Qed.

Lemma ht_add_pair_growth_eq (fuel : nat) (table : Z) (key : ht_key) (value : ht_val_arg)
    (w : W) (t : hash_table) (es : list (ht_element boxed_value)) (src : list byte)
    (hash_value m : Z) (n : nat) (j : Z) :
  table <> 0 ->
  heap w !! table = Some (BTable t) ->
  t_elements t <> 0 ->
  heap w !! t_elements t = Some (BElems es) ->
  Z.of_nat (length es) = t_capacity t ->
  0 <= m -> t_capacity t = 2 ^ m ->
  2 * t_capacity t * sizeof_ht_element <= SIZE_MAX ->
  keys_live (heap w) es ->
  pointers_in_range es ->
  a_ptr value <> 0 ->
  heap w !! a_ptr value = Some (BBytes src) ->
  0 <= a_size value <= Z.of_nat (length src) ->
  key_live (heap w) key ->
  key_digest (heap w) key = Some hash_value ->
  probe_misses w es (t_capacity t) key n (hash_value mod t_capacity t) j ->
  grows_for_one_more t = true ->
  alloc_plan w = [] ->
  (n < fuel)%nat -> (Z.to_nat (2 * t_capacity t) <= fuel)%nat ->
  exists w' new es' k' p,
    ht_add_pair fuel table key value w = Ret tt w' /\
    console w' = console w /\
    table_at w' table
      = Some (with_elements
                (with_capacity (with_size t (to_size_t (t_size t + 1))) (2 * t_capacity t))
                new) /\
    elements_at w' new = Some es' /\
    Z.of_nat (length es') = 2 * t_capacity t /\
    entries (heap w') es'
      ≡ₚ (logical_key (heap w) key, {| b_value := p; b_value_size := a_size value |})
         :: entries (heap w) es /\
    well_placed (heap w') es' (2 * t_capacity t) /\
    k_type k' = k_type key /\
    heap w' !! p = Some (BBytes (firstn (Z.to_nat (a_size value)) src)) /\
    bytes_kept (heap w) (heap w').
Proof.
  intros Htab Ht Hel Hes Hlen Hm Hcap Hfit Hlive Hrange Hptr Hsrc Hsize Hklive Hdig Hprobe
    Hgrow Hplan Hfuel Hfuel2.
  assert (Hcpos : 0 < t_capacity t) by (rewrite Hcap; apply Z.pow_pos_nonneg; lia).
  assert (Hsz : 0 < sizeof_ht_element (V := boxed_value)) by reflexivity.
  assert (Hsmall : 2 * t_capacity t < 2 ^ 64).
  { unfold SIZE_MAX in Hfit. change (sizeof_ht_element (V := boxed_value)) with 40 in Hfit.
    lia. }
  assert (Hte : table <> t_elements t) by congruence.
  set (t1 := with_size t (to_size_t (t_size t + 1))).
  set (w1 := set_heap w (<[table := BTable t1]> (heap w))).
  assert (Hkept1 : bytes_kept (heap w) (heap w1)).
  { intros a bs Ha. subst w1. simpl. rewrite lookup_insert_ne by congruence. assumption. }
  assert (Ht1 : heap w1 !! table = Some (BTable t1)) by apply lookup_insert_eq.
  assert (Hes1 : heap w1 !! t_elements t = Some (BElems es)).
  { subst w1. simpl. rewrite lookup_insert_ne by congruence. assumption. }
  (* the resize *)
  destruct (resize_ht_grows_eq boxed_value boxed_cell fuel table t1 es m w1)
    as [w2 [new [es2 (Hrun2 & Htab2 & Hnew2 & Hlen2 & Hold2 & Hperm2 & Hplaced2 & Hkeep2
                      & Hcons2 & Hplan2 & Hfresh2)]]]; try assumption.
  { eapply keys_live_kept; eassumption. }
  change (t_capacity t1) with (t_capacity t) in *.
  change (t_elements t1) with (t_elements t) in *.
  set (t2 := with_elements (with_capacity t1 (2 * t_capacity t)) new) in *.
  assert (Hkept12 : bytes_kept (heap w1) (heap w2)).
  { intros a bs Ha. apply Hkeep2; [congruence|congruence|assumption]. }
  assert (Hkept2 : bytes_kept (heap w) (heap w2)).
  { intros a bs Ha. apply Hkept12, Hkept1. assumption. }
  (* the probing of the new array *)
  assert (Hcount : (length (filter occupied es2) < length es2)%nat).
  { pose proof (Permutation_length Hperm2) as Hl. rewrite !entries_length in Hl.
    pose proof (filter_occupied_le es). lia. }
  assert (Hidx : 0 <= hash_value mod (2 * t_capacity t) < 2 * t_capacity t)
    by (apply Z.mod_pos_bound; lia).
  destruct (rehash_probe_free_slot fuel new (2 * t_capacity t) (m + 1)
              (hash_value mod (2 * t_capacity t)) es2 w2)
    as [j2 [e2 (Hprobe2 & Hj2 & He2 & Hfree2 & Hpath2)]]; try assumption.
  { lia. }
  { rewrite Z.pow_add_r by lia. rewrite Hcap. lia. }
  assert (Hreprobe : ht_add_pair_reprobe fuel table (hash_value mod (2 * t_capacity t)) w2
                     = Ret j2 w2).
  { rewrite (ht_add_pair_reprobe_rehash_probe table t2 (m + 1) w2); try assumption.
    - lia.
    - simpl. rewrite Z.pow_add_r by lia. rewrite Hcap. lia. }
  (* the new element *)
  destruct (ht_add_pair_new_eq table j2 t2 es2 e2 key value src w2)
    as (w' & k' & p & Hnew & Hplan' & Hcons' & Hes' & Hty & Hint & Hlk & Hdg & Hlive'
        & Hp0 & Hk0 & Hp & Hnd & Hfresh & Hkept); try assumption.
  { lia. }
  { eapply key_live_kept; eassumption. }
  { apply Hkept2. assumption. }
  change (t_elements t2) with new in *.
  set (e' := new_element k' p (a_size value)) in *.
  assert (Hkept' : bytes_kept (heap w2) (heap w')).
  { intros a bs Ha. rewrite Hkept; [assumption|congruence|].
    intros Hin. destruct (Hfresh a Hin) as [Hnone _]. congruence. }
  assert (Hdigests : Forall (fun e => occupied e -> is_Some (key_digest (heap w2) (e_key e)))
                       es2).
  { apply Forall_lookup. intros i e Hi Hocc.
    destruct (Hplaced2 i e Hi Hocc) as [d [Hd _]]. eexists. eassumption. }
  assert (Hocc' : occupied e') by (unfold occupied; simpl; lia).
  assert (Hfree2' : ~ occupied e2) by (unfold occupied; lia).
  exists w', new, (<[Z.to_nat j2 := e']> es2), k', p.
  split.
  { unfold ht_add_pair.
    destruct (Z.eqb_spec table 0); [contradiction|].
    rewrite (bind_Ret _ _ _ _ _ (load_table_eq _ _ _ Ht)).
    destruct (Z.eqb_spec (t_elements t) 0); [contradiction|].
    destruct (Z.eqb_spec (a_ptr value) 0); [contradiction|].
    rewrite (bind_Ret _ _ _ _ _ (ht_add_pair_hashed key hash_value w Hdig)).
    destruct (Z.eqb_spec (t_capacity t) 0); [lia|].
    rewrite (bind_Ret _ _ _ _ _
               (ht_add_pair_probe_misses w table t es key value n _ j Ht Hes Hprobe fuel Hfuel)).
    cbv beta iota.
    rewrite (bind_Ret _ _ _ _ _ (load_table_eq _ _ _ Ht)).
    erewrite bind_Ret; [|eapply store_table_eq; eassumption].
    fold t1. fold w1.
    change (dgt (ddiv (inject_Z (t_size t1)) (inject_Z (t_capacity t1)))
              (t_max_load_factor t1)) with (grows_for_one_more t).
    rewrite Hgrow.
    erewrite bind_Ret; [exact Hnew|].
    rewrite (bind_Ret _ _ _ _ _ Hrun2).
    rewrite (bind_Ret _ _ _ _ _ (load_table_eq _ _ _ Htab2)).
    change (t_capacity t2) with (2 * t_capacity t).
    destruct (Z.eqb_spec (2 * t_capacity t) 0); [lia|].
    exact Hreprobe. }
  split; [rewrite Hcons', Hcons2; reflexivity|].
  split.
  { unfold table_at. rewrite Hkept.
    - rewrite Htab2. reflexivity.
    - congruence.
    - intros Hin. destruct (Hfresh table Hin) as [Hnone _]. congruence. }
  split; [unfold elements_at; rewrite Hes'; reflexivity|].
  split; [rewrite length_insert; assumption|].
  split.
  { rewrite (entries_insert (heap w') es2 (Z.to_nat j2) e2 e') by assumption.
    apply Permutation_cons.
    - subst e'. simpl. rewrite Hlk. f_equal. apply logical_key_kept; assumption.
    - rewrite (entries_digest_kept (heap w2) (heap w')) by assumption.
      rewrite Hperm2. rewrite (entries_kept (heap w) (heap w1)) by assumption.
      reflexivity. }
  split.
  { intros i e Hi Hocc.
    destruct (decide (i = Z.to_nat j2)) as [->|Hne].
    - rewrite list_lookup_insert_eq in Hi by (apply lookup_lt_Some in He2; assumption).
      inversion Hi; subst e. exists hash_value. split.
      + simpl. rewrite Hdg. rewrite (key_digest_kept (heap w) (heap w2)) by assumption.
        assumption.
      + rewrite Z2Nat.id by lia. apply probe_path_insert; assumption.
    - rewrite list_lookup_insert_ne in Hi by congruence.
      destruct (Hplaced2 i e Hi Hocc) as [d [Hd Hpath]].
      exists d. split.
      + apply (logical_key_digest_kept (heap w2) (heap w') _ d Hkept' Hd).
      + apply probe_path_insert; assumption. }
  split; [assumption|].
  split; [assumption|].
  intros a bs Ha. apply Hkept', Hkept2. assumption.
Qed.

End AddWithGrowth.


Lemma keys_live_twelve_pairs : keys_live (heap twelve_pairs_world) twelve_pairs.
Proof.
  unfold keys_live, twelve_pairs.
  repeat apply List.Forall_cons; try apply List.Forall_nil;
    try (intros _; left; reflexivity);
    intros Hocc; exfalso; apply Hocc; reflexivity.
Defined.

Lemma pointers_in_range_twelve_pairs : pointers_in_range twelve_pairs.
Proof.
  unfold pointers_in_range, twelve_pairs.
  repeat apply List.Forall_cons; try apply List.Forall_nil;
    try (intros _ Hstr; discriminate Hstr);
    intros Hocc; exfalso; apply Hocc; reflexivity.
Defined.

Lemma probe_misses_seventeen :
  probe_misses twelve_pairs_world twelve_pairs (t_capacity twelve_pairs_table) seventeen 5
    (hash_int 17 mod t_capacity twelve_pairs_table) 14.
Proof.
  change (probe_misses twelve_pairs_world twelve_pairs 16 seventeen 5 9 14).
  eapply miss_next with (e := int_slot 1);
    [lia | reflexivity | discriminate | right; reflexivity |].
  change (to_size_t (9 + 1) mod 16) with 10.
  eapply miss_next with (e := int_slot 10);
    [lia | reflexivity | discriminate | right; reflexivity |].
  change (to_size_t (10 + 1) mod 16) with 11.
  eapply miss_next with (e := int_slot 3);
    [lia | reflexivity | discriminate | right; reflexivity |].
  change (to_size_t (11 + 1) mod 16) with 12.
  eapply miss_next with (e := int_slot 12);
    [lia | reflexivity | discriminate | right; reflexivity |].
  change (to_size_t (12 + 1) mod 16) with 13.
  eapply miss_next with (e := int_slot 5);
    [lia | reflexivity | discriminate | right; reflexivity |].
  change (to_size_t (13 + 1) mod 16) with 14.
  eapply miss_here with (e := zero_element); [lia | reflexivity | reflexivity].
Defined.

